(** * A* path finding on a square grid (Astar.py): shallow embedding and
      verification of the search core and of the editor around it.

    pygame itself (the window, the rendering of rectangles and lines) is
    outside the model.  What is modelled:

    - [Node] and its colour-as-status methods, with the rectangle that
      [Node.draw] paints,
    - [make_grid], [get_clicked_pos], [Node.update_neighbors] and the
      adjacency pass of [main],
    - the heuristic [h],
    - [reconstruct_path] and [algorithm], with the [draw] callback modelled
      as an event that records the grid it observes,
    - the indexing [grid[row][col]] used by [main] and [update_neighbors],
      with Python's semantics of negative indices and [IndexError],
    - the event loop of [main]: what mouse buttons and keys do to the
      grid, [start] and [end].

    Python integers are unbounded: they are modelled by [Z].  The value
    [float("inf")] only ever meets integers through [+] and [<]; numbers
    are modelled by [Num], an integer or infinity. *)

From Stdlib Require Import ZArith Lia List.
From stdpp Require Import base gmap list sorting.

Local Open Scope Z_scope.

(** ** Exceptions and results *)

Inductive exn := IndexError | KeyError | ZeroDivisionError.

(** [OutOfFuel] is not a Python outcome: it is what a loop of the model
    answers when the fuel it was given is exhausted. *)
Inductive res (A : Type) : Type :=
  | Ok (a : A)
  | Raise (e : exn)
  | OutOfFuel.
Arguments Ok {A} a.
Arguments Raise {A} e.
Arguments OutOfFuel {A}.

Definition bind {A B} (m : res A) (k : A -> res B) : res B :=
  match m with
  | Ok a => k a
  | Raise e => Raise e
  | OutOfFuel => OutOfFuel
  end.

Notation "'let*' x ':=' m 'in' k" := (bind m (fun x => k))
  (at level 10, x name, m at level 100, k at level 200).

Fixpoint mapM {A B} (f : A -> res B) (l : list A) : res (list B) :=
  match l with
  | [] => Ok []
  | a :: l' => let* b := f a in let* bs := mapM f l' in Ok (b :: bs)
  end.

Fixpoint foldM {A S} (f : A -> S -> res S) (l : list A) (s : S) : res S :=
  match l with
  | [] => Ok s
  | a :: l' => let* s' := f a s in foldM f l' s'
  end.

(** ** Python list indexing: [l[i]] *)

Definition getitem {A} (l : list A) (i : Z) : res A :=
  let n := Z.of_nat (length l) in
  let j := if i <? 0 then i + n else i in
  if (0 <=? j) && (j <? n) then
    match l !! Z.to_nat j with
    | Some a => Ok a
    | None => Raise IndexError
    end
  else Raise IndexError.

(** ** Colours *)

Abbreviation Color := (Z * Z * Z)%type.

Definition RED : Color := (255, 0, 0).
Definition GREEN : Color := (0, 255, 0).
Definition BLUE : Color := (0, 0, 255).
Definition YELLOW : Color := (255, 255, 0).
Definition WHITE : Color := (255, 255, 255).
Definition BLACK : Color := (0, 0, 0).
Definition PURPLE : Color := (128, 0, 128).
Definition ORANGE : Color := (255, 165, 0).
Definition GREY : Color := (128, 128, 128).
Definition TURQUOISE : Color := (64, 224, 208).

(** ** Nodes

    A Node object is referred to by its position: [make_grid] builds one
    Node per (row, col), no method reassigns [row] or [col], and [Node]
    defines neither [__eq__] nor [__hash__], so that equality and hashing
    of Nodes are those of object identity.  A reference to a Node is the
    pair returned by its [get_pos]. *)

Abbreviation pos := (Z * Z)%type.

Record Node := mkNode {
  row : Z;
  col : Z;
  x : Z;
  y : Z;
  color : Color;
  neighbors : list pos;
  width : Z;
  total_rows : Z
}.

Definition Node_init (r c w tr : Z) : Node :=
  {| row := r; col := c; x := r * w; y := c * w; color := WHITE;
     neighbors := []; width := w; total_rows := tr |}.

Definition get_pos (n : Node) : pos := (row n, col n).

Definition is_closed (n : Node) : bool := bool_decide (color n = RED).
Definition is_open (n : Node) : bool := bool_decide (color n = GREEN).
Definition is_barrier (n : Node) : bool := bool_decide (color n = BLACK).
Definition is_start (n : Node) : bool := bool_decide (color n = ORANGE).
Definition is_end (n : Node) : bool := bool_decide (color n = TURQUOISE).

Definition set_color (c : Color) (n : Node) : Node :=
  {| row := row n; col := col n; x := x n; y := y n; color := c;
     neighbors := neighbors n; width := width n; total_rows := total_rows n |}.

Definition set_neighbors (ns : list pos) (n : Node) : Node :=
  {| row := row n; col := col n; x := x n; y := y n; color := color n;
     neighbors := ns; width := width n; total_rows := total_rows n |}.

Definition reset := set_color WHITE.
Definition make_start := set_color ORANGE.
Definition make_closed := set_color RED.
Definition make_open := set_color GREEN.
Definition make_barrier := set_color BLACK.
Definition make_end := set_color TURQUOISE.
Definition make_path := set_color PURPLE.

(** ** [Node.draw(win)] *)

(** The arguments of the call of [pygame.draw.rect]: the colour, and the
    rectangle (left, top, width, height). *)
Definition Node_draw (n : Node) : Color * (Z * Z * Z * Z) :=
  (color n, (x n, y n, width n, width n)).

(** ** The grid: a list of rows of Nodes *)

Abbreviation Grid := (list (list Node)).

(** Dereferencing: the Node a reference denotes, stored at these indices. *)
Definition node_at (g : Grid) (p : pos) : option Node :=
  if (0 <=? p.1) && (0 <=? p.2) then
    r ← g !! Z.to_nat p.1; r !! Z.to_nat p.2
  else None.

(** A method call that mutates the Node a reference denotes. *)
Definition update_node (f : Node -> Node) (p : pos) (g : Grid) : Grid :=
  if (0 <=? p.1) && (0 <=? p.2) then
    alter (alter f (Z.to_nat p.2)) (Z.to_nat p.1) g
  else g.

Definition color_at (g : Grid) (p : pos) : option Color :=
  color <$> node_at g p.

(** [current.neighbors] *)
Definition neighbors_of (g : Grid) (p : pos) : list pos :=
  match node_at g p with
  | Some n => neighbors n
  | None => []
  end.

(** [make_grid(rows, width)]; [//] raises on a zero divisor. *)
Definition make_grid (rows w : Z) : res Grid :=
  if rows =? 0 then Raise ZeroDivisionError
  else
    let gap := w / rows in
    Ok ((fun i => (fun j => Node_init i j gap rows) <$> seqZ 0 rows)
          <$> seqZ 0 rows).

(** [grid[row][col]] *)
Definition grid_getitem (g : Grid) (r c : Z) : res Node :=
  let* rw := getitem g r in getitem rw c.

(** [get_clicked_pos(pos, rows, width)] *)
Definition get_clicked_pos (p : Z * Z) (rows w : Z) : res (Z * Z) :=
  if rows =? 0 then Raise ZeroDivisionError
  else
    let gap := w / rows in
    if gap =? 0 then Raise ZeroDivisionError
    else Ok (p.1 / gap, p.2 / gap).

(** [Node.update_neighbors(self, grid)]: the new value of
    [self.neighbors].  [A and not B] evaluates [B], here an indexing that
    may raise, only when [A] holds. *)
Definition update_neighbors (self : Node) (grid : Grid) : res (list pos) :=
  let ns := [] in
  let* ns := (if row self <? total_rows self - 1 then
           let* n := grid_getitem grid (row self + 1) (col self) in
           Ok (if negb (is_barrier n) then ns ++ [get_pos n] else ns)
         else Ok ns) in
  let* ns := (if row self >? 0 then
           let* n := grid_getitem grid (row self - 1) (col self) in
           Ok (if negb (is_barrier n) then ns ++ [get_pos n] else ns)
         else Ok ns) in
  let* ns := (if col self <? total_rows self - 1 then
           let* n := grid_getitem grid (row self) (col self + 1) in
           Ok (if negb (is_barrier n) then ns ++ [get_pos n] else ns)
         else Ok ns) in
  let* ns := (if col self >? 0 then
           let* n := grid_getitem grid (row self) (col self - 1) in
           Ok (if negb (is_barrier n) then ns ++ [get_pos n] else ns)
         else Ok ns) in
  Ok ns.

(** The adjacency pass of [main]:
    [for row in grid: for node in row: node.update_neighbors(grid)].
    The pass writes [neighbors] only and [update_neighbors] reads colours
    and positions only, so every call sees the colours of the grid the
    pass started from. *)
Definition update_all_neighbors (grid : Grid) : res Grid :=
  mapM (fun rw =>
          mapM (fun node =>
                  let* ns := update_neighbors node grid in
                  Ok (set_neighbors ns node)) rw) grid.

(** ** Heuristic *)

Definition h (p1 p2 : pos) : Z :=
  let '(x1, y1) := p1 in
  let '(x2, y2) := p2 in
  Z.abs (x1 - x2) + Z.abs (y1 - y2).

(** ** Numbers: integers and [float("inf")] *)

Inductive Num := Int (z : Z) | Inf.

#[global] Instance Num_eq_dec : EqDecision Num.
Proof. solve_decision. Defined.

Definition num_add (a b : Num) : Num :=
  match a, b with
  | Int u, Int v => Int (u + v)
  | _, _ => Inf
  end.

Definition num_ltb (a b : Num) : bool :=
  match a, b with
  | Int u, Int v => u <? v
  | Int _, Inf => true
  | Inf, _ => false
  end.

(** ** The priority queue

    [queue.PriorityQueue] holds tuples [(priority, count, node)] and [get]
    removes the least one in the order of tuples.  The heap layout is an
    implementation detail of the library: the queue is modelled by the
    list of its entries in the order they were [put], and [get] takes out
    the least entry.  Two entries that agree on priority and count would
    make Python compare Nodes; [algorithm] never puts two such entries
    (lemma [inv_keys_NoDup] below). *)

Abbreviation entry := (Num * Z * (Z * Z))%type.

Definition entry_ltb (a b : entry) : bool :=
  let '(fa, ca, _) := a in
  let '(fb, cb, _) := b in
  num_ltb fa fb || (negb (num_ltb fb fa) && (ca <? cb)).

Definition put (e : entry) (q : list entry) : list entry := q ++ [e].

(** The least entry of a non-empty queue (the earliest among equals). *)
Fixpoint least (e : entry) (q : list entry) : entry :=
  match q with
  | [] => e
  | e' :: q' => least (if entry_ltb e' e then e' else e) q'
  end.

Fixpoint remove_first (e : entry) (q : list entry) : list entry :=
  match q with
  | [] => []
  | e' :: q' => if bool_decide (e' = e) then q' else e' :: remove_first e q'
  end.

(** [open_set.get()] on a non-empty queue; [None] stands for
    [open_set.empty()]. *)
Definition get (q : list entry) : option (entry * list entry) :=
  match q with
  | [] => None
  | e :: q' => let m := least e q' in Some (m, remove_first m q)
  end.

(** ** The state of the search

    The local variables of [algorithm], the grid it mutates through the
    Node methods, and the trace of what the outside can observe: each
    colour mutation and each call of [draw] with the grid it is given to
    render (most recent event first). *)

Inductive event :=
  | Draw (g : Grid)
  | MakeOpen (p : pos)
  | MakeClosed (p : pos)
  | MakePath (p : pos)
  | MakeEnd (p : pos).

Record World := mkWorld {
  grid : Grid;
  trace : list event
}.

Record State := mkState {
  count : Z;
  open_set : list entry;
  came_from : gmap pos pos;
  g_score : gmap pos Num;
  f_score : gmap pos Num;
  open_set_hash : gset pos;
  world : World
}.

Definition draw (w : World) : World :=
  {| grid := grid w; trace := Draw (grid w) :: trace w |}.

Definition mutate (f : Node -> Node) (ev : pos -> event) (p : pos)
    (w : World) : World :=
  {| grid := update_node f p (grid w); trace := ev p :: trace w |}.

Definition with_world (f : World -> World) (st : State) : State :=
  {| count := count st; open_set := open_set st; came_from := came_from st;
     g_score := g_score st; f_score := f_score st;
     open_set_hash := open_set_hash st; world := f (world st) |}.

(** [d[k]] on a dict *)
Definition dict_get {V} (d : gmap pos V) (k : pos) : res V :=
  match d !! k with
  | Some v => Ok v
  | None => Raise KeyError
  end.

(** ** [reconstruct_path(came_from, current, draw)] *)

Fixpoint reconstruct_path (fuel : nat) (cf : gmap pos pos) (current : pos)
    (w : World) : res World :=
  match fuel with
  | O => OutOfFuel
  | S fuel' =>
      match cf !! current with
      | None => Ok w
      | Some c =>
          reconstruct_path fuel' cf c (draw (mutate make_path MakePath c w))
      end
  end.

(** ** [algorithm(draw, grid, start, end)] *)

(** Lines 155-158: a better way to [neighbor] was found. *)
Definition record_better (current neighbor : pos) (temp_g_score f : Num)
    (st : State) : State :=
  {| count := count st;
     open_set := open_set st;
     came_from := <[neighbor := current]> (came_from st);
     g_score := <[neighbor := temp_g_score]> (g_score st);
     f_score := <[neighbor := f]> (f_score st);
     open_set_hash := open_set_hash st;
     world := world st |}.

(** Lines 160-163: [neighbor] enters the open set. *)
Definition push_open (neighbor : pos) (f : Num) (st : State) : State :=
  {| count := count st + 1;
     open_set := put (f, count st + 1, neighbor) (open_set st);
     came_from := came_from st;
     g_score := g_score st;
     f_score := f_score st;
     open_set_hash := {[neighbor]} ∪ open_set_hash st;
     world := mutate make_open MakeOpen neighbor (world st) |}.

(** The body of [for neighbor in current.neighbors]. *)
Definition relax (end_ current neighbor : pos) (st : State) : res State :=
  let* gc := dict_get (g_score st) current in
  let temp_g_score := num_add gc (Int 1) in
  let* gn := dict_get (g_score st) neighbor in
  if num_ltb temp_g_score gn then
    let f := num_add temp_g_score (Int (h neighbor end_)) in
    let st := record_better current neighbor temp_g_score f st in
    if bool_decide (neighbor ∈ open_set_hash st) then Ok st
    else Ok (push_open neighbor f st)
  else Ok st.

(** Lines 140-141: the least entry has left the queue. *)
Definition remove_current (current : pos) (q : list entry) (st : State)
    : State :=
  {| count := count st; open_set := q;
     came_from := came_from st; g_score := g_score st;
     f_score := f_score st;
     open_set_hash := open_set_hash st ∖ {[current]};
     world := world st |}.

(** What one pass through the body of the [while] does: go round again, or
    return.  The polling of pygame events at the head of the body (lines
    135-137) touches none of the variables of the search and is left
    out. *)
Inductive flow :=
  | Continue (st : State)
  | Return (b : bool) (st : State).

Definition iteration (fuel : nat) (start end_ : pos) (st : State) : res flow :=
  match get (open_set st) with
  | None => Ok (Return false st)
  | Some ((_, _, current), q) =>
      if bool_decide (current ∈ open_set_hash st) then
        let st := remove_current current q st in
        if bool_decide (current = end_) then
          let* w := reconstruct_path fuel (came_from st) end_ (world st) in
          Ok (Return true
                (with_world (fun _ => mutate make_end MakeEnd end_ w) st))
        else
          let* st := foldM (relax end_ current)
                           (neighbors_of (grid (world st)) current) st in
          let st := with_world draw st in
          Ok (Continue
                (if bool_decide (current ≠ start)
                 then with_world (mutate make_closed MakeClosed current) st
                 else st))
      else Raise KeyError
  end.

Fixpoint while_open_set (fuel : nat) (start end_ : pos) (st : State)
    : res (bool * State) :=
  match fuel with
  | O => OutOfFuel
  | S fuel' =>
      let* r := iteration fuel' start end_ st in
      match r with
      | Continue st' => while_open_set fuel' start end_ st'
      | Return b st' => Ok (b, st')
      end
  end.

(** [{node: float("inf") for row in grid for node in row}] *)
Definition all_inf (g : Grid) : gmap pos Num :=
  list_to_map ((fun n => (get_pos n, Inf)) <$> concat g).

(** Lines 118-130: the local variables before the loop. *)
Definition init (g : Grid) (start end_ : pos) : State :=
  {| count := 0;
     open_set := put (Int 0, 0, start) [];
     came_from := ∅;
     g_score := <[start := Int 0]> (all_inf g);
     f_score := <[start := Int (h start end_)]> (all_inf g);
     open_set_hash := {[start]};
     world := {| grid := g; trace := [] |} |}.

Definition algorithm (fuel : nat) (g : Grid) (start end_ : pos)
    : res (bool * State) :=
  while_open_set fuel start end_ (init g start end_).

(** The cells [reconstruct_path] marked, in the order it visited them
    (from [end] back to [start]), and the cells opened and closed, in the
    order of the calls. *)
Definition path_marks (tr : list event) : list pos :=
  rev (omap (fun ev => match ev with MakePath p => Some p | _ => None end) tr).

Definition open_closed (tr : list event) : list event :=
  rev (omap (fun ev => match ev with
                       | MakeOpen _ | MakeClosed _ => Some ev
                       | _ => None
                       end) tr).

(** ** Setting up a grid as [main] does *)

Definition paint (c : Color) (p : pos) (g : Grid) : Grid :=
  update_node (set_color c) p g.

(** A grid as [main] leaves it when SPACE is pressed, before the adjacency
    pass: [make_grid], then a start, an end and barriers painted on it. *)
Definition board (rows : Z) (start end_ : pos) (barriers : list pos) : Grid :=
  match make_grid rows 500 with
  | Ok g => foldr (paint BLACK) (paint TURQUOISE end_ (paint ORANGE start g))
                  barriers
  | _ => []
  end.

(** A grid after the adjacency pass. *)
Definition adjacency (g : Grid) : Grid :=
  match update_all_neighbors g with
  | Ok g' => g'
  | _ => []
  end.

Definition prepared (rows : Z) (start end_ : pos) (barriers : list pos)
    : Grid :=
  adjacency (board rows start end_ barriers).

(** ** [main(win, width)]: the event loop

    pygame hands [main] its events in batches, one batch for each pass
    through [while run]; while an event is handled, the state of the
    mouse is polled.  An event of the model carries its type (with the
    key, for KEYDOWN) and what the polls answer while it is handled:
    whether the left and the right button are down, and where the pointer
    is.  The local variables are the grid, [start], [end] and [run]
    ([started] is never read); [start] and [end] hold None or a reference
    to a Node.  A Node is truthy ([Node] defines neither [__bool__] nor
    [__len__]), so that [not start] tests for None, and [node != end]
    compares identities.  The calls that render ([draw],
    [pygame.quit]) are left out; a search started from [main] is given
    the fuel of the model.  The events that arrive while a search runs
    are taken by the loop of [algorithm] (lines 135-137): the batches of
    the model are those that [main] receives. *)

Definition ROWS : Z := 50.

Inductive Key := K_SPACE | K_c | K_other.

Inductive EventType := QUIT | KEYDOWN (key : Key) | OTHER.

Record Event := mkEvent {
  ev_type : EventType;
  left_pressed : bool;
  right_pressed : bool;
  mouse_pos : Z * Z
}.

Record Locals := mkLocals {
  m_grid : Grid;
  m_start : option pos;
  m_end : option pos;
  m_run : bool
}.

(** Lines 230-242: the left button is down. *)
Definition left_click (w : Z) (ev : Event) (m : Locals) : res Locals :=
  let* rc := get_clicked_pos (mouse_pos ev) ROWS w in
  let* node := grid_getitem (m_grid m) rc.1 rc.2 in
  let p := get_pos node in
  if bool_decide (m_start m = None) && bool_decide (Some p <> m_end m) then
    Ok {| m_grid := update_node make_start p (m_grid m);
          m_start := Some p; m_end := m_end m; m_run := m_run m |}
  else if bool_decide (m_end m = None) && bool_decide (Some p <> m_start m)
  then
    Ok {| m_grid := update_node make_end p (m_grid m);
          m_start := m_start m; m_end := Some p; m_run := m_run m |}
  else if bool_decide (Some p <> m_end m) && bool_decide (Some p <> m_start m)
  then
    Ok {| m_grid := update_node make_barrier p (m_grid m);
          m_start := m_start m; m_end := m_end m; m_run := m_run m |}
  else Ok m.

(** Lines 245-252: the right button is down (and the left one is not). *)
Definition right_click (w : Z) (ev : Event) (m : Locals) : res Locals :=
  let* rc := get_clicked_pos (mouse_pos ev) ROWS w in
  let* node := grid_getitem (m_grid m) rc.1 rc.2 in
  let p := get_pos node in
  let g := update_node reset p (m_grid m) in
  if bool_decide (Some p = m_start m) then
    Ok {| m_grid := g; m_start := None; m_end := m_end m; m_run := m_run m |}
  else if bool_decide (Some p = m_end m) then
    Ok {| m_grid := g; m_start := m_start m; m_end := None; m_run := m_run m |}
  else
    Ok {| m_grid := g; m_start := m_start m; m_end := m_end m;
          m_run := m_run m |}.

(** Lines 255-265: a key went down.  The value [algorithm] returns is
    dropped; what remains of the search is the grid it has recoloured. *)
Definition key_down (fuel : nat) (w : Z) (key : Key) (m : Locals)
    : res Locals :=
  let* m :=
    (match key, m_start m, m_end m with
     | K_SPACE, Some s, Some e =>
         let* g := update_all_neighbors (m_grid m) in
         let* r := algorithm fuel g s e in
         Ok {| m_grid := grid (world r.2); m_start := m_start m;
               m_end := m_end m; m_run := m_run m |}
     | _, _, _ => Ok m
     end) in
  match key with
  | K_c =>
      let* g := make_grid ROWS w in
      Ok {| m_grid := g; m_start := None; m_end := None; m_run := m_run m |}
  | _ => Ok m
  end.

(** Lines 226-265: the body of [for event in pygame.event.get()]. *)
Definition handle_event (fuel : nat) (w : Z) (ev : Event) (m : Locals)
    : res Locals :=
  let m := match ev_type ev with
           | QUIT => {| m_grid := m_grid m; m_start := m_start m;
                        m_end := m_end m; m_run := false |}
           | _ => m
           end in
  let* m := (if left_pressed ev then left_click w ev m
       else if right_pressed ev then right_click w ev m
       else Ok m) in
  match ev_type ev with
  | KEYDOWN key => key_down fuel w key m
  | _ => Ok m
  end.

(** Lines 223-265: [while run], over the batches of events still to
    come. *)
Fixpoint event_loop (fuel : nat) (w : Z) (frames : list (list Event))
    (m : Locals) : res Locals :=
  match frames with
  | [] => Ok m
  | events :: frames' =>
      if m_run m then
        let* m := foldM (handle_event fuel w) events m in
        event_loop fuel w frames' m
      else Ok m
  end.

(** [main(win, width)], run on the events of [frames]: the local
    variables when the loop ends or the events are used up. *)
Definition main (fuel : nat) (w : Z) (frames : list (list Event))
    : res Locals :=
  let* g := make_grid ROWS w in
  event_loop fuel w frames
    {| m_grid := g; m_start := None; m_end := None; m_run := true |}.


(** * Specification vocabulary *)

(** ** Grids *)

Definition in_bounds (R : Z) (p : pos) : Prop :=
  0 <= p.1 < R /\ 0 <= p.2 < R.

(** An R-by-R grid whose Node at indices (i, j) carries row i, column j
    and total_rows R: what [make_grid] builds and colour edits keep. *)
Definition grid_ok (R : Z) (g : Grid) : Prop :=
  Z.of_nat (length g) = R /\
  forall (i : nat) (rw : list Node), g !! i = Some rw ->
    Z.of_nat (length rw) = R /\
    forall (j : nat) (n : Node), rw !! j = Some n ->
      get_pos n = (Z.of_nat i, Z.of_nat j) /\ total_rows n = R.

(** [grid_ok], decided. *)
Fixpoint cells_okb (R i j : Z) (cells : list Node) : bool :=
  match cells with
  | [] => true
  | n :: cells' =>
      (row n =? i) && (col n =? j) && (total_rows n =? R)
      && cells_okb R i (j + 1) cells'
  end.

Fixpoint rows_okb (R i : Z) (rows : list (list Node)) : bool :=
  match rows with
  | [] => true
  | rw :: rows' =>
      (Z.of_nat (length rw) =? R) && cells_okb R i 0 rw
      && rows_okb R (i + 1) rows'
  end.

Definition grid_okb (R : Z) (g : Grid) : bool :=
  (Z.of_nat (length g) =? R) && rows_okb R 0 g.

Definition is_barrier_at (g : Grid) (q : pos) : Prop :=
  color_at g q = Some BLACK.

(** ** Adjacency *)

(** The four axis-aligned positions, in the order of [update_neighbors]:
    down, up, right, left. *)
Definition around (p : pos) : list pos :=
  [(p.1 + 1, p.2); (p.1 - 1, p.2); (p.1, p.2 + 1); (p.1, p.2 - 1)].

Definition inside (R : Z) (q : pos) : bool :=
  (0 <=? q.1) && (q.1 <? R) && (0 <=? q.2) && (q.2 <? R).

Definition free (g : Grid) (q : pos) : bool :=
  match node_at g q with
  | Some n => negb (is_barrier n)
  | None => false
  end.

Definition expected_neighbors (R : Z) (g : Grid) (p : pos) : list pos :=
  List.filter (fun q => inside R q && free g q) (around p).

(** The grid the adjacency pass leaves. *)
Definition derived (R : Z) (g : Grid) : Grid :=
  map (map (fun n => set_neighbors (expected_neighbors R g (get_pos n)) n)) g.

(** ** Walks *)

(** One step of a walk over the grid: to an axis-aligned position inside
    the grid whose Cell is not a Barrier. *)
Definition step (R : Z) (g : Grid) (p q : pos) : Prop :=
  q ∈ around p /\ in_bounds R q /\ ~ is_barrier_at g q.

(** Some sequence of such steps leads from [p] to [q]. *)
Definition connected (R : Z) (g : Grid) (p q : pos) : Prop :=
  rtc (step R g) p q.

(** Each cell of [l] but the first is related to the one before it. *)
Definition steps_back (Rel : pos -> pos -> Prop) (l : list pos) : Prop :=
  forall (i : nat) a c, l !! i = Some a -> l !! S i = Some c -> Rel c a.

(** ** Predecessor chains *)

(** The cells [reconstruct_path] visits from [p]: the predecessor of [p],
    its predecessor, and so on, up to a cell that has none. *)
Inductive is_chain (cf : gmap pos pos) : pos -> list pos -> Prop :=
  | chain_end p : cf !! p = None -> is_chain cf p []
  | chain_link p c l :
      cf !! p = Some c -> is_chain cf c l -> is_chain cf p (c :: l).

(** What [reconstruct_path] does to each cell of the chain, in turn. *)
Definition mark_chain (l : list pos) (w : World) : World :=
  foldl (fun w c => draw (mutate make_path MakePath c w)) w l.

(** ** Traces *)

(** The grids [draw] was given to render, most recent first. *)
Definition snapshots (tr : list event) : list Grid :=
  omap (fun ev => match ev with Draw g => Some g | _ => None end) tr.

(** ** Entries of the queue *)

Definition prio (e : entry) : Num := e.1.1.
Definition seqno (e : entry) : Z := e.1.2.
Definition node (e : entry) : pos := e.2.

(** ** A measure for termination *)

(** [wsum w m]: the sum of the weights of the values of a score map. *)
Definition wsum (w : Num -> nat) (m : gmap pos Num) : nat :=
  sum_list ((fun p => from_option w 0%nat (m !! p)) <$> elements (dom m)).

Definition w_inf (n : Num) : nat :=
  match n with Inf => 1%nat | Int _ => 0%nat end.

Definition w_fin (n : Num) : nat :=
  match n with Inf => 0%nat | Int v => Z.to_nat v end.

(** The number of cells not yet discovered, and twice the sum of the
    finite scores plus the size of the queue. *)
Definition undiscovered (st : State) : nat := wsum w_inf (g_score st).
Definition effort (st : State) : nat :=
  (2 * wsum w_fin (g_score st) + length (open_set st))%nat.

(** [s'] is not above [s] in the lexicographic order of
    ([undiscovered], [effort]). *)
Definition not_above (s s' : State) : Prop :=
  (undiscovered s' < undiscovered s)%nat \/
  (undiscovered s' = undiscovered s /\ effort s' <= effort s)%nat.

(** ** The search loop: states, invariants, observations *)

Section SearchVocabulary.
Context (R : Z) (g0 : Grid) (start end_ : pos).

(** One step of the search: from a Cell to one of its neighbors. *)
Definition edge (p q : pos) : Prop := q ∈ neighbors_of g0 p.

(** The state in which the loop goes round again (lines 165-168), after
    [current] was expanded into [st1]. *)
Definition close_current (current : pos) (st1 : State) : State :=
  if bool_decide (current ≠ start)
  then with_world (mutate make_closed MakeClosed current) (with_world draw st1)
  else with_world draw st1.

(** The state in which the search returns True (lines 145-147), once the
    chain [l] of [end] was marked. *)
Definition finish (q : list entry) (l : list pos) (st : State) : State :=
  with_world (fun _ => mutate make_end MakeEnd end_
                         (mark_chain l (world st)))
             (remove_current end_ q st).

(** The states in which the [while] tests its condition. *)
Inductive reachable : State -> Prop :=
  | reachable_init : reachable (init g0 start end_)
  | reachable_next fuel st st' :
      reachable st ->
      iteration fuel start end_ st = Ok (Continue st') ->
      reachable st'.

(** The invariant of the local variables: the score map has the cells of
    the grid as keys, start has score 0 and no predecessor, finite scores
    are not negative; a predecessor has a smaller score, and every cell
    with a finite score but start has one; the queue holds each cell of
    [open_set_hash] once, in the order of the [put]s, with increasing
    sequence numbers up to [count], finite priorities and finite scores;
    the neighbors are those of the grid the search began with; a cell
    with a finite score can be walked to from start. *)
Record inv (st : State) : Prop := {
  inv_keys : forall p, is_Some (g_score st !! p) <-> in_bounds R p;
  inv_start : g_score st !! start = Some (Int 0);
  inv_nonneg : forall p v, g_score st !! p = Some (Int v) -> 0 <= v;
  inv_cf_start : came_from st !! start = None;
  inv_cf : forall n c, came_from st !! n = Some c ->
    exists vn vc, g_score st !! n = Some (Int vn) /\
                  g_score st !! c = Some (Int vc) /\ vc < vn;
  inv_cf_dom : forall p v,
    g_score st !! p = Some (Int v) -> p <> start ->
    is_Some (came_from st !! p);
  inv_hash : forall p, p ∈ open_set_hash st <-> p ∈ node <$> open_set st;
  inv_nodup : NoDup (node <$> open_set st);
  inv_sorted : StronglySorted Z.lt (seqno <$> open_set st);
  inv_count : Forall (fun e => seqno e <= count st) (open_set st);
  inv_fin : Forall (fun e => (exists f, prio e = Int f) /\
                             exists v, g_score st !! node e = Some (Int v))
                   (open_set st);
  inv_frame : forall p, neighbors_of (grid (world st)) p = neighbors_of g0 p;
  inv_reach : forall p v, g_score st !! p = Some (Int v) -> rtc edge start p
}.

(** [start] shows Start, and [end] shows End or, once it has entered the
    open set, Open. *)
Definition calm (g : Grid) : Prop :=
  color_at g start = Some ORANGE /\
  (color_at g end_ = Some TURQUOISE \/ color_at g end_ = Some GREEN).

(** [start] is neither Open nor Closed; [end] is End or Open. *)
Definition settled (g : Grid) : Prop :=
  color_at g start <> Some GREEN /\ color_at g start <> Some RED /\
  (color_at g end_ = Some TURQUOISE \/ color_at g end_ = Some GREEN).

(** The grid is [calm], and so was every grid rendered. *)
Record winv (st : State) : Prop := {
  w_now : calm (grid (world st));
  w_snap : Forall calm (snapshots (trace (world st)));
}.

(** No cell has been marked Path. *)
Record unmarked (st : State) : Prop := {
  u_color : forall p, color_at (grid (world st)) p = Some PURPLE ->
                      color_at g0 p = Some PURPLE;
  u_trace : path_marks (trace (world st)) = []
}.

End SearchVocabulary.

(** ** Runs *)

(** The state after [n] more passes through the loop (the state itself
    once the loop has returned). *)
Fixpoint after (n : nat) (start end_ : pos) (st : State) : State :=
  match n with
  | O => st
  | S n' =>
      match iteration 0 start end_ st with
      | Ok (Continue st') => after n' start end_ st'
      | _ => st
      end
  end.

(** The state a search returns (the initial state when it does not). *)
Definition final_state (fuel : nat) (g : Grid) (start end_ : pos) : State :=
  match algorithm fuel g start end_ with
  | Ok (_, st) => st
  | _ => init g start end_
  end.

(** ** Two runs side by side *)

(** Two worlds agree when their grids give every Cell the same neighbors
    and their traces show the same Cells opened, closed and marked, in the
    same order.  Colours and rendered grids may differ. *)
Definition wsim (w1 w2 : World) : Prop :=
  (forall p, neighbors_of (grid w1) p = neighbors_of (grid w2) p) /\
  open_closed (trace w1) = open_closed (trace w2) /\
  path_marks (trace w1) = path_marks (trace w2).

(** Two states agree when their worlds agree and the local variables of
    [algorithm] are equal. *)
Definition sim (s1 s2 : State) : Prop :=
  count s1 = count s2 /\ open_set s1 = open_set s2 /\
  came_from s1 = came_from s2 /\ g_score s1 = g_score s2 /\
  f_score s1 = f_score s2 /\ open_set_hash s1 = open_set_hash s2 /\
  wsim (world s1) (world s2).

(** ** The grid without barriers *)

Section EmptyVocabulary.
Context (g0 : Grid) (start end_ : pos).

(** [p] lies on a shortest way from start to end. *)
Definition on_way (p : pos) : Prop := h start p + h p end_ = h start end_.

(** The priority under which a cell waits in the queue: 0 for start,
    which line 120 puts with priority 0. *)
Definition waits_at (p : pos) : Z :=
  if decide (p = start) then 0 else h start p + h p end_.

(** The invariant, at level [d], while [ex] (if any) is being expanded:
    scores are exact; the cells of the rectangle in the queue are at
    distance [d] or [d + 1] from start, the former put before the latter;
    the cells of the rectangle nearer than [d] have left the queue; those
    at distance [d] are discovered; a cell of the rectangle that has left
    the queue has all its neighbors discovered; end has not left the
    queue; a predecessor is a neighbor one step nearer to start. *)
Record finv (d : Z) (ex : option pos) (s : State) : Prop := {
  f_nonneg : 0 <= d;
  f_exact : forall p v, g_score s !! p = Some (Int v) -> v = h start p;
  f_prio : forall e, e ∈ open_set s -> prio e = Int (waits_at (node e));
  f_level : forall e, e ∈ open_set s -> on_way (node e) ->
    h start (node e) = d \/ h start (node e) = d + 1;
  f_order : forall e1 e2, e1 ∈ open_set s -> e2 ∈ open_set s ->
    on_way (node e1) -> on_way (node e2) ->
    h start (node e1) = d -> h start (node e2) = d + 1 ->
    seqno e1 < seqno e2;
  f_closed : forall p, on_way p -> h start p < d ->
    (exists v, g_score s !! p = Some (Int v)) /\ p ∉ open_set_hash s;
  f_disc : forall p, on_way p -> h start p = d ->
    exists v, g_score s !! p = Some (Int v);
  f_full : forall p, on_way p -> Some p <> ex ->
    (exists v, g_score s !! p = Some (Int v)) -> p ∉ open_set_hash s ->
    forall q, q ∈ neighbors_of g0 p -> exists w, g_score s !! q = Some (Int w);
  f_end : end_ ∈ open_set_hash s \/ g_score s !! end_ = Some Inf;
  f_cf : forall n c, came_from s !! n = Some c ->
    n ∈ neighbors_of g0 c /\ h start c = h start n - 1
}.

(** A cell of the rectangle at distance [d] waits in the queue. *)
Definition level_waits (d : Z) (s : State) : Prop :=
  Exists (fun e => on_way (node e) /\ h start (node e) = d) (open_set s).

End EmptyVocabulary.

(** ** Statuses *)

(** What the five status tests of a Node answer: closed, open, barrier,
    start, end. *)
Definition statuses (n : Node) : list bool :=
  [is_closed n; is_open n; is_barrier n; is_start n; is_end n].

(** ** Rectangles *)

(** The pixels of a pygame rectangle (left, top, width, height). *)
Definition covers (rect : Z * Z * Z * Z) (pt : Z * Z) : Prop :=
  let '(x0, y0, w, ht) := rect in
  x0 <= pt.1 < x0 + w /\ y0 <= pt.2 < y0 + ht.

(** ** More invariants of the search loop *)

(** [p] has been discovered: its score is finite. *)
Definition finite (s : State) (p : pos) : Prop :=
  exists v, g_score s !! p = Some (Int v).

(** [s'] is a later state of the search than [s]: no finite score has
    grown, no predecessor was forgotten, and [count] has not decreased. *)
Definition improves (s s' : State) : Prop :=
  (forall p v, g_score s !! p = Some (Int v) ->
     exists v', g_score s' !! p = Some (Int v') /\ v' <= v) /\
  (forall p, is_Some (came_from s !! p) -> is_Some (came_from s' !! p)) /\
  count s <= count s'.

Section MoreSearchVocabulary.
Context (R : Z) (g0 : Grid) (start end_ : pos).

(** What the maps keep track of: a predecessor is a Cell the Cell is a
    neighbor of; the f_score of a Cell is its g_score plus the heuristic;
    a finite g_score is the length of a walk from start; the priority of
    an entry of the queue (but the one line 120 puts for start) is not
    below the f_score its Cell has now. *)
Record tracks (s : State) : Prop := {
  k_edge : forall n c, came_from s !! n = Some c -> edge g0 c n;
  k_f : forall p, f_score s !! p
                  = (fun gp => num_add gp (Int (h p end_))) <$> g_score s !! p;
  k_walk : forall p v, g_score s !! p = Some (Int v) ->
                       nsteps (edge g0) (Z.to_nat v) start p;
  k_prio : forall e, e ∈ open_set s -> node e <> start ->
    exists fe v, prio e = Int fe /\ g_score s !! node e = Some (Int v) /\
                 v + h (node e) end_ <= fe
}.

(** How far the search has swept, while [ex] (if any) is being expanded:
    the grid is still an R-by-R grid whose Nodes differ from those of the
    grid the search began with in colour only; a discovered Cell that does
    not wait in the queue has all its neighbors discovered; end waits in
    the queue or is not discovered; start and the Cells not discovered
    have the colour they had; of the other Cells, those that wait in the
    queue are Open and those that do not are Closed. *)
Record sweep (ex : option pos) (s : State) : Prop := {
  s_ok : grid_ok R (grid (world s));
  s_nodes : forall p, set_color WHITE <$> node_at (grid (world s)) p
                      = set_color WHITE <$> node_at g0 p;
  s_full : forall p q, finite s p -> p ∉ open_set_hash s -> Some p <> ex ->
                       edge g0 p q -> finite s q;
  s_end : end_ ∈ open_set_hash s \/ ~ finite s end_;
  s_start : color_at (grid (world s)) start = color_at g0 start;
  s_far : forall p, p <> start -> ~ finite s p ->
                    color_at (grid (world s)) p = color_at g0 p;
  s_open : forall p, p <> start -> finite s p ->
                     p ∈ open_set_hash s \/ Some p = ex ->
                     color_at (grid (world s)) p = Some GREEN;
  s_closed : forall p, p <> start -> finite s p ->
                       p ∉ open_set_hash s -> Some p <> ex ->
                       color_at (grid (world s)) p = Some RED
}.

End MoreSearchVocabulary.

(** ** The editor *)

(** What [main] keeps true of its local variables: the grid is a
    ROWS-by-ROWS grid; the Cell [start] refers to shows Start, or Path
    once a search has marked it; the Cell [end] refers to shows End; and
    no other Cell shows Start or End. *)
Record tidy (m : Locals) : Prop := {
  t_grid : grid_ok ROWS (m_grid m);
  t_start : forall s, m_start m = Some s ->
    color_at (m_grid m) s = Some ORANGE \/
    color_at (m_grid m) s = Some PURPLE;
  t_end : forall e, m_end m = Some e ->
    color_at (m_grid m) e = Some TURQUOISE;
  t_orange : forall p, color_at (m_grid m) p = Some ORANGE ->
    m_start m = Some p;
  t_turquoise : forall p, color_at (m_grid m) p = Some TURQUOISE ->
    m_end m = Some p
}.


(** ** Concrete grids *)

(** The 3-by-3 grid whose middle row is all Barrier, start above, end
    below; the empty 5-by-5 grid with start and end in opposite corners;
    the empty 2-by-2 grid with end just below start. *)
Definition blocked3 : Grid := board 3 (0, 1) (2, 1) [(1, 0); (1, 1); (1, 2)].
Definition empty5 : Grid := board 5 (0, 0) (4, 4) [].
Definition empty2 : Grid := board 2 (0, 0) (1, 0) [].

(** [blocked3] with a Path mark left below the barriers, as an earlier
    successful search followed by barrier edits leaves it ([main] clears
    marks only when the whole grid is replaced). *)
Definition stale3 : Grid := paint PURPLE (2, 0) blocked3.

(** The 3-by-3 grid with a Barrier in the middle, start and end in
    opposite corners. *)
Definition ring3 : Grid := board 3 (0, 0) (2, 2) [(1, 1)].

(** The 2-by-2 grid [make_grid] builds for a window of width 20. *)
Definition fresh2 : Grid :=
  match make_grid 2 20 with Ok g => g | _ => [] end.

(** A session with [main]: a click on the Cell at (0, 0), which becomes
    start, one on the Cell at (2, 0), which becomes end, one on the Cell
    between them, which becomes a Barrier; SPACE, which runs the search
    around the Barrier; a right click on a Cell of the path; the window
    is closed. *)
Definition session : list (list Event) :=
  [ [ mkEvent OTHER true false (5, 5) ];
    [ mkEvent OTHER true false (25, 5); mkEvent OTHER true false (15, 5) ];
    [ mkEvent (KEYDOWN K_SPACE) false false (15, 5) ];
    [ mkEvent OTHER false true (5, 15); mkEvent QUIT false false (5, 15) ] ].

(** The local variables of [main] after the first two batches of
    [session]: start and end are set. *)
Definition edited : Locals :=
  match main 0 500 (take 1 session ++ [[mkEvent OTHER true false (25, 5)]])
  with
  | Ok m => m
  | _ => mkLocals [] None None false
  end.

(** * Lists, indexing and the grid *)

Lemma bind_Ok {A B} (m : res A) (k : A -> res B) (b : B) :
  bind m k = Ok b -> exists a, m = Ok a /\ k a = Ok b.
Proof. destruct m; simpl; intros; try discriminate; eauto. Qed.

Lemma mapM_Ok {A B} (f : A -> res B) (f' : A -> B) (l : list A) :
  (forall a, a ∈ l -> f a = Ok (f' a)) -> mapM f l = Ok (map f' l).
Proof.
  induction l as [|a l IH]; intros Hf; simpl; [done|].
  rewrite Hf by left. simpl. rewrite IH; [done|].
  intros b Hb. apply Hf. by right.
Qed.

Lemma inside_spec R q : inside R q = true <-> in_bounds R q.
Proof. unfold inside, in_bounds. rewrite !andb_true_iff. lia. Qed.

Lemma getitem_nonneg {A} (l : list A) (i : Z) :
  0 <= i < Z.of_nat (length l) ->
  exists a, l !! Z.to_nat i = Some a /\ getitem l i = Ok a.
Proof.
  intros Hi. unfold getitem.
  destruct (i <? 0) eqn:E; [lia|].
  replace ((0 <=? i) && (i <? Z.of_nat (length l))) with true
    by (symmetry; apply andb_true_iff; lia).
  destruct (lookup_lt_is_Some_2 l (Z.to_nat i)) as [a Ha]; [lia|].
  exists a. by rewrite Ha.
Qed.

Lemma getitem_wrap {A} (l : list A) (i : Z) :
  - Z.of_nat (length l) <= i < 0 ->
  getitem l i = getitem l (i + Z.of_nat (length l)).
Proof.
  intros Hi. unfold getitem.
  destruct (i <? 0) eqn:E; [|lia].
  destruct (i + Z.of_nat (length l) <? 0) eqn:E'; [lia|]. done.
Qed.

Lemma getitem_out {A} (l : list A) (i : Z) :
  i < - Z.of_nat (length l) \/ Z.of_nat (length l) <= i ->
  getitem l i = Raise IndexError.
Proof.
  intros Hi. unfold getitem.
  destruct (i <? 0) eqn:E.
  - replace ((0 <=? i + Z.of_nat (length l))) with false
      by (symmetry; apply Z.leb_gt; lia). done.
  - replace (i <? Z.of_nat (length l)) with false
      by (symmetry; apply Z.ltb_ge; lia).
    by rewrite andb_false_r.
Qed.

Lemma cells_okb_sound R i j cells (k : nat) n :
  cells_okb R i j cells = true -> cells !! k = Some n ->
  get_pos n = (i, j + Z.of_nat k) /\ total_rows n = R.
Proof.
  revert j k. induction cells as [|n0 cells IH]; intros j k Hb Hk; [done|].
  simpl in Hb. rewrite !andb_true_iff, !Z.eqb_eq in Hb.
  destruct Hb as [[[Hr Hc] Ht] Hrest]. destruct k as [|k].
  - injection Hk as <-. unfold get_pos. rewrite Hr, Hc. split; [|done].
    f_equal. lia.
  - destruct (IH (j + 1) k Hrest Hk) as [-> ->]. split; [|done].
    f_equal. lia.
Qed.

Lemma rows_okb_sound R i rows (k : nat) rw :
  rows_okb R i rows = true -> rows !! k = Some rw ->
  Z.of_nat (length rw) = R /\ cells_okb R (i + Z.of_nat k) 0 rw = true.
Proof.
  revert i k. induction rows as [|r0 rows IH]; intros i k Hb Hk; [done|].
  simpl in Hb. rewrite !andb_true_iff, Z.eqb_eq in Hb.
  destruct Hb as [[Hl Hc] Hrest]. destruct k as [|k].
  - injection Hk as <-. split; [done|]. by rewrite Z.add_0_r.
  - destruct (IH (i + 1) k Hrest Hk) as [? Hc']. split; [done|].
    replace (i + Z.of_nat (S k)) with (i + 1 + Z.of_nat k) by lia. done.
Qed.

Lemma grid_okb_sound R (g : Grid) : grid_okb R g = true -> grid_ok R g.
Proof.
  unfold grid_okb. rewrite andb_true_iff, Z.eqb_eq. intros [Hl Hr].
  split; [done|]. intros i rw Hi.
  destruct (rows_okb_sound R 0 g i rw Hr Hi) as [Hlen Hc]. split; [done|].
  intros j n Hj. by destruct (cells_okb_sound R _ 0 rw j n Hc Hj) as [-> ->].
Qed.

Section GridFacts.
Context (R : Z) (g : Grid) (Hok : grid_ok R g).

Lemma node_at_inv p n :
  node_at g p = Some n ->
  in_bounds R p /\ get_pos n = p /\ total_rows n = R.
Proof using Hok.
  destruct p as [r c]. unfold node_at, in_bounds. simpl.
  destruct ((0 <=? r) && (0 <=? c)) eqn:E; [|done].
  apply andb_true_iff in E as [Hr Hc].
  destruct (g !! Z.to_nat r) as [rw|] eqn:Hrw; simpl; [|done].
  intros Hn. destruct Hok as [Hlen Hrows].
  destruct (Hrows _ _ Hrw) as [Hlr Hcells].
  destruct (Hcells _ _ Hn) as [Hp Ht].
  apply lookup_lt_Some in Hrw, Hn.
  apply Z.leb_le in Hr, Hc. rewrite Hp.
  split_and!; try lia; try done. f_equal; lia.
Qed.

Lemma node_at_bounds p :
  in_bounds R p ->
  exists n, node_at g p = Some n /\ get_pos n = p /\ total_rows n = R.
Proof using Hok.
  destruct p as [r c]. unfold in_bounds. simpl. intros [Hr Hc].
  destruct Hok as [Hlen Hrows].
  destruct (lookup_lt_is_Some_2 g (Z.to_nat r)) as [rw Hrw]; [lia|].
  destruct (Hrows _ _ Hrw) as [Hlr Hcells].
  destruct (lookup_lt_is_Some_2 rw (Z.to_nat c)) as [n Hn]; [lia|].
  assert (node_at g (r, c) = Some n) as Hat.
  { unfold node_at. simpl.
    replace ((0 <=? r) && (0 <=? c)) with true
      by (symmetry; apply andb_true_iff; lia).
    rewrite Hrw. simpl. done. }
  exists n. split; [done|]. by apply node_at_inv in Hat as (_ & ? & ?).
Qed.

Lemma grid_getitem_inside r c :
  in_bounds R (r, c) ->
  exists n, node_at g (r, c) = Some n /\ grid_getitem g r c = Ok n.
Proof using Hok.
  unfold in_bounds. simpl. intros [Hr Hc].
  destruct Hok as [Hlen Hrows].
  destruct (getitem_nonneg g r) as (rw & Hrw & Hg); [lia|].
  destruct (Hrows _ _ Hrw) as [Hlr _].
  destruct (getitem_nonneg rw c) as (n & Hn & Hg'); [lia|].
  exists n. split.
  - unfold node_at. simpl.
    replace ((0 <=? r) && (0 <=? c)) with true
      by (symmetry; apply andb_true_iff; lia).
    by rewrite Hrw.
  - unfold grid_getitem. rewrite Hg. simpl. done.
Qed.

Lemma grid_getitem_row r :
  0 <= r < R -> exists rw, getitem g r = Ok rw /\ Z.of_nat (length rw) = R.
Proof using Hok.
  intros Hr. destruct Hok as [Hlen Hrows].
  destruct (getitem_nonneg g r) as (rw & Hrw & Hg); [lia|].
  exists rw. split; [done|]. by destruct (Hrows _ _ Hrw).
Qed.

Lemma free_spec q :
  free g q = true <-> is_Some (node_at g q) /\ ~ is_barrier_at g q.
Proof.
  unfold free, is_barrier_at, color_at, is_barrier.
  destruct (node_at g q) as [n|]; simpl.
  - rewrite negb_true_iff, bool_decide_eq_false.
    split; [intros H; split; [eauto|congruence] | intros [_ H]; congruence].
  - split; [done|]. intros [[? ?] _]. done.
Qed.
End GridFacts.

Lemma node_at_nat (g : Grid) (i j : nat) :
  node_at g (Z.of_nat i, Z.of_nat j) = g !! i ≫= (fun rw => rw !! j).
Proof.
  unfold node_at. cbn [fst snd].
  rewrite !(proj2 (Z.leb_le _ _)) by lia. by rewrite !Nat2Z.id.
Qed.

Lemma node_at_map (f : Node -> Node) (g : Grid) (p : pos) :
  node_at (map (map f) g) p = f <$> node_at g p.
Proof.
  unfold node_at. destruct ((0 <=? p.1) && (0 <=? p.2)); [|done].
  change (map (map f) g) with (fmap (M:=list) (fmap (M:=list) f) g).
  rewrite list_lookup_fmap.
  destruct (g !! Z.to_nat p.1) as [rw|]; simpl; [|done].
  by rewrite list_lookup_fmap.
Qed.

Lemma grid_ok_map (f : Node -> Node) R (g : Grid) :
  (forall n, get_pos (f n) = get_pos n /\ total_rows (f n) = total_rows n) ->
  grid_ok R g -> grid_ok R (map (map f) g).
Proof.
  intros Hf [Hlen Hrows]. split; [by rewrite length_map|].
  intros i rw Hrw.
  change (map (map f) g) with (fmap (M:=list) (fmap (M:=list) f) g) in Hrw.
  rewrite list_lookup_fmap in Hrw.
  destruct (g !! i) as [rw0|] eqn:E; simpl in Hrw; [|done].
  injection Hrw as <-. destruct (Hrows _ _ E) as [Hl Hc].
  split; [by rewrite length_fmap|].
  intros j n Hn. rewrite list_lookup_fmap in Hn.
  destruct (rw0 !! j) as [n0|] eqn:E'; simpl in Hn; [|done].
  injection Hn as <-. destruct (Hf n0) as [-> ->]. by apply Hc.
Qed.

Ltac bool_lia :=
  apply Bool.eq_iff_eq_true; unfold inside; cbn [fst snd];
  rewrite ?andb_true_iff, ?Z.ltb_lt, ?Z.leb_le, ?Z.gtb_lt; lia.

Lemma probe_step R (g : Grid) (q : pos) (b : bool) (ns : list pos) :
  grid_ok R g -> b = inside R q ->
  (if b then
     let* n := grid_getitem g q.1 q.2 in
     Ok (if negb (is_barrier n) then ns ++ [get_pos n] else ns)
   else Ok ns)
  = Ok (ns ++ List.filter (fun q => inside R q && free g q) [q]).
Proof.
  intros Hok ->. simpl. destruct (inside R q) eqn:Hin; simpl.
  - apply inside_spec in Hin. destruct q as [r c]. cbn [fst snd].
    destruct (grid_getitem_inside R g Hok r c Hin) as (n & Hn & ->).
    simpl. unfold free. rewrite Hn.
    destruct (node_at_inv R g Hok _ _ Hn) as (_ & -> & _).
    destruct (negb (is_barrier n)); [done|by rewrite app_nil_r].
  - by rewrite app_nil_r.
Qed.

Lemma update_neighbors_spec R (g : Grid) (n : Node) (p : pos) :
  grid_ok R g -> node_at g p = Some n ->
  update_neighbors n g = Ok (expected_neighbors R g p).
Proof.
  intros Hok Hn.
  destruct (node_at_inv R g Hok _ _ Hn) as ([Hr Hc] & Hp & Ht).
  destruct p as [r c]. injection Hp as Hrow Hcol. simpl in Hr, Hc.
  unfold update_neighbors. rewrite Hrow, Hcol, Ht.
  rewrite (probe_step R g (r + 1, c) _ [] Hok) by bool_lia. cbn [bind].
  rewrite (probe_step R g (r - 1, c) _ _ Hok) by bool_lia. cbn [bind].
  rewrite (probe_step R g (r, c + 1) _ _ Hok) by bool_lia. cbn [bind].
  rewrite (probe_step R g (r, c - 1) _ _ Hok) by bool_lia.
  cbn [bind]. f_equal.
  unfold expected_neighbors, around. cbn [fst snd].
  rewrite <- !app_assoc, app_nil_l.
  change [(r + 1, c); (r - 1, c); (r, c + 1); (r, c - 1)]
    with ([(r + 1, c)] ++ [(r - 1, c)] ++ [(r, c + 1)] ++ [(r, c - 1)]).
  by rewrite !List.filter_app.
Qed.

Lemma update_all_neighbors_spec R (g : Grid) :
  grid_ok R g -> update_all_neighbors g = Ok (derived R g).
Proof.
  intros Hok. unfold update_all_neighbors, derived.
  destruct Hok as [Hlen Hrows].
  apply mapM_Ok. intros rw Hrw. apply list_elem_of_lookup in Hrw as [i Hi].
  apply mapM_Ok. intros n Hn. apply list_elem_of_lookup in Hn as [j Hj].
  assert (node_at g (Z.of_nat i, Z.of_nat j) = Some n) as Hat.
  { rewrite node_at_nat, Hi. done. }
  rewrite (update_neighbors_spec R g n _ (conj Hlen Hrows) Hat). simpl.
  destruct (Hrows _ _ Hi) as [_ Hc]. destruct (Hc _ _ Hj) as [-> _]. done.
Qed.

Section Derived.
Context (R : Z) (g : Grid) (Hok : grid_ok R g).

Lemma derived_ok : grid_ok R (derived R g).
Proof using Hok. apply grid_ok_map; [|done]. by intros n. Qed.

Lemma node_at_derived p :
  node_at (derived R g) p
  = set_neighbors (expected_neighbors R g p) <$> node_at g p.
Proof using Hok.
  unfold derived. rewrite node_at_map.
  destruct (node_at g p) as [n|] eqn:E; [|done]. simpl.
  by destruct (node_at_inv R g Hok _ _ E) as (_ & -> & _).
Qed.

Lemma color_at_derived p : color_at (derived R g) p = color_at g p.
Proof using Hok.
  unfold color_at. rewrite node_at_derived. by destruct (node_at g p).
Qed.

Lemma neighbors_of_derived p :
  in_bounds R p -> neighbors_of (derived R g) p = expected_neighbors R g p.
Proof using Hok.
  intros Hp. unfold neighbors_of. rewrite node_at_derived.
  by destruct (node_at_bounds R g Hok p Hp) as (n & -> & _).
Qed.

Lemma elem_of_expected p q :
  q ∈ expected_neighbors R g p <->
  q ∈ around p /\ in_bounds R q /\ ~ is_barrier_at g q.
Proof using Hok.
  unfold expected_neighbors.
  rewrite list_elem_of_In, List.filter_In, <- list_elem_of_In.
  rewrite andb_true_iff, inside_spec, free_spec.
  split; [tauto|]. intros (? & Hq & ?). split_and!; try done.
  destruct (node_at_bounds R g Hok q Hq) as (n & -> & _). eauto.
Qed.

Lemma around_NoDup p : NoDup (around p).
Proof.
  destruct p as [r c]. unfold around. cbn [fst snd].
  repeat (apply NoDup_cons; split;
          [rewrite ?elem_of_cons, elem_of_nil; intros H;
           repeat (destruct H as [H|H]); try done; injection H; lia|]).
  apply NoDup_nil_2.
Qed.

Lemma expected_NoDup p : NoDup (expected_neighbors R g p).
Proof.
  unfold expected_neighbors. apply NoDup_ListNoDup, List.NoDup_filter,
    NoDup_ListNoDup, around_NoDup.
Qed.
End Derived.

(** * Indexing and adjacency *)

(** The positions [main] looks up come from [get_clicked_pos] with 50 rows
    and a window of width 500: for a pointer inside the window they lie
    inside the grid. *)
Lemma get_clicked_pos_inside (py px : Z) :
  0 <= py < 500 -> 0 <= px < 500 ->
  exists p, get_clicked_pos (py, px) 50 500 = Ok p /\ in_bounds 50 p.
Proof.
  intros Hy Hx. unfold get_clicked_pos. simpl.
  change (500 / 50) with 10. simpl. eexists. split; [done|].
  unfold in_bounds. simpl.
  pose proof (Z.div_pos py 10). pose proof (Z.div_pos px 10).
  pose proof (Z.div_lt_upper_bound py 10 50).
  pose proof (Z.div_lt_upper_bound px 10 50). lia.
Qed.

(** C9 (as amended).  In an R-by-R grid, [grid[r][c]] raises IndexError
    exactly when a coordinate is at least R or less than -R; a coordinate
    k with -R <= k < 0 is not rejected: Python counts it from the end, and
    the Cell at k + R is returned. *)
Theorem grid_getitem_range R (g : Grid) (r c : Z) :
  grid_ok R g ->
  ((r < - R \/ R <= r \/ c < - R \/ R <= c) ->
     grid_getitem g r c = Raise IndexError) /\
  (- R <= r < R -> - R <= c < R ->
     exists n, grid_getitem g r c = Ok n /\
               node_at g (r mod R, c mod R) = Some n /\
               get_pos n = (r mod R, c mod R)).
Proof.
  intros Hok. split.
  - intros Hout. unfold grid_getitem.
    destruct (decide (r < - R \/ R <= r)) as [Hr|Hr].
    + rewrite getitem_out; [done|]. destruct Hok as [-> _]. lia.
    + assert (- R <= r < R) as Hr' by lia.
      assert (exists rw, getitem g r = Ok rw /\ Z.of_nat (length rw) = R)
        as (rw & -> & Hl).
      { destruct (decide (r < 0)).
        - rewrite getitem_wrap by (destruct Hok as [-> _]; lia).
          apply (grid_getitem_row R g Hok). destruct Hok as [-> _]. lia.
        - apply (grid_getitem_row R g Hok). lia. }
      simpl. apply getitem_out. lia.
  - intros Hr Hc.
    assert (0 < R) as HR by lia.
    assert (in_bounds R (r mod R, c mod R)) as Hin.
    { split; simpl; apply Z.mod_pos_bound; lia. }
    destruct (grid_getitem_inside R g Hok _ _ Hin) as (n & Hn & Hg).
    exists n. split_and!;
      [|done|by apply (node_at_inv R g Hok) in Hn as (_ & ? & _)].
    rewrite <- Hg. unfold grid_getitem.
    assert (getitem g r = getitem g (r mod R)) as ->.
    { destruct (decide (r < 0)).
      - rewrite getitem_wrap by (destruct Hok as [-> _]; lia).
        destruct Hok as [-> _]. f_equal.
        rewrite <- (Z.mod_small (r + R) R) by lia.
        by rewrite Z.add_mod, Z.mod_same, Z.add_0_r, Z.mod_mod by lia.
      - by rewrite Z.mod_small by lia. }
    destruct (grid_getitem_row R g Hok (r mod R)) as (rw & -> & Hl);
      [apply Z.mod_pos_bound; lia|].
    simpl. destruct (decide (c < 0)).
    + rewrite getitem_wrap by lia. rewrite Hl. f_equal.
      rewrite <- (Z.mod_small (c + R) R) by lia.
      by rewrite Z.add_mod, Z.mod_same, Z.add_0_r, Z.mod_mod by lia.
    + by rewrite Z.mod_small by lia.
Qed.

(** C8.  After the adjacency pass over an R-by-R grid, the neighbors of
    every Cell are exactly the positions among (row+1, col), (row-1, col),
    (row, col+1), (row, col-1) that lie inside the grid and whose Cell is
    not a Barrier, each listed once; the pass succeeds and changes no
    colour. *)
Theorem update_all_neighbors_exact R (g : Grid) :
  grid_ok R g ->
  exists g', update_all_neighbors g = Ok g' /\ grid_ok R g' /\
    (forall p, color_at g' p = color_at g p) /\
    forall p, in_bounds R p ->
      NoDup (neighbors_of g' p) /\
      forall q, q ∈ neighbors_of g' p <->
                q ∈ around p /\ in_bounds R q /\ ~ is_barrier_at g' q.
Proof.
  intros Hok. exists (derived R g).
  split; [by apply update_all_neighbors_spec|].
  split; [by apply derived_ok|].
  split; [by apply color_at_derived|].
  intros p Hp. rewrite (neighbors_of_derived R g Hok p Hp).
  split; [apply expected_NoDup|].
  intros q. rewrite (elem_of_expected R g Hok).
  unfold is_barrier_at. by rewrite (color_at_derived R g Hok).
Qed.

(** * The priority queue *)

Ltac cmp_cases :=
  repeat match goal with
         | |- context [?a <? ?b] => destruct (Z.ltb_spec a b)
         | H : context [?a <? ?b] |- _ => destruct (Z.ltb_spec a b)
         end.

Lemma entry_ltb_irrefl e : entry_ltb e e = false.
Proof.
  destruct e as [[[f|] c] n]; simpl; cmp_cases; simpl; try done; lia.
Qed.

Lemma entry_ltb_negtrans a b c :
  entry_ltb a b = false -> entry_ltb b c = false -> entry_ltb a c = false.
Proof.
  destruct a as [[[fa|] ca] na], b as [[[fb|] cb] nb], c as [[[fc|] cc] nc];
    simpl; cmp_cases; simpl; try done; lia.
Qed.

Lemma entry_ltb_total a b :
  entry_ltb a b = false -> seqno a <> seqno b -> entry_ltb b a = true.
Proof.
  destruct a as [[[fa|] ca] na], b as [[[fb|] cb] nb];
    unfold seqno; simpl; cmp_cases; simpl; try done; lia.
Qed.

Lemma entry_ltb_Int fa ca na fb cb nb :
  entry_ltb (Int fa, ca, na) (Int fb, cb, nb) = true <->
  fa < fb \/ (fa = fb /\ ca < cb).
Proof. simpl; cmp_cases; simpl; split; try done; lia. Qed.

Lemma least_elem e q : least e q ∈ e :: q.
Proof.
  revert e. induction q as [|e' q IH]; intros e; simpl; [by left|].
  specialize (IH (if entry_ltb e' e then e' else e)).
  apply elem_of_cons in IH as [->|IH].
  - destruct (entry_ltb e' e); [right; left|left].
  - by do 2 right.
Qed.

Lemma least_lower e q a : a ∈ e :: q -> entry_ltb a (least e q) = false.
Proof.
  revert e a. induction q as [|e' q IH]; intros e a Hx; simpl.
  - apply elem_of_cons in Hx as [->|Hx]; [apply entry_ltb_irrefl|].
    by apply elem_of_nil in Hx.
  - set (m := if entry_ltb e' e then e' else e).
    assert (entry_ltb e m = false /\ entry_ltb e' m = false) as [He He'].
    { subst m. destruct (entry_ltb e' e) eqn:E.
      - split; [|apply entry_ltb_irrefl].
        destruct (entry_ltb e e') eqn:E'; [|done]. exfalso.
        destruct e as [[[fa|] ca] na], e' as [[[fb|] cb] nb];
          simpl in E, E'; cmp_cases; simpl in *; try done; lia.
      - split; [apply entry_ltb_irrefl|done]. }
    assert (entry_ltb m (least m q) = false) as Hm by (apply IH; left).
    apply elem_of_cons in Hx as [->|Hx];
      [by eapply entry_ltb_negtrans|].
    apply elem_of_cons in Hx as [->|Hx];
      [by eapply entry_ltb_negtrans|].
    apply IH. by right.
Qed.

Lemma remove_first_delete (e : entry) q :
  e ∈ q -> exists i, q !! i = Some e /\ remove_first e q = delete i q.
Proof.
  induction q as [|e' q IH]; intros He; [by apply elem_of_nil in He|].
  simpl. case_bool_decide as E.
  - subst. by exists 0%nat.
  - apply elem_of_cons in He as [->|He]; [done|].
    destruct (IH He) as (i & Hi & ->). by exists (S i).
Qed.

(** What [get] answers: an entry of the queue that no entry precedes in
    the order of tuples, and the queue without it, the order of the other
    entries unchanged. *)
Lemma get_spec q m q' :
  get q = Some (m, q') ->
  exists i, q !! i = Some m /\ q' = delete i q /\
            forall e, e ∈ q -> entry_ltb e m = false.
Proof.
  destruct q as [|e q0]; [done|]. unfold get. intros [= <- <-].
  destruct (remove_first_delete (least e q0) (e :: q0) (least_elem e q0))
    as (i & Hi & Hd).
  exists i. split_and!; [done|done|]. apply least_lower.
Qed.

Lemma get_None q : get q = None <-> q = [].
Proof. by destruct q. Qed.

Lemma get_split q m q' :
  get q = Some (m, q') ->
  exists l1 l2, q = l1 ++ m :: l2 /\ q' = l1 ++ l2 /\
                forall e, e ∈ q -> entry_ltb e m = false.
Proof.
  intros (i & Hi & -> & Hle)%get_spec.
  exists (take i q), (drop (S i) q). split_and!; [|apply delete_take_drop|done].
  symmetry. by apply take_drop_middle.
Qed.

(** * Mutating a Node leaves the rest of the grid alone *)

Lemma node_at_update_node f p (g : Grid) q :
  node_at (update_node f p g) q
  = if decide (p = q) then f <$> node_at g q else node_at g q.
Proof.
  unfold update_node, node_at. destruct p as [pr pc], q as [qr qc].
  cbn [fst snd].
  destruct ((0 <=? pr) && (0 <=? pc)) eqn:Ep.
  - apply andb_true_iff in Ep as [Hpr Hpc]. apply Z.leb_le in Hpr, Hpc.
    destruct ((0 <=? qr) && (0 <=? qc)) eqn:Eq; [|by case_decide].
    apply andb_true_iff in Eq as [Hqr Hqc]. apply Z.leb_le in Hqr, Hqc.
    destruct (decide (pr = qr)) as [->|Hr].
    + rewrite list_lookup_alter_eq.
      destruct (g !! Z.to_nat qr) as [rw|]; simpl; [|by case_decide].
      destruct (decide (pc = qc)) as [->|Hc].
      * rewrite list_lookup_alter_eq. by rewrite decide_True.
      * rewrite list_lookup_alter_ne by lia.
        rewrite decide_False; [done|congruence].
    + rewrite list_lookup_alter_ne by lia.
      rewrite decide_False; [done|congruence].
  - case_decide as E; [|done]. injection E as <- <-. by rewrite Ep.
Qed.

Lemma neighbors_of_update_color c p (g : Grid) q :
  neighbors_of (update_node (set_color c) p g) q = neighbors_of g q.
Proof.
  unfold neighbors_of. rewrite node_at_update_node.
  case_decide; [|done]. by destruct (node_at g q).
Qed.

Lemma color_at_update_color c p (g : Grid) q :
  color_at (update_node (set_color c) p g) q
  = if decide (p = q) then (fun _ => c) <$> color_at g q else color_at g q.
Proof.
  unfold color_at. rewrite node_at_update_node.
  case_decide; [|done]. by destruct (node_at g q).
Qed.

Lemma grid_ok_update_color R c p (g : Grid) :
  grid_ok R g -> grid_ok R (update_node (set_color c) p g).
Proof.
  intros [Hlen Hrows]. unfold update_node.
  destruct ((0 <=? p.1) && (0 <=? p.2)); [|done].
  split; [by rewrite length_alter|].
  intros i rw Hrw. rewrite list_lookup_alter in Hrw.
  case_decide as E.
  - subst i. destruct (g !! Z.to_nat p.1) as [rw0|] eqn:E0; simpl in Hrw;
    [|done].
    injection Hrw as <-. destruct (Hrows _ _ E0) as [Hl Hc].
    split; [by rewrite length_alter|].
    intros j n Hn. rewrite list_lookup_alter in Hn. case_decide as E1.
    + subst j. destruct (rw0 !! Z.to_nat p.2) as [n0|] eqn:E1;
        simpl in Hn; [|done].
      injection Hn as <-. by apply (Hc _ _ E1).
    + by apply Hc.
  - by apply Hrows.
Qed.

Lemma elem_of_concat_grid (g : Grid) (n : Node) :
  n ∈ concat g <-> exists i j rw, g !! i = Some rw /\ rw !! j = Some n.
Proof.
  rewrite list_elem_of_In, in_concat. split.
  - intros (rw & Hrw & Hn).
    apply list_elem_of_In, list_elem_of_lookup in Hrw as [i Hi].
    apply list_elem_of_In, list_elem_of_lookup in Hn as [j Hj]. eauto.
  - intros (i & j & rw & Hi & Hj). exists rw.
    split; apply list_elem_of_In, list_elem_of_lookup; eauto.
Qed.

Lemma all_inf_lookup R (g : Grid) p :
  grid_ok R g ->
  all_inf g !! p = if decide (in_bounds R p) then Some Inf else None.
Proof.
  intros Hok. unfold all_inf. case_decide as Hp.
  - destruct (node_at_bounds R g Hok p Hp) as (n & Hn & Hpos & _).
    apply elem_of_list_to_map_1'.
    + intros y (n' & [= _ ->] & _)%list_elem_of_fmap. done.
    + apply list_elem_of_fmap. exists n. split; [by rewrite Hpos|].
      apply elem_of_concat_grid.
      destruct Hp as [? ?]. exists (Z.to_nat p.1), (Z.to_nat p.2).
      unfold node_at in Hn.
      rewrite !(proj2 (Z.leb_le _ _)) in Hn by lia. simpl in Hn.
      destruct (g !! Z.to_nat p.1) as [rw|]; [|done]. eauto.
  - apply not_elem_of_list_to_map_1. intros Hin.
    apply list_elem_of_fmap in Hin as ([q o] & -> & Hin). simpl in Hp.
    apply list_elem_of_fmap in Hin as (n & [= -> ->] & Hn).
    apply elem_of_concat_grid in Hn as (i & j & rw & Hi & Hj).
    assert (node_at g (Z.of_nat i, Z.of_nat j) = Some n) as Hat
      by (by rewrite node_at_nat, Hi).
    apply (node_at_inv R g Hok) in Hat as (Hb & Hpos & _).
    apply Hp. by rewrite Hpos.
Qed.

(** * Sums over a score map *)

Lemma sum_list_point (w : Num -> nat) (m : gmap pos Num) p n (l : list pos) :
  p ∉ l ->
  sum_list ((fun q => from_option w 0%nat (<[p:=n]> m !! q)) <$> l)
  = sum_list ((fun q => from_option w 0%nat (m !! q)) <$> l).
Proof.
  induction l as [|a l IH]; intros Hp; [done|].
  apply not_elem_of_cons in Hp as [Hne Hp].
  rewrite !fmap_cons. simpl. rewrite IH by done.
  by rewrite lookup_insert_ne.
Qed.

Lemma wsum_insert (w : Num -> nat) (m : gmap pos Num) p n o :
  m !! p = Some o ->
  (wsum w (<[p:=n]> m) + w o = wsum w m + w n)%nat.
Proof.
  intros Hp. unfold wsum. rewrite dom_insert_lookup_L by eauto.
  assert (p ∈ elements (dom m))
    as Hin by (apply elem_of_elements, elem_of_dom; eauto).
  pose proof (NoDup_elements (dom m)) as Hnd.
  induction (elements (dom m)) as [|a l IH]; [by apply elem_of_nil in Hin|].
  apply NoDup_cons in Hnd as [Ha Hnd]. rewrite !fmap_cons. simpl.
  destruct (decide (a = p)) as [->|Hne].
  - rewrite lookup_insert_eq, Hp. simpl. rewrite sum_list_point by done. lia.
  - apply elem_of_cons in Hin as [->|Hin]; [done|].
    rewrite lookup_insert_ne by done. specialize (IH Hin Hnd). lia.
Qed.

(** * More fuel changes no result *)

Lemma reconstruct_path_mono fuel fuel' cf p w w' :
  reconstruct_path fuel cf p w = Ok w' -> (fuel <= fuel')%nat ->
  reconstruct_path fuel' cf p w = Ok w'.
Proof.
  revert fuel' p w. induction fuel as [|fuel IH]; intros fuel' p w; [done|].
  intros H Hle. destruct fuel' as [|fuel']; [lia|]. simpl in *.
  destruct (cf !! p); [|done]. apply IH; [done|lia].
Qed.

Lemma iteration_mono fuel fuel' start end_ st r :
  iteration fuel start end_ st = Ok r -> (fuel <= fuel')%nat ->
  iteration fuel' start end_ st = Ok r.
Proof.
  unfold iteration. intros H Hle.
  destruct (get (open_set st)) as [[[[f c] cur] q]|]; [|done].
  case_bool_decide; [|done]. case_bool_decide; [|done].
  apply bind_Ok in H as (w & Hw & H).
  by rewrite (reconstruct_path_mono _ _ _ _ _ _ Hw Hle).
Qed.

Lemma while_open_set_mono fuel fuel' start end_ st r :
  while_open_set fuel start end_ st = Ok r -> (fuel <= fuel')%nat ->
  while_open_set fuel' start end_ st = Ok r.
Proof.
  revert fuel' st. induction fuel as [|fuel IH]; intros fuel' st; [done|].
  intros H Hle. destruct fuel' as [|fuel']; [lia|]. simpl in *.
  apply bind_Ok in H as (fl & Hfl & H).
  rewrite (iteration_mono _ fuel' _ _ _ _ Hfl) by lia. simpl.
  destruct fl; [|done]. apply IH; [done|lia].
Qed.

Lemma while_open_set_agree fuel fuel' start end_ st r r' :
  while_open_set fuel start end_ st = Ok r ->
  while_open_set fuel' start end_ st = Ok r' -> r = r'.
Proof.
  intros H H'.
  apply (while_open_set_mono _ (fuel + fuel')) in H; [|lia].
  apply (while_open_set_mono _ (fuel + fuel')) in H'; [|lia]. congruence.
Qed.

(** * Marking the chain *)

Lemma mark_chain_cons c l w :
  mark_chain (c :: l) w = mark_chain l (draw (mutate make_path MakePath c w)).
Proof. done. Qed.

Lemma mark_chain_color l w p :
  color_at (grid (mark_chain l w)) p
  = if decide (p ∈ l) then (fun _ => PURPLE) <$> color_at (grid w) p
    else color_at (grid w) p.
Proof.
  revert w. induction l as [|c l IH]; intros w.
  - rewrite decide_False; [done|apply not_elem_of_nil].
  - rewrite mark_chain_cons, IH. simpl. unfold make_path.
    rewrite color_at_update_color.
    destruct (decide (c = p)) as [->|Hne].
    + rewrite (decide_True (P := p ∈ p :: l)) by left.
      case_decide; [|done]. by destruct (color_at (grid w) p).
    + destruct (decide (p ∈ l)) as [Hin|Hin].
      * by rewrite decide_True by by right.
      * rewrite decide_False; [done|].
        intros [->|?]%elem_of_cons; done.
Qed.

Lemma mark_chain_neighbors l w p :
  neighbors_of (grid (mark_chain l w)) p = neighbors_of (grid w) p.
Proof.
  revert w. induction l as [|c l IH]; intros w; [done|].
  rewrite mark_chain_cons, IH. simpl. apply neighbors_of_update_color.
Qed.

Lemma path_marks_mark_chain l w :
  path_marks (trace (mark_chain l w)) = path_marks (trace w) ++ l.
Proof.
  revert w. induction l as [|c l IH]; intros w.
  - by rewrite app_nil_r.
  - rewrite mark_chain_cons, IH. simpl.
    unfold path_marks. simpl. by rewrite <- app_assoc.
Qed.

Lemma open_closed_mark_chain l w :
  open_closed (trace (mark_chain l w)) = open_closed (trace w).
Proof.
  revert w. induction l as [|c l IH]; intros w; [done|].
  by rewrite mark_chain_cons, IH.
Qed.

(** A property of grids that marking a cell of the chain keeps holds of
    every grid drawn while the chain is marked. *)
Lemma mark_chain_snapshots (P : Grid -> Prop) l w :
  (forall g c, c ∈ l -> P g -> P (update_node make_path c g)) ->
  P (grid w) -> Forall P (snapshots (trace w)) ->
  P (grid (mark_chain l w)) /\ Forall P (snapshots (trace (mark_chain l w))).
Proof.
  revert w. induction l as [|c l IH]; intros w Hstep Hg Hs; [done|].
  rewrite mark_chain_cons. apply IH.
  - intros g c' Hc'. apply Hstep. by right.
  - simpl. apply Hstep; [left|done].
  - simpl. constructor; [|done]. apply Hstep; [left|done].
Qed.

Lemma StronglySorted_lookup_lt {A} (Rel : relation A) (l : list A) i j a b :
  StronglySorted Rel l -> l !! i = Some a -> l !! j = Some b ->
  (i < j)%nat -> Rel a b.
Proof.
  intros Hs Hi Hj Hlt. rewrite <- (take_drop j l) in Hs.
  eapply StronglySorted_app_1_elem_of; [exact Hs| |].
  - apply list_elem_of_lookup. exists i. by rewrite lookup_take_lt.
  - apply list_elem_of_lookup. exists 0%nat.
    by rewrite lookup_drop, Nat.add_0_r.
Qed.

(** * Invariants of the search loop *)

Section Search.
Context (R : Z) (g0 : Grid) (start end_ : pos).
Context (Hok : grid_ok R g0).
Context (Hnb : forall p q, q ∈ neighbors_of g0 p -> in_bounds R q).
Context (Hstart : in_bounds R start).

Lemma inv_init : inv R g0 start (init g0 start end_).
Proof using Hok Hstart.
  split; simpl.
  - intros p. destruct (decide (p = start)) as [->|Hne].
    + rewrite lookup_insert_eq. split; [done|eauto].
    + rewrite lookup_insert_ne by done. rewrite (all_inf_lookup R) by done.
      case_decide; split; try done; eauto.
  - by rewrite lookup_insert_eq.
  - intros p v. destruct (decide (p = start)) as [->|Hne].
    + rewrite lookup_insert_eq. intros [= <-]. lia.
    + rewrite lookup_insert_ne by done. rewrite (all_inf_lookup R) by done.
      by case_decide.
  - done.
  - intros n c. by rewrite lookup_empty.
  - intros p v. destruct (decide (p = start)) as [->|Hne]; [done|].
    rewrite lookup_insert_ne by done. rewrite (all_inf_lookup R) by done.
    by case_decide.
  - intros p. rewrite elem_of_singleton, list_elem_of_singleton. done.
  - apply NoDup_singleton.
  - repeat constructor.
  - repeat constructor. unfold seqno. simpl. lia.
  - repeat constructor; simpl; [by exists 0|].
    exists 0. by rewrite lookup_insert_eq.
  - done.
  - intros p v. destruct (decide (p = start)) as [->|Hne]; [done|].
    rewrite lookup_insert_ne by done. rewrite (all_inf_lookup R) by done.
    by case_decide.
Qed.


Lemma inv_with_world f st :
  (forall p, neighbors_of (grid (f (world st))) p
             = neighbors_of (grid (world st)) p) ->
  inv R g0 start st -> inv R g0 start (with_world f st).
Proof.
  intros Hf [ ]. split; try done.
  intros p. simpl. by rewrite Hf.
Qed.

Lemma inv_draw st : inv R g0 start st -> inv R g0 start (with_world draw st).
Proof. by apply inv_with_world. Qed.

Lemma inv_mutate c ev p st :
  inv R g0 start st ->
    inv R g0 start (with_world (mutate (set_color c) ev p) st).
Proof.
  apply inv_with_world. intros q. simpl. apply neighbors_of_update_color.
Qed.

(** Taking the least entry out of the queue. *)
Lemma inv_remove_current st f c cur q :
  inv R g0 start st -> get (open_set st) = Some ((f, c, cur), q) ->
  cur ∈ open_set_hash st /\
  inv R g0 start (remove_current cur q st) /\
  (exists v, g_score st !! cur = Some (Int v)) /\
  cur ∉ open_set_hash (remove_current cur q st).
Proof.
  intros [ ] (l1 & l2 & Hq & -> & Hle)%get_split.
  rewrite Hq in *.
  rewrite fmap_app, fmap_cons in inv_nodup0.
  rewrite fmap_app, fmap_cons in inv_sorted0.
  apply NoDup_app in inv_nodup0 as (Hn1 & Hn12 & Hn2).
  apply NoDup_cons in Hn2 as [Hn2 Hn3].
  apply StronglySorted_app in inv_sorted0 as (Hs12 & Hs1 & Hs2).
  apply StronglySorted_cons in Hs2 as [Hs2 Hs3].
  apply Forall_app in inv_count0 as [Hc1 Hc2].
  apply Forall_cons in Hc2 as [_ Hc2].
  apply Forall_app in inv_fin0 as [Hf1 Hf2].
  apply Forall_cons in Hf2 as [[_ Hcur] Hf2].
  unfold node in Hcur. simpl in Hcur.
  assert (cur ∈ open_set_hash st) as Hin.
  { apply inv_hash0. rewrite fmap_app, fmap_cons, elem_of_app, elem_of_cons.
    right. by left. }
  split_and!; [done| |done|];
    [|simpl; rewrite elem_of_difference, elem_of_singleton; tauto].
  split; simpl; try done.
  - intros p. rewrite elem_of_difference, inv_hash0, !fmap_app, fmap_cons.
    rewrite !elem_of_app, elem_of_cons, elem_of_singleton.
    unfold node at 2. simpl. split.
    + intros [[?|[?|?]] ?]; tauto.
    + intros [H|H]; (split; [tauto|]); intros ->.
      * by eapply Hn12; [|left].
      * done.
  - rewrite fmap_app. apply NoDup_app. split_and!; [done| |done].
    intros p Hp1 Hp2. eapply Hn12; [done|]. by right.
  - rewrite fmap_app. apply StronglySorted_app. split_and!; [|done|done].
    intros a1 a2 H1 H2. apply Hs12; [done|]. by right.
  - by apply Forall_app.
  - by apply Forall_app.
Qed.


Lemma relax_cases st cur nb v gn :
  g_score st !! cur = Some (Int v) ->
  g_score st !! nb = Some gn ->
  relax end_ cur nb st =
  Ok (if num_ltb (Int (v + 1)) gn then
        let f := Int (v + 1 + h nb end_) in
        let st1 := record_better cur nb (Int (v + 1)) f st in
        if bool_decide (nb ∈ open_set_hash st) then st1
        else push_open nb f st1
      else st).
Proof.
  intros Hc Hn. unfold relax, dict_get. rewrite Hc, Hn. cbn [bind num_add].
  destruct (num_ltb (Int (v + 1)) gn); [|done]. cbn zeta.
  change (open_set_hash (record_better cur nb (Int (v + 1))
            (Int (v + 1 + h nb end_)) st)) with (open_set_hash st).
  by destruct (bool_decide (nb ∈ open_set_hash st)).
Qed.

Lemma inv_record_better st cur nb v gn f :
  inv R g0 start st ->
  g_score st !! cur = Some (Int v) ->
  g_score st !! nb = Some gn ->
  num_ltb (Int (v + 1)) gn = true ->
  edge g0 cur nb ->
  inv R g0 start (record_better cur nb (Int (v + 1)) f st) /\ nb <> start /\
    nb <> cur.
Proof.
  intros Hinv Hc Hn Hlt He.
  assert (nb <> start) as Hns.
  { intros ->. rewrite (inv_start _ _ _ _ Hinv) in Hn. injection Hn as <-.
    pose proof (inv_nonneg _ _ _ _ Hinv _ _ Hc). simpl in Hlt.
    cmp_cases; [lia|done]. }
  assert (nb <> cur) as Hnc.
  { intros ->. rewrite Hc in Hn. injection Hn as <-.
    simpl in Hlt. cmp_cases; [lia|done]. }
  split; [|done].
  pose proof (inv_nonneg _ _ _ _ Hinv _ _ Hc) as Hv.
  destruct Hinv. split; simpl; try done.
  - intros p. destruct (decide (p = nb)) as [->|Hne].
    + rewrite lookup_insert_eq. split; [|eauto].
      intros _. apply inv_keys0. eauto.
    + by rewrite lookup_insert_ne.
  - by rewrite lookup_insert_ne.
  - intros p w. destruct (decide (p = nb)) as [->|Hne].
    + rewrite lookup_insert_eq. intros [= <-]. lia.
    + rewrite lookup_insert_ne by done. apply inv_nonneg0.
  - by rewrite lookup_insert_ne.
  - intros n c. destruct (decide (n = nb)) as [->|Hne].
    + rewrite !lookup_insert_eq. intros [= <-].
      exists (v + 1), v. rewrite lookup_insert_ne by done.
      split_and!; [done|done|lia].
    + rewrite !lookup_insert_ne by done. intros Hcf.
      destruct (inv_cf0 _ _ Hcf) as (vn & vc & Hgn & Hgc & Hlt').
      destruct (decide (c = nb)) as [->|Hne'].
      * exists vn, (v + 1). rewrite lookup_insert_eq.
        split_and!; [done|done|]. rewrite Hn in Hgc. injection Hgc as ->.
        simpl in Hlt. cmp_cases; [lia|done].
      * exists vn, vc. by rewrite lookup_insert_ne.
  - intros p w. destruct (decide (p = nb)) as [->|Hne].
    + rewrite !lookup_insert_eq. eauto.
    + rewrite !lookup_insert_ne by done. apply inv_cf_dom0.
  - eapply Forall_impl; [exact inv_fin0|]. intros e [Hf [w Hw]]. split; [done|].
    destruct (decide (node e = nb)) as [->|Hne].
    + rewrite lookup_insert_eq. eauto.
    + rewrite lookup_insert_ne by done. eauto.
  - intros p w. destruct (decide (p = nb)) as [->|Hne].
    + rewrite lookup_insert_eq. intros _.
      eapply rtc_r; [by eapply inv_reach0|done].
    + rewrite lookup_insert_ne by done. apply inv_reach0.
Qed.

Lemma inv_push_open st nb f w :
  inv R g0 start st -> nb ∉ open_set_hash st ->
  g_score st !! nb = Some (Int w) ->
  inv R g0 start (push_open nb (Int f) st).
Proof.
  intros [ ] Hnot Hg. split; simpl; try done.
  - intros p. unfold put. rewrite elem_of_union, elem_of_singleton.
    rewrite fmap_app, elem_of_app, inv_hash0. simpl.
    rewrite list_elem_of_singleton. unfold node at 2. simpl. tauto.
  - unfold put. rewrite fmap_app. apply NoDup_app. split_and!; [done| |].
    + intros p Hp. cbn. rewrite list_elem_of_singleton.
      intros ->. by apply Hnot, inv_hash0.
    + apply NoDup_singleton.
  - unfold put. rewrite fmap_app. apply StronglySorted_app_2; [|done|].
    + intros a1 a2 (e & -> & He)%list_elem_of_fmap.
      cbn. rewrite list_elem_of_singleton. intros ->.
      rewrite Forall_forall in inv_count0.
      specialize (inv_count0 _ He). lia.
    + repeat constructor.
  - unfold put. apply Forall_app. split.
    + eapply Forall_impl; [exact inv_count0|]. simpl. intros. lia.
    + repeat constructor. unfold seqno. simpl. lia.
  - unfold put. apply Forall_app. split; [done|].
    repeat constructor; simpl; eauto.
  - intros p. rewrite <- inv_frame0. apply neighbors_of_update_color.
Qed.

Lemma inv_relax st cur nb v :
  inv R g0 start st ->
  g_score st !! cur = Some (Int v) ->
  edge g0 cur nb ->
  exists st', relax end_ cur nb st = Ok st' /\ inv R g0 start st' /\
              g_score st' !! cur = Some (Int v).
Proof.
  intros Hinv Hc He.
  assert (is_Some (g_score st !! nb)) as [gn Hn].
  { apply (inv_keys _ _ _ _ Hinv). by eapply Hnb. }
  rewrite (relax_cases _ _ _ _ _ Hc Hn).
  eexists. split; [done|].
  destruct (num_ltb (Int (v + 1)) gn) eqn:Hlt; [|done].
  destruct (inv_record_better st cur nb v gn (Int (v + 1 + h nb end_))
              Hinv Hc Hn Hlt He) as (Hinv' & Hns & Hnc).
  cbn zeta. case_bool_decide as Hin.
  - split; [done|]. simpl. by rewrite lookup_insert_ne.
  - split; [|simpl; by rewrite lookup_insert_ne].
    eapply inv_push_open; [done|done|]. simpl. apply lookup_insert_eq.
Qed.

Lemma inv_relax_all st cur v l :
  inv R g0 start st ->
  g_score st !! cur = Some (Int v) ->
  Forall (edge g0 cur) l ->
  exists st', foldM (relax end_ cur) l st = Ok st' /\ inv R g0 start st' /\
              g_score st' !! cur = Some (Int v).
Proof.
  revert st. induction l as [|nb l IH]; intros st Hinv Hc Hl; simpl.
  - eauto.
  - apply Forall_cons in Hl as [He Hl].
    destruct (inv_relax st cur nb v Hinv Hc He) as (st1 & -> & Hinv1 & Hc1).
    simpl. by apply IH.
Qed.


(** ** The predecessor chain and [reconstruct_path] *)

Lemma reconstruct_path_chain cf p l w fuel :
  is_chain cf p l -> (length l < fuel)%nat ->
  reconstruct_path fuel cf p w = Ok (mark_chain l w).
Proof.
  intros Hch. revert w fuel.
  induction Hch as [p Hp|p c l Hp Hch IH]; intros w fuel Hlen.
  - destruct fuel; [simpl in Hlen; lia|]. simpl. by rewrite Hp.
  - destruct fuel; [simpl in Hlen; lia|]. simpl. rewrite Hp.
    apply IH. simpl in Hlen. lia.
Qed.

Lemma chain_exists st p v :
  inv R g0 start st -> g_score st !! p = Some (Int v) ->
  exists l, is_chain (came_from st) p l /\
            Z.of_nat (length l) <= v /\
            last (p :: l) = Some start /\
            Forall (fun c => exists vc, g_score st !! c = Some (Int vc) /\
              vc < v) l.
Proof.
  intros Hinv. pose proof (inv_nonneg _ _ _ _ Hinv p v) as Hv0.
  remember (Z.to_nat v) as m eqn:Hm. revert p v Hm Hv0.
  induction m as [m IH] using lt_wf_ind. intros p v Hm Hv0 Hg.
  specialize (Hv0 Hg).
  destruct (decide (p = start)) as [->|Hne].
  - exists []. split_and!; [|simpl; lia|done|done].
    constructor. apply (inv_cf_start _ _ _ _ Hinv).
  - destruct (inv_cf_dom _ _ _ _ Hinv _ _ Hg Hne) as [c Hc].
    destruct (inv_cf _ _ _ _ Hinv _ _ Hc) as (vn & vc & Hgn & Hgc & Hlt).
    rewrite Hg in Hgn. injection Hgn as <-.
    pose proof (inv_nonneg _ _ _ _ Hinv _ _ Hgc) as Hvc.
    destruct (IH (Z.to_nat vc) ltac:(lia) c vc eq_refl
                 (inv_nonneg _ _ _ _ Hinv c vc) Hgc)
      as (l & Hch & Hlen & Hlast & Hall).
    exists (c :: l). split_and!.
    + by constructor.
    + simpl length. lia.
    + done.
    + constructor; [eauto|].
      eapply Forall_impl; [exact Hall|]. simpl.
      intros q (vq & Hq & Hlt'). exists vq. split; [done|lia].
Qed.

Lemma chain_unique cf p l1 l2 :
  is_chain cf p l1 -> is_chain cf p l2 -> l1 = l2.
Proof.
  intros H1. revert l2. induction H1 as [p Hp|p c l Hp H1 IH]; intros l2 H2.
  - inversion H2; subst; [done|congruence].
  - inversion H2 as [|? c' l' Hp' H2']; subst; [congruence|].
    rewrite Hp in Hp'. injection Hp' as <-. f_equal. by apply IH.
Qed.


(** ** One pass through the loop *)

Lemma iteration_Continue fuel st st' :
  iteration fuel start end_ st = Ok (Continue st') ->
  exists f c cur q st1,
    get (open_set st) = Some ((f, c, cur), q) /\
    cur ∈ open_set_hash st /\ cur <> end_ /\
    foldM (relax end_ cur) (neighbors_of (grid (world st)) cur)
          (remove_current cur q st) = Ok st1 /\
    st' = close_current start cur st1.
Proof.
  unfold iteration.
  destruct (get (open_set st)) as [[[[f c] cur] q]|]; [|done].
  case_bool_decide as Hin; [|done].
  case_bool_decide as Hend.
  - intros (w & _ & [=])%bind_Ok.
  - intros (st1 & Hfold & [= <-])%bind_Ok.
    exists f, c, cur, q, st1. done.
Qed.

Lemma iteration_Return fuel st b st' :
  iteration fuel start end_ st = Ok (Return b st') ->
  (b = false /\ open_set st = [] /\ st' = st) \/
  (b = true /\ exists f c q w,
     get (open_set st) = Some ((f, c, end_), q) /\
     end_ ∈ open_set_hash st /\
     reconstruct_path fuel (came_from st) end_ (world st) = Ok w /\
     st' = with_world (fun _ => mutate make_end MakeEnd end_ w)
                      (remove_current end_ q st)).
Proof.
  unfold iteration.
  destruct (get (open_set st)) as [[[[f c] cur] q]|] eqn:Hget.
  - case_bool_decide as Hin; [|done].
    case_bool_decide as Hend.
    + subst cur. intros (w & Hw & [= <- <-])%bind_Ok.
      right. split; [done|]. exists f, c, q, w. done.
    + intros (st1 & _ & [=])%bind_Ok.
  - intros [= <- <-]. left. by apply get_None in Hget.
Qed.

Lemma iteration_expand fuel st f c cur q st1 :
  get (open_set st) = Some ((f, c, cur), q) ->
  cur ∈ open_set_hash st -> cur <> end_ ->
  foldM (relax end_ cur) (neighbors_of (grid (world st)) cur)
        (remove_current cur q st) = Ok st1 ->
  iteration fuel start end_ st = Ok (Continue (close_current start cur st1)).
Proof.
  intros Hget Hin Hne Hfold. unfold iteration. rewrite Hget.
  rewrite bool_decide_eq_true_2 by done.
  rewrite bool_decide_eq_false_2 by done. cbn zeta.
  change (grid (world (remove_current cur q st))) with (grid (world st)).
  rewrite Hfold. done.
Qed.

Lemma inv_close_current cur st1 : inv R g0 start st1 ->
  inv R g0 start (close_current start cur st1).
Proof.
  intros H. unfold close_current. case_bool_decide.
  - by apply inv_mutate, inv_draw.
  - by apply inv_draw.
Qed.

Lemma inv_iteration fuel st st' :
  inv R g0 start st -> iteration fuel start end_ st = Ok (Continue st') ->
    inv R g0 start st'.
Proof.
  intros Hinv (f & c & cur & q & st1 & Hget & Hin & Hne & Hfold & ->)
    %iteration_Continue.
  destruct (inv_remove_current st f c cur q Hinv Hget)
    as (_ & Hinv1 & [v Hv] & _).
  destruct (inv_relax_all (remove_current cur q st) cur v
              (neighbors_of (grid (world st)) cur) Hinv1 Hv)
    as (st1' & Hfold' & Hinv' & _).
  { apply Forall_forall. intros nb. by rewrite (inv_frame _ _ _ _ Hinv). }
  rewrite Hfold in Hfold'. injection Hfold' as <-.
  by apply inv_close_current.
Qed.

Lemma reachable_inv st : reachable g0 start end_ st -> inv R g0 start st.
Proof.
  induction 1 as [|fuel st st' _ IH Hit]; [apply inv_init|].
  by eapply inv_iteration.
Qed.

(** An induction principle for the [for] loop over the neighbors: a
    property of the state that each of the three outcomes of the body
    keeps holds when the loop is over. *)
Lemma relax_all_ind (P : State -> Prop) cur v l st st' :
  inv R g0 start st -> g_score st !! cur = Some (Int v) ->
    Forall (edge g0 cur) l ->
  (forall s nb gn,
     inv R g0 start s -> g_score s !! cur = Some (Int v) -> edge g0 cur nb ->
     g_score s !! nb = Some gn -> num_ltb (Int (v + 1)) gn = true ->
     P s ->
     let f := Int (v + 1 + h nb end_) in
     let s1 := record_better cur nb (Int (v + 1)) f s in
     (nb ∈ open_set_hash s -> P s1) /\
     (nb ∉ open_set_hash s -> P (push_open nb f s1))) ->
  P st ->
  foldM (relax end_ cur) l st = Ok st' -> P st'.
Proof.
  intros Hinv Hc Hl Hstep. revert st Hinv Hc.
  induction l as [|nb l IH]; intros st Hinv Hc HP; simpl.
  - by intros [= <-].
  - apply Forall_cons in Hl as [He Hl].
    destruct (inv_relax st cur nb v Hinv Hc He) as (st1 & Hr & Hinv1 & Hc1).
    rewrite Hr. simpl. apply IH; try done.
    assert (is_Some (g_score st !! nb)) as [gn Hn].
    { apply (inv_keys _ _ _ _ Hinv). by eapply Hnb. }
    rewrite (relax_cases _ _ _ _ _ Hc Hn) in Hr.
    destruct (num_ltb (Int (v + 1)) gn) eqn:Hlt; [|by injection Hr as <-].
    destruct (Hstep st nb gn Hinv Hc He Hn Hlt HP) as [H1 H2].
    cbn zeta in Hr. case_bool_decide; injection Hr as <-; eauto.
Qed.


(** ** The measure decreases *)

Lemma not_above_refl s : not_above s s.
Proof. right. lia. Qed.

Lemma not_above_relax_all cur v l st st' :
  inv R g0 start st -> g_score st !! cur = Some (Int v) ->
    Forall (edge g0 cur) l ->
  foldM (relax end_ cur) l st = Ok st' -> not_above st st'.
Proof.
  intros Hinv Hc Hl.
  apply (relax_all_ind (not_above st) cur v l st st' Hinv Hc Hl);
    [|apply not_above_refl].
  intros s nb gn Hs Hcs He Hn Hlt HP f s1.
  pose proof (inv_nonneg _ _ _ _ Hs _ _ Hcs) as Hv.
  assert (forall k, (k <= 1)%nat ->
            (undiscovered s1 < undiscovered s)%nat \/
            (undiscovered s1 = undiscovered s /\
             effort s1 + k <= effort s)%nat) as Hs1.
  { intros k Hk. unfold undiscovered, effort. subst s1. simpl.
    pose proof (wsum_insert w_inf (g_score s) nb (Int (v + 1)) gn Hn) as Hi.
    pose proof (wsum_insert w_fin (g_score s) nb (Int (v + 1)) gn Hn) as Hf.
    destruct gn as [w|]; simpl in Hi, Hf, Hlt.
    - right. cmp_cases; [|done].
      pose proof (inv_nonneg _ _ _ _ Hs _ _ Hn). lia.
    - left. lia. }
  split; intros Hin.
  - destruct (Hs1 0%nat ltac:(lia)) as [H|[H1 H2]];
      destruct HP as [HP|[HP1 HP2]]; unfold not_above; lia.
  - unfold not_above.
    assert (undiscovered (push_open nb f s1) = undiscovered s1) as -> by done.
    assert (effort (push_open nb f s1) = S (effort s1)) as ->.
    { unfold effort, push_open, put. simpl. rewrite length_app. simpl. lia. }
    destruct (Hs1 1%nat ltac:(lia)) as [H|[H1 H2]];
      destruct HP as [HP|[HP1 HP2]]; unfold not_above; lia.
Qed.

Lemma iteration_decreases fuel st st' :
  inv R g0 start st -> iteration fuel start end_ st = Ok (Continue st') ->
  (undiscovered st' < undiscovered st)%nat \/
  (undiscovered st' = undiscovered st /\ effort st' < effort st)%nat.
Proof.
  intros Hinv (f & c & cur & q & st1 & Hget & Hin & Hne & Hfold & ->)
    %iteration_Continue.
  destruct (inv_remove_current st f c cur q Hinv Hget)
    as (_ & Hinv1 & [v Hv] & _).
  assert (not_above (remove_current cur q st) st1) as Hna.
  { eapply not_above_relax_all; [exact Hinv1|exact Hv| |exact Hfold].
    apply Forall_forall. intros nb. by rewrite (inv_frame _ _ _ _ Hinv). }
  assert (undiscovered (close_current start cur st1) = undiscovered st1) as ->.
  { unfold close_current. by case_bool_decide. }
  assert (effort (close_current start cur st1) = effort st1) as ->.
  { unfold close_current. by case_bool_decide. }
  assert (undiscovered (remove_current cur q st) = undiscovered st) as E1
    by done.
  assert (S (effort (remove_current cur q st)) = effort st) as E2.
  { apply get_split in Hget as (l1 & l2 & Hq & -> & _).
    unfold effort. simpl. rewrite Hq, !length_app. simpl. lia. }
  destruct Hna as [?|[? ?]]; lia.
Qed.


(** ** Termination *)

Lemma while_open_set_terminates st :
  inv R g0 start st ->
  exists fuel b st', while_open_set fuel start end_ st = Ok (b, st').
Proof.
  remember (undiscovered st) as a eqn:Ha. revert st Ha.
  induction a as [a IHa] using lt_wf_ind. intros st Ha.
  remember (effort st) as e eqn:He. revert st Ha He.
  induction e as [e IHe] using lt_wf_ind. intros st Ha He Hinv.
  destruct (get (open_set st)) as [[[[f c] cur] q]|] eqn:Hget.
  - destruct (inv_remove_current st f c cur q Hinv Hget)
      as (Hin & Hinv1 & [v Hv] & _).
    destruct (decide (cur = end_)) as [->|Hne].
    + destruct (chain_exists st end_ v Hinv Hv) as (l & Hch & _).
      exists (S (S (length l))). do 2 eexists. simpl. unfold iteration.
      rewrite Hget. rewrite !bool_decide_eq_true_2 by done. cbn zeta.
      change (came_from (remove_current end_ q st)) with (came_from st).
      rewrite (reconstruct_path_chain _ _ _ _ _ Hch) by lia. simpl. done.
    + destruct (inv_relax_all (remove_current cur q st) cur v
                  (neighbors_of (grid (world st)) cur) Hinv1 Hv)
        as (st1 & Hfold & _).
      { apply Forall_forall. intros nb. by rewrite (inv_frame _ _ _ _ Hinv). }
      pose proof (iteration_expand 0 st f c cur q st1 Hget Hin Hne Hfold)
        as Hit.
      pose proof (inv_iteration _ _ _ Hinv Hit) as Hinv'.
      assert (exists fuel b st',
                while_open_set fuel start end_ (close_current start cur st1)
                = Ok (b, st')) as (fuel & b & st' & Hw).
      { destruct (iteration_decreases _ _ _ Hinv Hit) as [Hlt|[Heq Hlt]].
        - eapply (IHa _ ltac:(subst a; exact Hlt)); done.
        - eapply (IHe _ ltac:(subst e; exact Hlt)); [congruence|done|done]. }
      exists (S fuel), b, st'. simpl.
      rewrite (iteration_mono _ fuel _ _ _ _ Hit) by lia. done.
  - exists 1%nat, false, st. simpl. unfold iteration. by rewrite Hget.
Qed.

Lemma algorithm_terminates :
  exists fuel b st', algorithm fuel g0 start end_ = Ok (b, st').
Proof. apply while_open_set_terminates, inv_init. Qed.


(** ** What the outside sees: colours *)

Ltac color_step :=
  unfold make_closed, make_open, make_path, make_end;
  rewrite color_at_update_color.

Lemma path_marks_cons ev tr :
  path_marks (ev :: tr)
  = path_marks tr ++ match ev with MakePath p => [p] | _ => [] end.
Proof.
  unfold path_marks. simpl. destruct ev; simpl; by rewrite ?app_nil_r.
Qed.

Lemma winv_close_current cur st1 :
  cur <> end_ -> winv start end_ st1 ->
    winv start end_ (close_current start cur st1).
Proof.
  intros Hne [[Hs He] Hsn]. unfold close_current. case_bool_decide as Hcs.
  - split; simpl.
    + split; color_step; by rewrite decide_False.
    + by constructor.
  - split; simpl; [done|]. by constructor.
Qed.

Lemma unmarked_close_current cur st1 :
  unmarked g0 st1 -> unmarked g0 (close_current start cur st1).
Proof.
  intros [Hc Ht]. unfold close_current. case_bool_decide as Hcs.
  - split; simpl.
    + intros p. color_step. case_decide; [|apply Hc].
      by destruct (color_at (grid (world st1)) p).
    + by rewrite !path_marks_cons, Ht.
  - split; simpl; [done|]. by rewrite path_marks_cons, Ht.
Qed.

Lemma winv_relax_all cur v l st st' :
  inv R g0 start st -> g_score st !! cur = Some (Int v) ->
    Forall (edge g0 cur) l ->
  foldM (relax end_ cur) l st = Ok st' -> winv start end_ st ->
    winv start end_ st'.
Proof.
  intros Hinv Hc Hl Hfold HP.
  apply (relax_all_ind (winv start end_) cur v l st st' Hinv Hc Hl);
    [|done|done].
  intros s nb gn Hs Hcs He Hn Hlt [[Hws Hwe] Hsn] f s1.
  destruct (inv_record_better s cur nb v gn f Hs Hcs Hn Hlt He)
    as (_ & Hns & _).
  split; intros Hin; [done|].
  split; simpl; [|done]. split.
  - color_step. by rewrite decide_False.
  - color_step. case_decide; [|done].
    right. by destruct Hwe as [-> | ->].
Qed.

Lemma unmarked_relax_all cur v l st st' :
  inv R g0 start st -> g_score st !! cur = Some (Int v) ->
    Forall (edge g0 cur) l ->
  foldM (relax end_ cur) l st = Ok st' -> unmarked g0 st -> unmarked g0 st'.
Proof.
  intros Hinv Hc Hl Hfold HP.
  apply (relax_all_ind (unmarked g0) cur v l st st' Hinv Hc Hl); [|done|done].
  intros s nb gn Hs Hcs He Hn Hlt [Hu Ht] f s1.
  split; intros Hin; [done|].
  split; simpl.
  - intros p. color_step. case_decide; [|apply Hu].
    by destruct (color_at (grid (world s)) p).
  - by rewrite path_marks_cons, Ht.
Qed.

Lemma reachable_unmarked st : reachable g0 start end_ st -> unmarked g0 st.
Proof.
  induction 1 as [|fuel st st' Hr IH Hit]; [by split|].
  pose proof (reachable_inv _ Hr) as Hinv.
  apply iteration_Continue in Hit
      as (f & c & cur & q & st1 & Hget & Hin & Hne & Hfold & ->).
  destruct (inv_remove_current st f c cur q Hinv Hget)
    as (_ & Hinv1 & [v Hv] & _).
  apply unmarked_close_current.
  eapply unmarked_relax_all; [exact Hinv1|exact Hv| |exact Hfold|].
  - apply Forall_forall. intros nb. by rewrite (inv_frame _ _ _ _ Hinv).
  - by destruct IH.
Qed.

Lemma reachable_winv st :
  color_at g0 start = Some ORANGE -> color_at g0 end_ = Some TURQUOISE ->
  reachable g0 start end_ st -> winv start end_ st.
Proof.
  intros Hcs Hce.
  induction 1 as [|fuel st st' Hr IH Hit].
  { split; simpl; [split; eauto|constructor]. }
  pose proof (reachable_inv _ Hr) as Hinv.
  apply iteration_Continue in Hit
      as (f & c & cur & q & st1 & Hget & Hin & Hne & Hfold & ->).
  destruct (inv_remove_current st f c cur q Hinv Hget)
    as (_ & Hinv1 & [v Hv] & _).
  apply winv_close_current; [done|].
  eapply winv_relax_all; [exact Hinv1|exact Hv| |exact Hfold|].
  - apply Forall_forall. intros nb. by rewrite (inv_frame _ _ _ _ Hinv).
  - by destruct IH.
Qed.

(** Every result of the loop is the result of one last pass, made from a
    state the loop went through. *)
Lemma while_open_set_Return fuel st b st' :
  reachable g0 start end_ st ->
  while_open_set fuel start end_ st = Ok (b, st') ->
  exists fuel' st1, reachable g0 start end_ st1 /\
    iteration fuel' start end_ st1 = Ok (Return b st').
Proof.
  revert st. induction fuel as [|fuel IH]; intros st Hr; [done|].
  simpl. intros (fl & Hfl & H)%bind_Ok. destruct fl as [st2|b2 st2].
  - apply (IH st2); [|done]. by eapply reachable_next.
  - injection H as <- <-. eauto.
Qed.


(** ** The two ways the search ends *)

Lemma algorithm_result fuel b st' :
  algorithm fuel g0 start end_ = Ok (b, st') ->
  exists st, reachable g0 start end_ st /\
    ((b = false /\ open_set st = [] /\ st' = st) \/
     (b = true /\ exists f c q l v,
        get (open_set st) = Some ((f, c, end_), q) /\
        g_score st !! end_ = Some (Int v) /\
        is_chain (came_from st) end_ l /\
        last (end_ :: l) = Some start /\
        Z.of_nat (length l) <= v /\
        Forall (fun p => exists vp, g_score st !! p = Some (Int vp) /\
          vp < v) l /\
        st' = finish end_ q l st)).
Proof.
  intros (fuel' & st & Hr & Hit)%while_open_set_Return; [|constructor].
  exists st. split; [done|].
  apply iteration_Return in Hit
    as [(-> & Hq & ->)|(-> & f & c & q & w & Hget & Hin & Hrec & ->)];
    [by left|right].
  split; [done|].
  pose proof (reachable_inv _ Hr) as Hinv.
  destruct (inv_remove_current st f c end_ q Hinv Hget) as (_ & _ & [v Hv] & _).
  destruct (chain_exists st end_ v Hinv Hv) as (l & Hch & Hlen & Hlast & Hall).
  exists f, c, q, l, v. split_and!; try done.
  pose proof (reconstruct_path_chain _ _ _ (world st) (S (length l)) Hch
                ltac:(lia)) as Hrec'.
  apply (reconstruct_path_mono _ (fuel' + S (length l))) in Hrec; [|lia].
  apply (reconstruct_path_mono _ (fuel' + S (length l))) in Hrec'; [|lia].
  rewrite Hrec in Hrec'. by injection Hrec' as ->.
Qed.


(** ** The order in which the queue gives its entries back *)

Lemma get_order st m q :
  inv R g0 start st -> get (open_set st) = Some (m, q) ->
  exists i fm,
    open_set st !! i = Some m /\ q = delete i (open_set st) /\
    prio m = Int fm /\
    forall j e, open_set st !! j = Some e -> j <> i ->
      exists fe, prio e = Int fe /\
                 (fm < fe \/ (fm = fe /\ (i < j)%nat /\ seqno m < seqno e)).
Proof.
  intros Hinv (i & Hi & -> & Hle)%get_spec.
  pose proof (inv_fin _ _ _ _ Hinv) as Hfin. rewrite Forall_forall in Hfin.
  destruct (Hfin m) as [[fm Hfm] _];
    [apply list_elem_of_lookup; eauto|].
  exists i, fm. split_and!; try done.
  intros j e Hj Hne.
  destruct (Hfin e) as [[fe Hfe] _]; [apply list_elem_of_lookup; eauto|].
  exists fe. split; [done|].
  assert (entry_ltb e m = false) as He
    by (apply Hle, list_elem_of_lookup; eauto).
  pose proof (inv_sorted _ _ _ _ Hinv) as Hs.
  assert (forall a b (u v : entry),
            open_set st !! a = Some u -> open_set st !! b = Some v ->
            (a < b)%nat -> seqno u < seqno v) as Hlt.
  { intros a b u v Ha Hb Hab.
    eapply (StronglySorted_lookup_lt Z.lt _ a b); [exact Hs| | |done].
    - by rewrite list_lookup_fmap, Ha.
    - by rewrite list_lookup_fmap, Hb. }
  destruct m as [[pm cm] nm], e as [[pe ce] ne].
  unfold prio in Hfm, Hfe. simpl in Hfm, Hfe. subst pm pe.
  destruct (Z.eq_dec fm fe) as [->|Hd]; [right|left].
  - destruct (Nat.lt_total i j) as [Hij|[->|Hji]]; [|done|].
    + split_and!; [done|done|]. by apply (Hlt i j).
    + pose proof (Hlt j i _ _ Hj Hi Hji) as Hc. unfold seqno in Hc.
      simpl in Hc, He. cmp_cases; simpl in He; try done; lia.
  - simpl in He. cmp_cases; simpl in He; try done; lia.
Qed.

(** ** The predecessor map *)

Lemma came_from_sound st :
  inv R g0 start st ->
  came_from st !! start = None /\
  (forall n c, came_from st !! n = Some c ->
     exists vn vc, g_score st !! n = Some (Int vn) /\
                   g_score st !! c = Some (Int vc) /\ vc < vn) /\
  (forall n, is_Some (came_from st !! n) ->
     exists l, is_chain (came_from st) n l /\
               last l = Some start /\ NoDup (n :: l) /\
               forall w, reconstruct_path (S (length l)) (came_from st) n w
                         = Ok (mark_chain l w)).
Proof.
  intros Hinv. split; [apply (inv_cf_start _ _ _ _ Hinv)|].
  split; [apply (inv_cf _ _ _ _ Hinv)|].
  intros n [c Hc].
  destruct (inv_cf _ _ _ _ Hinv _ _ Hc) as (vn & vc & Hgn & Hgc & Hlt).
  assert (forall p v, g_score st !! p = Some (Int v) ->
            exists l, is_chain (came_from st) p l /\
                      last (p :: l) = Some start /\ NoDup (p :: l)) as Hgen.
  { intros p v. pose proof (inv_nonneg _ _ _ _ Hinv p v) as Hv0.
    remember (Z.to_nat v) as m eqn:Hm. revert p v Hm Hv0.
    induction m as [m IH] using lt_wf_ind. intros p v Hm Hv0 Hg.
    destruct (chain_exists st p v Hinv Hg) as (l & Hch & _ & Hlast & Hall).
    exists l. split_and!; [done|done|].
    apply NoDup_cons. split.
    - intros Hin. rewrite Forall_forall in Hall.
      destruct (Hall _ Hin) as (vp & Hvp & Hlt'). rewrite Hg in Hvp.
      injection Hvp as <-. lia.
    - inversion Hch as [|? c' l' Hc' Hch']; subst; [apply NoDup_nil_2|].
      destruct (inv_cf _ _ _ _ Hinv _ _ Hc')
        as (vn' & vc' & Hgn' & Hgc' & Hlt').
      rewrite Hg in Hgn'. injection Hgn' as <-.
      pose proof (inv_nonneg _ _ _ _ Hinv _ _ Hgc') as Hvc'.
      specialize (Hv0 Hg).
      destruct (IH (Z.to_nat vc') ltac:(lia) c' vc' eq_refl
                  (inv_nonneg _ _ _ _ Hinv c' vc') Hgc')
                    as (l2 & Hch2 & _ & Hnd).
      by rewrite (chain_unique _ _ _ _ Hch' Hch2). }
  destruct (Hgen n vn Hgn) as (l & Hch & Hlast & Hnd).
  exists l. split_and!; [done| |done|].
  - inversion Hch; subst; [congruence|]. done.
  - intros w. apply reconstruct_path_chain; [done|lia].
Qed.

(** ** A cell with a finite score can be walked to *)

Lemma found_connected fuel st' :
  algorithm fuel g0 start end_ = Ok (true, st') -> rtc (edge g0) start end_.
Proof.
  intros (st & Hr & [(? & _)|(_ & f & c & q & l & v & _ & Hv & _)])
    %algorithm_result; [done|].
  eapply inv_reach; [by apply reachable_inv|done].
Qed.


(** ** What the outside sees when the search returns *)

Lemma calm_settled g : calm start end_ g -> settled start end_ g.
Proof. intros [Hs He]. unfold settled. rewrite Hs. done. Qed.

Lemma final_observations fuel b st' :
  color_at g0 start = Some ORANGE -> color_at g0 end_ = Some TURQUOISE ->
  algorithm fuel g0 start end_ = Ok (b, st') ->
  Forall (settled start end_)
         (grid (world st') :: snapshots (trace (world st'))) /\
  color_at (grid (world st')) end_ = Some TURQUOISE.
Proof.
  intros Hcs Hce Halg.
  assert (start <> end_) as Hse by (intros E; by rewrite E, Hce in Hcs).
  apply algorithm_result in Halg as (st & Hr & Hcase).
  pose proof (reachable_winv st Hcs Hce Hr) as [Hnow Hsnap].
  pose proof (reachable_inv _ Hr) as Hinv.
  destruct Hcase as [(-> & Hq & ->)
                    |(-> & f & c & q & l & v & Hget & Hv & Hch & Hlast & Hlen
                      & Hall & ->)].
  - split.
    + constructor; [by apply calm_settled|].
      eapply Forall_impl; [exact Hsnap|apply calm_settled].
    + destruct Hnow as [_ [He|He]]; [done|].
      (* [end] is Open only while it waits in the queue *)
      exfalso.
      assert (forall s, reachable g0 start end_ s ->
                color_at (grid (world s)) end_ = Some GREEN ->
                end_ ∈ open_set_hash s) as Hopen; [|
        apply Hopen in He; [|done];
        apply (inv_hash _ _ _ _ Hinv) in He; rewrite Hq in He;
        by apply elem_of_nil in He].
      clear Hr Hinv Hsnap He Hq. intros s Hs.
      induction Hs as [|fuel' s s' Hs IH Hit].
      { simpl. intros E. by rewrite Hce in E. }
      pose proof (reachable_inv _ Hs) as Hinv.
      apply iteration_Continue in Hit
        as (f & c & cur & q & s1 & Hget & Hin & Hne & Hfold & ->).
      destruct (inv_remove_current s f c cur q Hinv Hget)
        as (_ & Hinv1 & [v Hv] & _).
      assert (color_at (grid (world s1)) end_ = Some GREEN ->
              end_ ∈ open_set_hash s1) as H1.
      { apply (relax_all_ind
                 (fun s => color_at (grid (world s)) end_ = Some GREEN ->
                           end_ ∈ open_set_hash s)
                 cur v (neighbors_of (grid (world s)) cur)
                 (remove_current cur q s) s1 Hinv1 Hv); [| | |exact Hfold].
        - apply Forall_forall. intros nb. by rewrite (inv_frame _ _ _ _ Hinv).
        - intros s0 nb gn Hs0 Hc0 He0 Hn0 Hlt0 HP f0 s01. split; [done|].
          intros Hnin. simpl. color_step.
          case_decide as E; [subst; set_solver|].
          intros HG. apply HP in HG. set_solver.
        - simpl. intros HG. apply IH in HG.
          rewrite elem_of_difference, elem_of_singleton. split; [done|].
          congruence. }
      unfold close_current. case_bool_decide; simpl; [|done].
      color_step. rewrite decide_False by done. done.
  - assert (end_ ∉ l) as Hel.
    { intros Hin. rewrite Forall_forall in Hall.
      destruct (Hall _ Hin) as (vp & Hvp & Hlt).
      rewrite Hv in Hvp. injection Hvp as <-. lia. }
    destruct (mark_chain_snapshots
                (fun g => (color_at g start = Some ORANGE \/
                           color_at g start = Some PURPLE) /\
                          (color_at g end_ = Some TURQUOISE \/
                           color_at g end_ = Some GREEN))
                l (world st)) as [Hg Hs].
    { intros g c' Hc [Hgs Hge]. unfold make_path.
      rewrite !color_at_update_color. split.
      - case_decide; [|done]. right. by destruct Hgs as [-> | ->].
      - rewrite decide_False; [done|]. by intros ->. }
    { destruct Hnow as [? ?]. eauto. }
    { eapply Forall_impl; [exact Hsnap|]. intros g [? ?]. eauto. }
    assert (forall g,
              (color_at g start = Some ORANGE \/
               color_at g start = Some PURPLE) /\
              (color_at g end_ = Some TURQUOISE \/
               color_at g end_ = Some GREEN) -> settled start end_ g) as Himp.
    { intros g [[E|E] ?]; unfold settled; rewrite E; done. }
    unfold finish. simpl. split.
    + constructor.
      * unfold settled, make_end. rewrite !color_at_update_color.
        rewrite decide_False by done. rewrite decide_True by done.
        destruct Hg as [[E|E] Hge]; rewrite E;
          split_and!; try done; left; by destruct Hge as [-> | ->].
      * eapply Forall_impl; [exact Hs|exact Himp].
    + unfold make_end. rewrite color_at_update_color, decide_True by done.
      by destruct Hg as [_ [-> | ->]].
Qed.


(** ** What a successful search marks *)

(** The cells marked are those of the predecessor chain of [end], [start]
    included; [end] is set back to End. *)
Lemma success_marks fuel st' :
  algorithm fuel g0 start end_ = Ok (true, st') ->
  exists st l v,
    reachable g0 start end_ st /\ is_chain (came_from st) end_ l /\
    g_score st !! end_ = Some (Int v) /\ Z.of_nat (length l) <= v /\
    path_marks (trace (world st')) = l /\
    last (end_ :: l) = Some start /\ (end_ ∉ l) /\
    forall p, color_at (grid (world st')) p
              = if decide (p = end_)
                then ((fun _ => TURQUOISE) <$> color_at (grid (world st)) p)
                else if decide (p ∈ l)
                     then ((fun _ => PURPLE) <$> color_at (grid (world st)) p)
                     else color_at (grid (world st)) p.
Proof.
  intros (st & Hr & [(? & _)|(_ & f & c & q & l & v & Hget & Hv & Hch & Hlast
                              & Hlen & Hall & ->)])%algorithm_result; [done|].
  exists st, l, v.
  assert (end_ ∉ l) as Hel.
  { intros Hin. rewrite Forall_forall in Hall.
    destruct (Hall _ Hin) as (vp & Hvp & Hlt).
    rewrite Hv in Hvp. injection Hvp as <-. lia. }
  split_and!; try done.
  - unfold finish. simpl. rewrite path_marks_cons, app_nil_r.
    rewrite path_marks_mark_chain.
    by rewrite (u_trace _ _ (reachable_unmarked _ Hr)).
  - intros p. unfold finish. simpl. unfold make_end.
    rewrite color_at_update_color, mark_chain_color.
    destruct (decide (end_ = p)) as [<-|Hne].
    + rewrite (decide_True (P := end_ = end_)) by done.
      by rewrite (decide_False (P := end_ ∈ l)) by done.
    + rewrite (decide_False (P := p = end_)); [done|congruence].
Qed.

Lemma success_marks_start fuel st' :
  algorithm fuel g0 start end_ = Ok (true, st') -> start <> end_ ->
  start ∈ path_marks (trace (world st')) /\
  color_at (grid (world st')) start = Some PURPLE.
Proof.
  intros Halg Hne.
  destruct (success_marks _ _ Halg)
    as (st & l & v & Hr & Hch & _ & _ & Hpm & Hlast & Hel & Hcol).
  assert (start ∈ l) as Hin.
  { destruct l as [|c l]; [simpl in Hlast; congruence|].
    rewrite last_cons_cons in Hlast.
    apply last_Some in Hlast as [l' ->].
    rewrite elem_of_app, list_elem_of_singleton. by right. }
  split; [by rewrite Hpm|].
  rewrite Hcol, decide_False, decide_True by done.
  destruct (node_at_bounds R g0 Hok start Hstart) as (n & Hn & _).
  assert (is_Some (node_at (grid (world st)) start)) as [n' Hn'].
  { clear -Hr Hn. induction Hr as [|fuel' s s' Hs IH Hit]; [eauto|].
    apply iteration_Continue in Hit
      as (f & c & cur & q & s1 & Hget & Hin & Hne & Hfold & ->).
    assert (forall l t t', is_Some (node_at (grid (world t)) start) ->
              foldM (relax end_ cur) l t = Ok t' ->
              is_Some (node_at (grid (world t')) start)) as Hf.
    { clear. induction l as [|nb l IH]; intros t t' Ht; simpl.
      - by intros [= <-].
      - intros (t1 & Hr & Hf)%bind_Ok. apply (IH t1 t'); [|done].
        unfold relax in Hr.
        destruct (dict_get (g_score t) cur); try done. cbn [bind] in Hr.
        destruct (dict_get (g_score t) nb); try done. cbn [bind] in Hr.
        destruct (num_ltb _ _); [|by injection Hr as <-].
        cbn zeta in Hr. case_bool_decide; injection Hr as <-; [done|].
        simpl. rewrite node_at_update_node. case_decide; [|done].
        by apply fmap_is_Some. }
    apply Hf in Hfold; [|done].
    unfold close_current. case_bool_decide; simpl; [|done].
    rewrite node_at_update_node. case_decide; [|done].
    by apply fmap_is_Some. }
  unfold color_at. by rewrite Hn'.
Qed.

End Search.

(** * The search on a grid whose adjacency was derived *)

Lemma update_all_neighbors_inv R (g g' : Grid) :
  grid_ok R g -> update_all_neighbors g = Ok g' -> g' = derived R g.
Proof.
  intros Hok H. rewrite (update_all_neighbors_spec R g Hok) in H. congruence.
Qed.

Lemma derived_inside R (g : Grid) p q :
  grid_ok R g -> q ∈ neighbors_of (derived R g) p -> in_bounds R q.
Proof.
  intros Hok. unfold neighbors_of. rewrite (node_at_derived R g Hok).
  destruct (node_at g p) as [n|] eqn:E; simpl; [|by intros ?%elem_of_nil].
  by intros (_ & ? & _)%(elem_of_expected R g Hok).
Qed.

Lemma derived_edge R (g : Grid) p q :
  grid_ok R g -> edge (derived R g) p q -> step R g p q.
Proof.
  intros Hok. unfold edge, neighbors_of. rewrite (node_at_derived R g Hok).
  destruct (node_at g p) as [n|] eqn:E; simpl; [|by intros ?%elem_of_nil].
  by intros ?%(elem_of_expected R g Hok).
Qed.

Lemma derived_connected R (g : Grid) p q :
  grid_ok R g -> rtc (edge (derived R g)) p q -> connected R g p q.
Proof.
  intros Hok. induction 1 as [|p q r Hpq _ IH]; [constructor|].
  eapply rtc_l; [|exact IH]. by apply derived_edge.
Qed.

Lemma color_at_in_bounds R (g : Grid) p c :
  grid_ok R g -> color_at g p = Some c -> in_bounds R p.
Proof.
  intros Hok. unfold color_at.
  destruct (node_at g p) as [n|] eqn:E; [|done]. intros _.
  by apply (node_at_inv R g Hok) in E as [? _].
Qed.

(** C5.  On every R-by-R grid whose adjacency was derived, from every
    start Cell of the grid, the search returns: with enough fuel the loop
    of the model ends with True or False (and raises nothing), and more
    fuel gives the same result. *)
Theorem search_terminates R (g g' : Grid) (start end_ : pos) :
  grid_ok R g -> update_all_neighbors g = Ok g' -> in_bounds R start ->
  exists fuel b st,
    forall fuel', (fuel <= fuel')%nat ->
      algorithm fuel' g' start end_ = Ok (b, st).
Proof.
  intros Hok Hg' Hs. rewrite (update_all_neighbors_inv R g g' Hok Hg').
  destruct (algorithm_terminates R (derived R g) start end_
              (derived_ok R g Hok)
              (fun p q => derived_inside R g p q Hok) Hs)
    as (fuel & b & st & H).
  exists fuel, b, st. intros fuel' Hle.
  by apply (while_open_set_mono fuel).
Qed.

(** C4 (as amended).  When no walk over non-Barrier Cells leads from start
    to end, the search returns False with the queue exhausted, and it
    marks no Cell Path: [make_path] is never called, and a Cell that has
    status Path when the search returns had it before the search (none
    has it, on a grid where none had it). *)
Theorem no_path_failure R (g g' : Grid) (start end_ : pos) :
  grid_ok R g -> update_all_neighbors g = Ok g' -> in_bounds R start ->
  ~ connected R g start end_ ->
  (exists fuel st, algorithm fuel g' start end_ = Ok (false, st)) /\
  forall fuel b st, algorithm fuel g' start end_ = Ok (b, st) ->
    b = false /\ open_set st = [] /\
    path_marks (trace (world st)) = [] /\
    forall p, color_at (grid (world st)) p = Some PURPLE ->
              color_at g p = Some PURPLE.
Proof.
  intros Hok Hg' Hs Hno. rewrite (update_all_neighbors_inv R g g' Hok Hg').
  pose proof (derived_ok R g Hok) as Hok'.
  pose proof (fun p q => derived_inside R g p q Hok) as Hnb.
  assert (forall fuel b st,
            algorithm fuel (derived R g) start end_ = Ok (b, st) ->
            b = false /\ open_set st = [] /\
            path_marks (trace (world st)) = [] /\
            forall p, color_at (grid (world st)) p = Some PURPLE ->
                      color_at g p = Some PURPLE) as Hres.
  { intros fuel b st Halg. destruct b.
    - exfalso. apply Hno. apply derived_connected; [done|].
      by eapply (found_connected R (derived R g) start end_ Hok' Hnb Hs).
    - apply (algorithm_result R _ _ _ Hok' Hnb Hs) in Halg
        as (st0 & Hr & [(_ & Hq & ->)|(? & _)]); [|done].
      destruct (reachable_unmarked R _ _ _ Hok' Hnb Hs _ Hr) as [Hu Ht].
      split_and!; try done.
      intros p Hp. rewrite <- (color_at_derived R g Hok). by apply Hu. }
  split; [|done].
  destruct (algorithm_terminates R (derived R g) start end_ Hok' Hnb Hs)
    as (fuel & b & st & H).
  destruct (Hres _ _ _ H) as (-> & _). eauto.
Qed.

(** C2 (as amended).  With start showing Start and end showing End when
    the search begins: whenever the loop tests its condition, and in every
    grid [draw] has rendered until then, start shows Start and end shows
    End or Open (Open from the moment end enters the open set); when the
    search returns, in the final grid and in every grid [draw] has
    rendered, start is neither Open nor Closed and end is End or Open,
    never Closed, and in the final grid end shows End. *)
Theorem start_end_colours R (g g' : Grid) (start end_ : pos) :
  grid_ok R g -> update_all_neighbors g = Ok g' ->
  color_at g start = Some ORANGE -> color_at g end_ = Some TURQUOISE ->
  (forall st, reachable g' start end_ st ->
     Forall (calm start end_)
            (grid (world st) :: snapshots (trace (world st)))) /\
  (forall fuel b st, algorithm fuel g' start end_ = Ok (b, st) ->
     Forall (settled start end_)
            (grid (world st) :: snapshots (trace (world st))) /\
     color_at (grid (world st)) end_ = Some TURQUOISE).
Proof.
  intros Hok Hg' Hcs Hce. rewrite (update_all_neighbors_inv R g g' Hok Hg').
  pose proof (derived_ok R g Hok) as Hok'.
  pose proof (fun p q => derived_inside R g p q Hok) as Hnb.
  pose proof (color_at_in_bounds R g _ _ Hok Hcs) as Hs.
  rewrite <- (color_at_derived R g Hok) in Hcs, Hce.
  split.
  - intros st Hr.
    destruct (reachable_winv R _ _ _ Hok' Hnb Hs st Hcs Hce Hr) as [H1 H2].
    by constructor.
  - intros fuel b st.
    by apply (final_observations R _ _ _ Hok' Hnb Hs).
Qed.

(** C7.  Whenever the loop takes an entry from the open set, the entry
    taken has the least priority; among the entries of that priority it is
    the one that was put first and has the least sequence number; the
    other entries stay, in their order.  Along the queue, which keeps the
    order of the [put]s, sequence numbers increase strictly and none
    exceeds [count], which every [put] first increments. *)
Theorem frontier_order R (g g' : Grid) (start end_ : pos) st m q :
  grid_ok R g -> update_all_neighbors g = Ok g' -> in_bounds R start ->
  reachable g' start end_ st ->
  get (open_set st) = Some (m, q) ->
  (exists i fm,
     open_set st !! i = Some m /\ q = delete i (open_set st) /\
     prio m = Int fm /\
     forall j e, open_set st !! j = Some e -> j <> i ->
       exists fe, prio e = Int fe /\
                  (fm < fe \/ (fm = fe /\ (i < j)%nat /\ seqno m < seqno e))) /\
  StronglySorted Z.lt (seqno <$> open_set st) /\
  Forall (fun e => seqno e <= count st) (open_set st) /\
  forall nb f s, seqno <$> open_set (push_open nb f s)
                 = (seqno <$> open_set s) ++ [count s + 1].
Proof.
  intros Hok Hg' Hs Hr Hget.
  rewrite (update_all_neighbors_inv R g g' Hok Hg') in Hr.
  pose proof (derived_ok R g Hok) as Hok'.
  pose proof (fun p q => derived_inside R g p q Hok) as Hnb.
  pose proof (reachable_inv R _ _ _ Hok' Hnb Hs st Hr) as Hinv.
  split_and!.
  - by apply (get_order R (derived R g) start).
  - apply (inv_sorted _ _ _ _ Hinv).
  - apply (inv_count _ _ _ _ Hinv).
  - intros nb f s. unfold push_open, put. simpl. by rewrite fmap_app.
Qed.

(** C10.  Whenever the loop tests its condition: start has no
    predecessor; a recorded predecessor has a strictly smaller score than
    the Cell it was recorded for, both finite; and from every Cell with a
    predecessor the chain of predecessors repeats no Cell and ends at
    start, so that [reconstruct_path] returns once it has marked it. *)
Theorem came_from_acyclic R (g g' : Grid) (start end_ : pos) st :
  grid_ok R g -> update_all_neighbors g = Ok g' -> in_bounds R start ->
  reachable g' start end_ st ->
  came_from st !! start = None /\
  (forall n c, came_from st !! n = Some c ->
     exists vn vc, g_score st !! n = Some (Int vn) /\
                   g_score st !! c = Some (Int vc) /\ vc < vn) /\
  (forall n, is_Some (came_from st !! n) ->
     exists l, is_chain (came_from st) n l /\
               last l = Some start /\ NoDup (n :: l) /\
               forall w, reconstruct_path (S (length l)) (came_from st) n w
                         = Ok (mark_chain l w)).
Proof.
  intros Hok Hg' Hs Hr.
  rewrite (update_all_neighbors_inv R g g' Hok Hg') in Hr.
  pose proof (derived_ok R g Hok) as Hok'.
  pose proof (fun p q => derived_inside R g p q Hok) as Hnb.
  apply (came_from_sound R (derived R g) start); try done.
  by apply (reachable_inv R _ _ end_ Hok' Hnb Hs).
Qed.

Lemma reachable_after (g : Grid) (start end_ : pos) n st :
  reachable g start end_ st -> reachable g start end_ (after n start end_ st).
Proof.
  revert st. induction n as [|n IH]; intros st Hr; [done|]. simpl.
  destruct (iteration 0 start end_ st) as [[st'|b st']| |] eqn:E; try done.
  apply IH. by eapply reachable_next.
Qed.

(** * Manhattan distance *)

Lemma elem_of_around p q :
  q ∈ around p <->
  q = (p.1 + 1, p.2) \/ q = (p.1 - 1, p.2) \/
  q = (p.1, p.2 + 1) \/ q = (p.1, p.2 - 1).
Proof.
  unfold around. rewrite !elem_of_cons, elem_of_nil. tauto.
Qed.

Lemma around_sym p q : q ∈ around p -> p ∈ around q.
Proof.
  rewrite !elem_of_around. destruct p as [pr pc], q as [qr qc]. simpl.
  intros [E|[E|[E|E]]]; injection E as -> ->.
  - right; left. f_equal; lia.
  - left. f_equal; lia.
  - right; right; right. f_equal; lia.
  - right; right; left. f_equal; lia.
Qed.

Lemma h_around_r t p q :
  q ∈ around p -> h t q = h t p + 1 \/ h t q = h t p - 1.
Proof.
  rewrite elem_of_around. destruct t as [tr tc], p as [pr pc], q as [qr qc].
  simpl. intros [E|[E|[E|E]]]; injection E as -> ->; lia.
Qed.

Lemma h_around_l t p q :
  q ∈ around p -> h q t = h p t + 1 \/ h q t = h p t - 1.
Proof.
  rewrite elem_of_around. destruct t as [tr tc], p as [pr pc], q as [qr qc].
  simpl. intros [E|[E|[E|E]]]; injection E as -> ->; lia.
Qed.

Lemma h_triangle a b c : h a c <= h a b + h b c.
Proof. destruct a, b, c. simpl. lia. Qed.

Lemma h_nonneg a b : 0 <= h a b.
Proof. destruct a, b. simpl. lia. Qed.

Lemma h_zero a b : h a b = 0 <-> a = b.
Proof.
  destruct a as [ar ac], b as [br bc]. simpl. split.
  - intros H. f_equal; lia.
  - intros [= -> ->]. lia.
Qed.

(** A cell on a shortest way from [s] to [e] lies inside every square
    that holds both. *)
Lemma between_in_bounds R s e p :
  in_bounds R s -> in_bounds R e -> h s p + h p e = h s e -> in_bounds R p.
Proof.
  unfold in_bounds. destruct s as [sr sc], e as [er ec], p as [pr pc].
  simpl. lia.
Qed.

(** Such a cell, unless it is [s], has a neighbor one step nearer to [s],
    again on a shortest way. *)
Lemma between_back s e p :
  p <> s -> h s p + h p e = h s e ->
  exists q, q ∈ around p /\ h s q = h s p - 1 /\ h s q + h q e = h s e.
Proof.
  destruct s as [sr sc], e as [er ec], p as [pr pc]. intros Hne Hb.
  simpl in Hb.
  destruct (Z.lt_trichotomy pr sr) as [Hr|[Hr|Hr]].
  - exists (pr + 1, pc). rewrite elem_of_around. simpl.
    split; [by left|]. lia.
  - destruct (Z.lt_trichotomy pc sc) as [Hc|[Hc|Hc]].
    + exists (pr, pc + 1). rewrite elem_of_around. simpl.
      split; [by right; right; left|]. lia.
    + congruence.
    + exists (pr, pc - 1). rewrite elem_of_around. simpl.
      split; [by right; right; right|]. lia.
  - exists (pr - 1, pc). rewrite elem_of_around. simpl.
    split; [by right; left|]. lia.
Qed.

(** * Two runs on grids with the same barriers *)

Lemma open_closed_cons ev tr :
  open_closed (ev :: tr)
  = open_closed tr ++ match ev with
                      | MakeOpen _ | MakeClosed _ => [ev]
                      | _ => []
                      end.
Proof.
  unfold open_closed. simpl. destruct ev; simpl; by rewrite ?app_nil_r.
Qed.

Lemma wsim_draw w1 w2 : wsim w1 w2 -> wsim (draw w1) (draw w2).
Proof.
  intros (Hn & Ho & Hp). split_and!; simpl; [done| |].
  - by rewrite !open_closed_cons, Ho.
  - by rewrite !path_marks_cons, Hp.
Qed.

Lemma wsim_mutate c ev p w1 w2 :
  wsim w1 w2 ->
  wsim (mutate (set_color c) ev p w1) (mutate (set_color c) ev p w2).
Proof.
  intros (Hn & Ho & Hp). split_and!; simpl.
  - intros q. by rewrite !neighbors_of_update_color.
  - by rewrite !open_closed_cons, Ho.
  - by rewrite !path_marks_cons, Hp.
Qed.

Lemma sim_relax end_ cur nb s1 s2 s1' :
  sim s1 s2 -> relax end_ cur nb s1 = Ok s1' ->
  exists s2', relax end_ cur nb s2 = Ok s2' /\ sim s1' s2'.
Proof.
  intros Hs. pose proof Hs as (Hc & Hq & Hcf & Hg & Hf & Hh & Hw).
  unfold relax. rewrite <- Hg.
  destruct (dict_get (g_score s1) cur) as [gc| |]; try done.
  cbn [bind]. destruct (dict_get (g_score s1) nb) as [gn| |]; try done.
  cbn [bind]. destruct (num_ltb (num_add gc (Int 1)) gn).
  - cbn zeta.
    change (open_set_hash (record_better cur nb ?t ?f s1))
      with (open_set_hash s1).
    change (open_set_hash (record_better cur nb ?t ?f s2))
      with (open_set_hash s2).
    rewrite <- Hh. case_bool_decide; intros [= <-]; eexists; (split; [done|]).
    + unfold sim. simpl. by rewrite Hc, Hq, Hcf, Hg, Hf, Hh.
    + unfold sim. simpl. rewrite Hc, Hq, Hcf, Hg, Hf, Hh.
      split_and!; try done. by apply wsim_mutate.
  - intros [= <-]. eexists. split; [done|]. exact Hs.
Qed.

Lemma sim_relax_all end_ cur l s1 s2 s1' :
  sim s1 s2 -> foldM (relax end_ cur) l s1 = Ok s1' ->
  exists s2', foldM (relax end_ cur) l s2 = Ok s2' /\ sim s1' s2'.
Proof.
  revert s1 s2. induction l as [|nb l IH]; intros s1 s2 Hs; simpl.
  - intros [= <-]. eauto.
  - intros (t1 & Hr & Hf)%bind_Ok.
    destruct (sim_relax _ _ _ _ _ _ Hs Hr) as (t2 & -> & Ht). simpl. eauto.
Qed.

Lemma wsim_reconstruct_path fuel cf p w1 w2 w1' :
  wsim w1 w2 -> reconstruct_path fuel cf p w1 = Ok w1' ->
  exists w2', reconstruct_path fuel cf p w2 = Ok w2' /\ wsim w1' w2'.
Proof.
  revert p w1 w2. induction fuel as [|fuel IH]; intros p w1 w2 Hw; [done|].
  simpl. destruct (cf !! p) as [c|].
  - apply IH. by apply wsim_draw, wsim_mutate.
  - intros [= <-]. eauto.
Qed.

(** Related states make the same pass through the loop. *)
Lemma sim_iteration fuel start end_ s1 s2 r1 :
  sim s1 s2 -> iteration fuel start end_ s1 = Ok r1 ->
  exists r2, iteration fuel start end_ s2 = Ok r2 /\
    match r1, r2 with
    | Continue t1, Continue t2 => sim t1 t2
    | Return b1 t1, Return b2 t2 => b1 = b2 /\ sim t1 t2
    | _, _ => False
    end.
Proof.
  intros Hs. pose proof Hs as (Hc & Hq & Hcf & Hg & Hf & Hh & Hw).
  unfold iteration. rewrite <- Hq, <- Hh.
  destruct (get (open_set s1)) as [[[[f c] cur] q]|].
  - case_bool_decide; [|done].
    assert (sim (remove_current cur q s1) (remove_current cur q s2)) as Hs'.
    { unfold sim. simpl. by rewrite Hc, Hcf, Hg, Hf, Hh. }
    case_bool_decide.
    + cbn zeta. intros (w1 & Hrec & [= <-])%bind_Ok.
      change (came_from (remove_current cur q s2)) with (came_from s2).
      change (came_from (remove_current cur q s1)) with (came_from s1) in Hrec.
      change (world (remove_current cur q s1)) with (world s1) in Hrec.
      change (world (remove_current cur q s2)) with (world s2).
      rewrite <- Hcf.
      destruct (wsim_reconstruct_path _ _ _ _ (world s2) _ Hw Hrec)
        as (w2 & -> & Hw'). simpl. eexists. split; [done|].
      split; [done|]. unfold sim. simpl. rewrite Hc, Hcf, Hg, Hf, Hh.
      split_and!; try done. by apply wsim_mutate.
    + cbn zeta. intros (t1 & Hfold & [= <-])%bind_Ok.
      change (grid (world (remove_current cur q s1)))
        with (grid (world s1)) in Hfold.
      change (grid (world (remove_current cur q s2))) with (grid (world s2)).
      destruct Hw as (Hn & _). rewrite <- Hn.
      destruct (sim_relax_all _ _ _ _ _ _ Hs' Hfold) as (t2 & -> & Ht).
      simpl. eexists. split; [done|].
      destruct Ht as (Hc' & Hq' & Hcf' & Hg' & Hf' & Hh' & Hw').
      case_bool_decide; unfold sim; simpl;
        rewrite Hc', Hq', Hcf', Hg', Hf', Hh'; split_and!;
        first [done | by apply wsim_mutate, wsim_draw | by apply wsim_draw].
  - intros [= <-]. eexists. split; [done|]. done.
Qed.

Lemma sim_while_open_set fuel start end_ s1 s2 b1 t1 :
  sim s1 s2 -> while_open_set fuel start end_ s1 = Ok (b1, t1) ->
  exists t2, while_open_set fuel start end_ s2 = Ok (b1, t2) /\ sim t1 t2.
Proof.
  revert s1 s2. induction fuel as [|fuel IH]; intros s1 s2 Hs; [done|].
  simpl. intros (r1 & Hit & H)%bind_Ok.
  destruct (sim_iteration _ _ _ _ _ _ Hs Hit) as (r2 & -> & Hr). simpl.
  destruct r1 as [u1|c1 u1], r2 as [u2|c2 u2]; try done.
  - by apply (IH u1).
  - destruct Hr as [<- Hr]. injection H as <- <-. eauto.
Qed.

Lemma same_barriers_same_neighbors R (g1 g2 : Grid) :
  grid_ok R g1 -> grid_ok R g2 ->
  (forall p, is_barrier_at g1 p <-> is_barrier_at g2 p) ->
  forall p, neighbors_of (derived R g1) p = neighbors_of (derived R g2) p.
Proof.
  intros H1 H2 Hb p. unfold neighbors_of.
  rewrite (node_at_derived R g1 H1), (node_at_derived R g2 H2).
  destruct (node_at g1 p) as [n1|] eqn:E1.
  - apply (node_at_inv R g1 H1) in E1 as (Hp & _).
    destruct (node_at_bounds R g2 H2 p Hp) as (n2 & -> & _). simpl.
    unfold expected_neighbors. apply List.filter_ext_in. intros q _.
    destruct (inside R q) eqn:Hq; [|done]. simpl.
    apply inside_spec in Hq. apply Bool.eq_iff_eq_true.
    rewrite !free_spec, Hb.
    destruct (node_at_bounds R g1 H1 q Hq) as (m1 & -> & _).
    destruct (node_at_bounds R g2 H2 q Hq) as (m2 & -> & _).
    split; intros [_ ?]; eauto.
  - destruct (node_at g2 p) as [n2|] eqn:E2; [|done].
    apply (node_at_inv R g2 H2) in E2 as (Hp & _).
    destruct (node_at_bounds R g1 H1 p Hp) as (? & ? & _). congruence.
Qed.

(** C6.  Two searches on grids of the same size with the same Barrier
    placement (whatever the other colours), adjacency derived, with the
    same start and end, return the same answer, open and close the same
    Cells in the same order and mark the same path; the fuel given to the
    model does not matter. *)
Theorem search_deterministic R (g1 g2 g1' g2' : Grid) (start end_ : pos)
    fuel1 fuel2 b1 st1 b2 st2 :
  grid_ok R g1 -> grid_ok R g2 ->
  (forall p, is_barrier_at g1 p <-> is_barrier_at g2 p) ->
  update_all_neighbors g1 = Ok g1' -> update_all_neighbors g2 = Ok g2' ->
  algorithm fuel1 g1' start end_ = Ok (b1, st1) ->
  algorithm fuel2 g2' start end_ = Ok (b2, st2) ->
  b1 = b2 /\
  open_closed (trace (world st1)) = open_closed (trace (world st2)) /\
  path_marks (trace (world st1)) = path_marks (trace (world st2)).
Proof.
  intros H1 H2 Hb Hg1 Hg2 Ha1 Ha2.
  rewrite (update_all_neighbors_inv R g1 g1' H1 Hg1) in Ha1.
  rewrite (update_all_neighbors_inv R g2 g2' H2 Hg2) in Ha2.
  assert (sim (init (derived R g1) start end_) (init (derived R g2) start end_))
    as Hs.
  { assert (all_inf (derived R g1) = all_inf (derived R g2)) as Hall.
    { apply map_eq. intros p.
      rewrite (all_inf_lookup R _ p (derived_ok R g1 H1)).
      by rewrite (all_inf_lookup R _ p (derived_ok R g2 H2)). }
    unfold sim, init. simpl. rewrite Hall. split_and!; try done.
    split_and!; simpl; [|done|done].
    by apply same_barriers_same_neighbors. }
  unfold algorithm in Ha1, Ha2.
  destruct (sim_while_open_set _ _ _ _ _ _ _ Hs Ha1) as (t2 & Ha2' & Ht).
  pose proof (while_open_set_agree _ _ _ _ _ _ _ Ha2 Ha2') as [= -> ->].
  split; [done|]. by destruct Ht as (_ & _ & _ & _ & _ & _ & _ & ? & ?).
Qed.

(** * The search on a grid without barriers

    On a grid without barriers the search behaves as a breadth-first
    search of the rectangle spanned by start and end: every cell on a
    shortest way from start to end gets priority [h start end], the cells
    outside get more, so that the cells of the rectangle leave the queue
    first, in the order of their distance from start, each with its exact
    distance as score. *)

Section Empty.
Context (R : Z) (g0 : Grid) (start end_ : pos).
Context (Hok : grid_ok R g0).
Context (Hadj : forall p q,
           q ∈ neighbors_of g0 p <->
           in_bounds R p /\ q ∈ around p /\ in_bounds R q).
Context (Hstart : in_bounds R start) (Hend : in_bounds R end_).
Context (Hne : start <> end_).

Lemma empty_inside p q : q ∈ neighbors_of g0 p -> in_bounds R q.
Proof. by intros (_ & _ & ?)%Hadj. Qed.

Lemma on_way_in_bounds p : on_way start end_ p -> in_bounds R p.
Proof. by apply between_in_bounds. Qed.

Lemma on_way_start : on_way start end_ start.
Proof.
  unfold on_way. pose proof (proj2 (h_zero start start) eq_refl). lia.
Qed.

Lemma on_way_waits p : on_way start end_ p ->
  waits_at start end_ p <= h start end_.
Proof.
  unfold on_way, waits_at. intros H. case_decide; [apply h_nonneg|lia].
Qed.

Lemma off_way_waits p : ~ on_way start end_ p ->
  h start end_ < waits_at start end_ p.
Proof.
  unfold on_way, waits_at. intros H. case_decide as E.
  - subst. by destruct H; apply on_way_start.
  - pose proof (h_triangle start p end_). lia.
Qed.

Lemma waits_lt_start p :
  on_way start end_ p -> waits_at start end_ p < h start end_ -> p = start.
Proof.
  unfold on_way, waits_at. intros H. case_decide; [done|lia].
Qed.

Lemma finv_init : finv g0 start end_ 0 None (init g0 start end_).
Proof.
  assert (forall p v, <[start:=Int 0]> (all_inf g0) !! p = Some (Int v) ->
            p = start /\ v = 0) as Hfin.
  { intros p v. destruct (decide (p = start)) as [->|Hp].
    - rewrite lookup_insert_eq. by intros [= <-].
    - rewrite lookup_insert_ne by done. rewrite (all_inf_lookup R) by done.
      by case_decide. }
  split; simpl.
  - done.
  - intros p v (-> & ->)%Hfin. symmetry. by apply h_zero.
  - intros e ->%list_elem_of_singleton. unfold prio, node, waits_at. simpl.
    by rewrite decide_True.
  - intros e ->%list_elem_of_singleton _. left. unfold node. simpl.
    by apply h_zero.
  - intros e1 e2 ->%list_elem_of_singleton ->%list_elem_of_singleton.
    unfold node. simpl. lia.
  - intros p _ Hlt. pose proof (h_nonneg start p). lia.
  - intros p _ Hp. apply h_zero in Hp as <-. exists 0.
    by rewrite lookup_insert_eq.
  - intros p _ _ [v (-> & _)%Hfin] Hnot. exfalso. apply Hnot.
    by apply elem_of_singleton.
  - right. rewrite lookup_insert_ne by done.
    rewrite (all_inf_lookup R) by done. by rewrite decide_True.
  - intros n c. by rewrite lookup_empty.
Qed.


#[local] Instance on_way_dec p : Decision (on_way start end_ p).
Proof. unfold on_way. apply _. Defined.

Lemma on_way_end : on_way start end_ end_.
Proof.
  unfold on_way. pose proof (proj2 (h_zero end_ end_) eq_refl). lia.
Qed.

Lemma finv_bound d s : finv g0 start end_ d None s -> d <= h start end_.
Proof.
  intros Hf. destruct (decide (d <= h start end_)) as [|Hgt]; [done|].
  exfalso. destruct (f_closed _ _ _ _ _ _ Hf end_ on_way_end ltac:(lia))
    as [[v Hv] Hnot].
  destruct (f_end _ _ _ _ _ _ Hf) as [?|Hinf]; [done|congruence].
Qed.

(** When no cell at distance [d] waits any more, the invariant holds at
    level [d + 1]. *)
Lemma finv_advance d s :
  inv R g0 start s -> finv g0 start end_ d None s ->
    ~ level_waits start end_ d s ->
  finv g0 start end_ (d + 1) None s.
Proof.
  intros Hinv Hf Hno.
  assert (forall e, e ∈ open_set s -> on_way start end_ (node e) ->
            h start (node e) = d + 1) as Hlev.
  { intros e He Hw.
  destruct (f_level _ _ _ _ _ _ Hf e He Hw) as [Hd|Hd]; [|done].
    destruct Hno. apply Exists_exists. eauto. }
  assert (forall p, on_way start end_ p -> h start p < d + 1 ->
            (exists v, g_score s !! p = Some (Int v)) /\ p ∉ open_set_hash s)
    as Hclosed.
  { intros p Hw Hlt. destruct (decide (h start p < d)) as [Hd|Hd].
    - by apply (f_closed _ _ _ _ _ _ Hf).
    - assert (h start p = d) as Hpd by lia.
      split; [by apply (f_disc _ _ _ _ _ _ Hf)|].
      intros Hin. apply (inv_hash _ _ _ _ Hinv) in Hin.
      apply list_elem_of_fmap in Hin as (e & -> & He).
      apply Hno, Exists_exists. eauto. }
  pose proof (f_nonneg _ _ _ _ _ _ Hf) as Hd0.
  split.
  - lia.
  - apply (f_exact _ _ _ _ _ _ Hf).
  - apply (f_prio _ _ _ _ _ _ Hf).
  - intros e He Hw. left. by apply Hlev.
  - intros e1 e2 He1 He2 Hw1 Hw2 H1 H2. pose proof (Hlev e2 He2 Hw2). lia.
  - exact Hclosed.
  - intros p Hw Hp.
    assert (p <> start) as Hps.
    { intros ->. rewrite (proj2 (h_zero start start) eq_refl) in Hp. lia. }
    destruct (between_back start end_ p Hps Hw) as (q & Hq & Hqd & Hqw).
    destruct (Hclosed q Hqw ltac:(lia)) as [Hfin Hnot].
    apply (f_full _ _ _ _ _ _ Hf q Hqw ltac:(done) Hfin Hnot).
    apply Hadj. split_and!.
    + by apply on_way_in_bounds.
    + by apply around_sym.
    + by apply on_way_in_bounds.
  - apply (f_full _ _ _ _ _ _ Hf).
  - apply (f_end _ _ _ _ _ _ Hf).
  - apply (f_cf _ _ _ _ _ _ Hf).
Qed.

Lemma find_level d s :
  inv R g0 start s -> finv g0 start end_ d None s ->
  exists d', finv g0 start end_ d' None s /\ level_waits start end_ d' s.
Proof.
  intros Hinv. remember (Z.to_nat (h start end_ + 1 - d)) as n eqn:Hn.
  revert d Hn. induction n as [|n IH]; intros d Hn Hf.
  - pose proof (finv_bound d s Hf). lia.
  - destruct (decide (level_waits start end_ d s)) as [Hw|Hw]; [eauto|].
    apply (IH (d + 1)); [lia|]. by apply finv_advance.
Qed.

(** The entry the queue gives back is a cell of the rectangle at the
    current level. *)
Lemma pop_level d s m q :
  inv R g0 start s -> finv g0 start end_ d None s ->
    level_waits start end_ d s ->
  get (open_set s) = Some (m, q) ->
  on_way start end_ (node m) /\ h start (node m) = d.
Proof.
  intros Hinv Hf Hw (l1 & l2 & Hq & _ & Hle)%get_split.
  apply Exists_exists in Hw as (e & He & Hew & Hed).
  assert (m ∈ open_set s) as Hm.
  { rewrite Hq, elem_of_app, elem_of_cons. right. by left. }
  pose proof (f_prio _ _ _ _ _ _ Hf e He) as Hpe.
  pose proof (f_prio _ _ _ _ _ _ Hf m Hm) as Hpm.
  pose proof (Hle e He) as Hlt.
  pose proof (on_way_waits _ Hew) as Hwe.
  destruct m as [[pm cm] nm], e as [[pe ce] ne].
  unfold prio, node in *. simpl in *. subst pm pe.
  assert (waits_at start end_ nm <= waits_at start end_ ne /\
          (waits_at start end_ nm = waits_at start end_ ne ->
            cm <= ce)) as [Hle1 Hle2].
  { simpl in Hlt. cmp_cases; simpl in Hlt; try done; lia. }
  assert (on_way start end_ nm) as Hmw.
  { destruct (decide (on_way start end_ nm)) as [|Hoff]; [done|].
    pose proof (off_way_waits _ Hoff). lia. }
  split; [done|].
  destruct (f_level _ _ _ _ _ _ Hf _ Hm Hmw) as [Hd|Hd]; [done|]. exfalso.
  pose proof (f_order _ _ _ _ _ _ Hf _ _ He Hm Hew Hmw Hed Hd) as Hseq.
  unfold seqno in Hseq. simpl in Hseq.
  assert (waits_at start end_ nm < h start end_) as Hlow by lia.
  apply (waits_lt_start _ Hmw) in Hlow. subst nm. unfold node in Hd.
  simpl in Hd. rewrite (proj2 (h_zero start start) eq_refl) in Hd.
  pose proof (f_nonneg _ _ _ _ _ _ Hf). lia.
Qed.

Lemma finv_remove_current d s f c cur q :
  finv g0 start end_ d None s -> get (open_set s) = Some ((f, c, cur), q) ->
  cur <> end_ -> finv g0 start end_ d (Some cur) (remove_current cur q s).
Proof.
  intros Hf (l1 & l2 & Hq & -> & _)%get_split Hce.
  assert (forall e, e ∈ l1 ++ l2 -> e ∈ open_set s) as Hsub.
  { intros e. rewrite Hq, !elem_of_app, elem_of_cons. tauto. }
  destruct Hf. split; simpl; try done.
  - intros e He. by apply f_prio0, Hsub.
  - intros e He. by apply f_level0, Hsub.
  - intros e1 e2 He1 He2. apply f_order0; by apply Hsub.
  - intros p Hw Hlt. destruct (f_closed0 p Hw Hlt) as [? Hnot].
    split; [done|]. rewrite elem_of_difference. tauto.
  - intros p Hw Hp Hfin Hnot. apply f_full0; try done.
    rewrite elem_of_difference, elem_of_singleton in Hnot.
    intros Hin. apply Hnot. split; [done|]. congruence.
  - destruct f_end0 as [Hin|?]; [left|by right].
    rewrite elem_of_difference, elem_of_singleton. split; [done|congruence].
Qed.


Lemma finite_relax_all cur v l s s' p :
  inv R g0 start s -> g_score s !! cur = Some (Int v) ->
  Forall (edge g0 cur) l ->
  foldM (relax end_ cur) l s = Ok s' ->
  (exists w, g_score s !! p = Some (Int w)) ->
  exists w, g_score s' !! p = Some (Int w).
Proof.
  intros Hinv Hc Hl Hfold Hp.
  apply (relax_all_ind R g0 start end_ empty_inside
           (fun s => exists w, g_score s !! p = Some (Int w))
           cur v l s s' Hinv Hc Hl); [|done|done].
  intros s0 nb gn _ _ _ _ _ [w Hw] f s1.
  assert (exists w', g_score s1 !! p = Some (Int w')) as H1.
  { subst s1. simpl. destruct (decide (nb = p)) as [->|Hnp].
    - rewrite lookup_insert_eq. eauto.
    - rewrite lookup_insert_ne by done. eauto. }
  split; intros _; exact H1.
Qed.

(** When the [for] loop is over, every neighbor has a finite score. *)
Lemma relax_all_discovers cur v l s s' :
  inv R g0 start s -> g_score s !! cur = Some (Int v) ->
  Forall (edge g0 cur) l ->
  foldM (relax end_ cur) l s = Ok s' ->
  forall nb, nb ∈ l -> exists w, g_score s' !! nb = Some (Int w).
Proof.
  revert s. induction l as [|a l IH]; intros s Hinv Hc Hl Hfold nb Hnb.
  { by apply elem_of_nil in Hnb. }
  apply Forall_cons in Hl as [Ha Hl]. simpl in Hfold.
  apply bind_Ok in Hfold as (s1 & Hr & Hfold).
  destruct (inv_relax R g0 start end_ empty_inside s cur a v Hinv Hc Ha)
    as (s1' & Hr' & Hinv1 & Hc1).
  rewrite Hr in Hr'. injection Hr' as <-.
  apply elem_of_cons in Hnb as [->|Hnb]; [|by apply (IH s1)].
  apply (finite_relax_all cur v l s1 s'); try done.
  assert (is_Some (g_score s !! a)) as [gn Hn].
  { apply (inv_keys _ _ _ _ Hinv). by eapply empty_inside. }
  rewrite (relax_cases end_ _ _ _ _ _ Hc Hn) in Hr.
  destruct (num_ltb (Int (v + 1)) gn) eqn:Hlt.
  - cbn zeta in Hr. case_bool_decide; injection Hr as <-; simpl;
      rewrite lookup_insert_eq; eauto.
  - injection Hr as <-. destruct gn as [w|]; [eauto|done].
Qed.

Lemma finv_relax_all d cur l s s' :
  inv R g0 start s -> finv g0 start end_ d (Some cur) s ->
  on_way start end_ cur -> h start cur = d ->
  g_score s !! cur = Some (Int d) ->
  Forall (edge g0 cur) l ->
  foldM (relax end_ cur) l s = Ok s' ->
  finv g0 start end_ d (Some cur) s'.
Proof.
  intros Hinv Hf Hcw Hcd Hc Hl Hfold.
  apply (relax_all_ind R g0 start end_ empty_inside
           (finv g0 start end_ d (Some cur))
           cur d l s s' Hinv Hc Hl); [|done|done].
  clear s s' Hinv Hf Hc Hfold.
  intros s nb gn Hinv Hc He Hn Hlt Hf f s1.
  apply Hadj in He as (Hcb & Har & Hnbb).
  assert (gn = Inf) as ->.
  { destruct gn as [w|]; [|done]. exfalso.
    pose proof (f_exact _ _ _ _ _ _ Hf _ _ Hn) as ->.
    destruct (h_around_r start cur nb Har); simpl in Hlt; cmp_cases;
      try done; lia. }
  assert (nb ∉ open_set_hash s) as Hnot.
  { intros Hin. apply (inv_hash _ _ _ _ Hinv) in Hin.
    apply list_elem_of_fmap in Hin as (e & -> & He).
    pose proof (inv_fin _ _ _ _ Hinv) as Hfin. rewrite Forall_forall in Hfin.
    destruct (Hfin e He) as [_ [w Hw]]. congruence. }
  split; [done|]. intros _.
  assert (h start nb = d + 1) as Hnd.
  { destruct (h_around_r start cur nb Har) as [?|Hback]; [lia|]. exfalso.
    assert (on_way start end_ nb) as Hnw.
    { unfold on_way in *. pose proof (h_triangle start nb end_).
      destruct (h_around_l end_ cur nb Har); lia. }
    destruct (f_closed _ _ _ _ _ _ Hf nb Hnw ltac:(lia)) as [[w Hw] _].
    congruence. }
  pose proof (f_nonneg _ _ _ _ _ _ Hf) as Hd0.
  assert (nb <> start) as Hns.
  { intros ->. rewrite (proj2 (h_zero start start) eq_refl) in Hnd. lia. }
  assert (forall p, (exists w, g_score s !! p = Some (Int w)) ->
            exists w, <[nb:=Int (d + 1)]> (g_score s) !! p = Some (Int w))
    as Hmono.
  { intros p [w Hw]. destruct (decide (nb = p)) as [->|Hnp].
    - rewrite lookup_insert_eq. eauto.
    - rewrite lookup_insert_ne by done. eauto. }
  assert (forall e, e ∈ put (f, count s + 1, nb) (open_set s) ->
            e ∈ open_set s \/ e = (f, count s + 1, nb)) as Hput.
  { intros e. unfold put. rewrite elem_of_app, list_elem_of_singleton. tauto. }
  pose proof (inv_count _ _ _ _ Hinv) as Hcount.
  rewrite Forall_forall in Hcount.
  destruct Hf. subst s1. split; simpl.
  - done.
  - intros p v. destruct (decide (nb = p)) as [<-|Hnp].
    + rewrite lookup_insert_eq. intros [= <-]. lia.
    + rewrite lookup_insert_ne by done. apply f_exact0.
  - intros e [He| ->]%Hput; [by apply f_prio0|].
    unfold prio, node, waits_at. simpl. rewrite decide_False by done.
    subst f. f_equal. lia.
  - intros e [He| ->]%Hput; [by apply f_level0|].
    unfold node. simpl. intros _. by right.
  - intros e1 e2 [He1| ->]%Hput [He2| ->]%Hput.
    + by apply f_order0.
    + intros _ _ _ _. specialize (Hcount _ He1). unfold seqno at 2. simpl. lia.
    + unfold node at 1 3. simpl. lia.
    + unfold node. simpl. lia.
  - intros p Hw Hlt'. destruct (f_closed0 p Hw Hlt') as [Hfin Hnp].
    split; [by apply Hmono|].
    rewrite elem_of_union, elem_of_singleton. intros [->|?]; [lia|done].
  - intros p Hw Hp. by apply Hmono, f_disc0.
  - intros p Hw Hp [w Hfin] Hnp q Hq.
    rewrite elem_of_union, elem_of_singleton in Hnp.
    assert (p <> nb) as Hpn by tauto.
    rewrite lookup_insert_ne in Hfin by done.
    apply Hmono. apply (f_full0 p); eauto.
  - destruct (decide (end_ = nb)) as [->|Hen].
    + left. rewrite elem_of_union, elem_of_singleton. by left.
    + destruct f_end0 as [Hin|Hinf].
      * left. rewrite elem_of_union. by right.
      * right. by rewrite lookup_insert_ne.
  - intros n c. destruct (decide (nb = n)) as [<-|Hnn].
    + rewrite lookup_insert_eq. intros [= <-]. split; [|lia].
      by apply Hadj.
    + rewrite lookup_insert_ne by done. apply f_cf0.
Qed.


Lemma finv_close_current d ex cur s :
  finv g0 start end_ d ex s ->
    finv g0 start end_ d ex (close_current start cur s).
Proof.
  intros [ ]. unfold close_current. case_bool_decide; by split.
Qed.

Lemma finv_iteration fuel d s s' :
  inv R g0 start s -> finv g0 start end_ d None s ->
  iteration fuel start end_ s = Ok (Continue s') ->
  exists d', finv g0 start end_ d' None s'.
Proof.
  intros Hinv Hf (f & c & cur & q & s1 & Hget & Hin & Hce & Hfold & ->)
    %iteration_Continue.
  destruct (find_level d s Hinv Hf) as (d' & Hf' & Hw).
  destruct (pop_level d' s _ _ Hinv Hf' Hw Hget) as [Hcw Hcd].
  unfold node in Hcw, Hcd. simpl in Hcw, Hcd.
  destruct (inv_remove_current R g0 start end_ s f c cur q Hinv Hget)
    as (_ & Hinv1 & [v Hv] & _).
  pose proof (f_exact _ _ _ _ _ _ Hf' _ _ Hv) as Hvd. rewrite Hcd in Hvd.
  subst v.
  pose proof (finv_remove_current d' s f c cur q Hf' Hget Hce) as Hf1.
  assert (Forall (edge g0 cur) (neighbors_of (grid (world s)) cur)) as Hl.
  { apply Forall_forall. intros nb. by rewrite (inv_frame _ _ _ _ Hinv). }
  pose proof (finv_relax_all d' cur _ _ _ Hinv1 Hf1 Hcw Hcd Hv Hl Hfold)
    as Hf2.
  pose proof (relax_all_discovers cur d' _ _ _ Hinv1 Hv Hl Hfold) as Hdisc.
  exists d'. apply finv_close_current.
  destruct Hf2. split; try done.
  intros p Hw' _ Hfin Hnot x Hx.
  destruct (decide (p = cur)) as [->|Hpc].
  - apply Hdisc. by rewrite (inv_frame _ _ _ _ Hinv).
  - apply (f_full0 p); try done. congruence.
Qed.

Lemma reachable_finv s :
  reachable g0 start end_ s -> exists d, finv g0 start end_ d None s.
Proof.
  induction 1 as [|fuel s s' Hr [d IH] Hit].
  - exists 0. apply finv_init.
  - eapply finv_iteration; [|exact IH|exact Hit].
    by apply (reachable_inv R g0 start end_ Hok empty_inside Hstart).
Qed.

Lemma chain_steps_back (Rel : pos -> pos -> Prop) cf p l :
  is_chain cf p l ->
  (forall n c, cf !! n = Some c -> Rel c n) ->
  steps_back Rel (p :: l).
Proof.
  intros Hch Hrel. induction Hch as [p Hp|p c l Hp Hch IH].
  - intros i a c Ha Hc. destruct i; done.
  - intros [|i] a c' Ha Hc'.
    + injection Ha as <-. injection Hc' as <-. by apply Hrel.
    + by apply (IH i).
Qed.

Lemma chain_length cf p l :
  is_chain cf p l ->
  (forall n c, cf !! n = Some c -> h start c = h start n - 1) ->
  last (p :: l) = Some start ->
  Z.of_nat (length l) = h start p.
Proof.
  intros Hch Hrel. induction Hch as [p Hp|p c l Hp Hch IH].
  - simpl. intros [= ->]. symmetry. by apply h_zero.
  - rewrite last_cons_cons. intros Hlast.
    specialize (IH Hlast). rewrite (Hrel _ _ Hp) in IH.
    simpl length. lia.
Qed.

(** On a grid without barriers the search succeeds; the cells it marks,
    from end back to start, are as many as the Manhattan distance from
    start to end, each a neighbor of the one marked next, and the last one
    is start. *)
Lemma empty_result fuel b st' :
  algorithm fuel g0 start end_ = Ok (b, st') ->
  b = true /\
  Z.of_nat (length (path_marks (trace (world st')))) = h start end_ /\
  last (path_marks (trace (world st'))) = Some start /\
  NoDup (end_ :: path_marks (trace (world st'))) /\
  steps_back (fun c a => a ∈ neighbors_of g0 c)
             (end_ :: path_marks (trace (world st'))).
Proof.
  intros Halg.
  assert (b = true) as ->.
  { destruct b; [done|]. exfalso.
    apply (algorithm_result R g0 start end_ Hok empty_inside Hstart) in Halg
      as (s & Hr & [(_ & Hq & _)|(? & _)]); [|done].
    destruct (reachable_finv s Hr) as [d Hf].
    pose proof (reachable_inv R g0 start end_ Hok empty_inside Hstart s Hr)
      as Hinv.
    destruct (find_level d s Hinv Hf) as (d' & _ & Hw).
    unfold level_waits in Hw. rewrite Hq in Hw. by apply Exists_nil in Hw. }
  split; [done|].
  destruct (success_marks R g0 start end_ Hok empty_inside Hstart _ _ Halg)
    as (s & l & v & Hr & Hch & Hv & Hlen & -> & Hlast & Hel & _).
  destruct (reachable_finv s Hr) as [d Hf].
  pose proof (reachable_inv R g0 start end_ Hok empty_inside Hstart s Hr)
    as Hinv.
  split_and!.
  - apply (chain_length _ _ _ Hch); [|done].
    intros n c Hc. by apply (f_cf _ _ _ _ _ _ Hf).
  - destruct l as [|c l]; [simpl in Hlast; congruence|].
    by rewrite last_cons_cons in Hlast.
  - destruct (came_from_sound R g0 start s Hinv) as (_ & _ & Hchains).
    destruct (decide (is_Some (came_from s !! end_))) as [Hs|Hs].
    + destruct (Hchains end_ Hs) as (l' & Hch' & _ & Hnd & _).
      by rewrite (chain_unique _ _ _ _ Hch Hch').
    + inversion Hch; subst; [apply NoDup_singleton|].
      destruct Hs. eauto.
  - apply (chain_steps_back _ _ _ _ Hch).
    intros n c Hc. by apply (f_cf _ _ _ _ _ _ Hf).
Qed.

End Empty.

Lemma derived_empty_adjacent R (g : Grid) p q :
  grid_ok R g -> (forall x, ~ is_barrier_at g x) ->
  q ∈ neighbors_of (derived R g) p <->
  in_bounds R p /\ q ∈ around p /\ in_bounds R q.
Proof.
  intros Hok Hfree. split.
  - unfold neighbors_of. rewrite (node_at_derived R g Hok).
    destruct (node_at g p) as [n|] eqn:E; simpl; [|by intros ?%elem_of_nil].
    apply (node_at_inv R g Hok) in E as (Hp & _).
    intros (? & ? & _)%(elem_of_expected R g Hok). done.
  - intros (Hp & Hq & Hqb). rewrite (neighbors_of_derived R g Hok p Hp).
    apply (elem_of_expected R g Hok). split_and!; try done.
Qed.

(** C3.  On every R-by-R grid without Barrier cells, adjacency derived,
    with start and end two different Cells of the grid, the search returns
    True; the Cells [reconstruct_path] visits, from end back to start,
    are as many as the Manhattan distance from start to end (the number
    of unit steps of the path), they end with start, each is one
    axis-aligned step from the one visited after it, and together with
    end they are all different: on the empty 5-by-5 grid from (0,0) to
    (4,4), 8 steps and 9 Cells. *)
Theorem empty_grid_path R (g g' : Grid) (start end_ : pos) :
  grid_ok R g -> (forall p, ~ is_barrier_at g p) ->
  update_all_neighbors g = Ok g' ->
  in_bounds R start -> in_bounds R end_ -> start <> end_ ->
  (exists fuel st, algorithm fuel g' start end_ = Ok (true, st)) /\
  forall fuel b st, algorithm fuel g' start end_ = Ok (b, st) ->
    b = true /\
    Z.of_nat (length (path_marks (trace (world st)))) = h start end_ /\
    last (path_marks (trace (world st))) = Some start /\
    NoDup (end_ :: path_marks (trace (world st))) /\
    steps_back (step R g) (end_ :: path_marks (trace (world st))).
Proof.
  intros Hok Hfree Hg' Hs He Hne.
  rewrite (update_all_neighbors_inv R g g' Hok Hg').
  pose proof (derived_ok R g Hok) as Hok'.
  pose proof (fun p q => derived_empty_adjacent R g p q Hok Hfree) as Hadj.
  assert (forall fuel b st,
            algorithm fuel (derived R g) start end_ = Ok (b, st) ->
            b = true /\
            Z.of_nat (length (path_marks (trace (world st)))) = h start end_ /\
            last (path_marks (trace (world st))) = Some start /\
            NoDup (end_ :: path_marks (trace (world st))) /\
            steps_back (step R g) (end_ :: path_marks (trace (world st))))
    as Hres.
  { intros fuel b st Halg.
    destruct (empty_result R (derived R g) start end_ Hok' Hadj Hs He Hne
                _ _ _ Halg) as (-> & Hlen & Hlast & Hnd & Hsteps).
    split_and!; try done.
    intros i a c Ha Hc. apply (derived_edge R g c a Hok).
    by apply (Hsteps i). }
  split; [|done].
  destruct (algorithm_terminates R (derived R g) start end_ Hok'
              (fun p q => derived_inside R g p q Hok) Hs)
    as (fuel & b & st & H).
  destruct (Hres _ _ _ H) as (-> & _). eauto.
Qed.

(** * Concrete grids *)

Lemma blocked3_ok : grid_ok 3 blocked3.
Proof. apply grid_okb_sound. vm_compute. reflexivity. Qed.

Lemma empty5_ok : grid_ok 5 empty5.
Proof. apply grid_okb_sound. vm_compute. reflexivity. Qed.

Lemma middle_row_blocks (g : Grid) :
  (forall c, 0 <= c < 3 -> is_barrier_at g (1, c)) ->
  ~ connected 3 g (0, 1) (2, 1).
Proof.
  intros Hrow.
  assert (forall p q, rtc (step 3 g) p q -> p.1 = 0 -> q.1 = 0) as H.
  { induction 1 as [|p q r Hpq _ IH]; [done|]. intros Hp. apply IH.
    destruct Hpq as (Har & [Hq1 Hq2] & Hnb). destruct p as [pr pc].
    destruct q as [qr qc]. simpl in *. subst pr.
    apply elem_of_around in Har. simpl in Har.
    destruct (decide (qr = 0)) as [|Hne]; [done|]. exfalso.
    assert (qr = 1) as -> by (destruct Har as [E|[E|[E|E]]]; injection E; lia).
    by apply Hnb, Hrow. }
  intros Hc. apply H in Hc; done.
Qed.

Lemma blocked3_not_connected : ~ connected 3 blocked3 (0, 1) (2, 1).
Proof.
  apply middle_row_blocks. intros c Hc.
  assert (c = 0 \/ c = 1 \/ c = 2) as [->|[->| ->]] by lia;
    vm_compute; reflexivity.
Qed.

(** * Witnesses and counterexamples *)

Lemma grid_getitem_range_witness :
  grid_getitem blocked3 (-4) 0 = Raise IndexError /\
  exists n, grid_getitem blocked3 (-1) 2 = Ok n /\
            node_at blocked3 ((-1) mod 3, 2 mod 3) = Some n /\
            get_pos n = ((-1) mod 3, 2 mod 3).
Proof.
  split.
  - apply (proj1 (grid_getitem_range 3 blocked3 (-4) 0 blocked3_ok)). lia.
  - apply (proj2 (grid_getitem_range 3 blocked3 (-1) 2 blocked3_ok)); lia.
Defined.

(** C9, counterexample.  In the 3-by-3 grid, row -1 lies outside [0, 3),
    yet [grid[-1][0]] raises nothing and returns the Cell at (2, 0). *)
Lemma negative_index_wraps :
  ~ in_bounds 3 (-1, 0) /\
  exists n, grid_getitem blocked3 (-1) 0 = Ok n /\ get_pos n = (2, 0).
Proof.
  split.
  - unfold in_bounds. simpl. lia.
  - eexists. split; vm_compute; reflexivity.
Qed.

Lemma update_all_neighbors_exact_witness :
  exists g', update_all_neighbors blocked3 = Ok g' /\ grid_ok 3 g' /\
    (forall p, color_at g' p = color_at blocked3 p) /\
    forall p, in_bounds 3 p ->
      NoDup (neighbors_of g' p) /\
      forall q, q ∈ neighbors_of g' p <->
                q ∈ around p /\ in_bounds 3 q /\ ~ is_barrier_at g' q.
Proof. apply (update_all_neighbors_exact 3 blocked3 blocked3_ok). Defined.

Lemma search_terminates_witness :
  exists fuel b st,
    forall fuel', (fuel <= fuel')%nat ->
      algorithm fuel' (prepared 3 (0, 1) (2, 1) [(1, 0); (1, 1); (1, 2)])
                (0, 1) (2, 1) = Ok (b, st).
Proof.
  apply (search_terminates 3 blocked3 _ (0, 1) (2, 1) blocked3_ok).
  - vm_compute. reflexivity.
  - unfold in_bounds. simpl. lia.
Defined.

Lemma no_path_failure_witness :
  let g' := prepared 3 (0, 1) (2, 1) [(1, 0); (1, 1); (1, 2)] in
  (exists fuel st, algorithm fuel g' (0, 1) (2, 1) = Ok (false, st)) /\
  forall fuel b st, algorithm fuel g' (0, 1) (2, 1) = Ok (b, st) ->
    b = false /\ open_set st = [] /\
    path_marks (trace (world st)) = [] /\
    forall p, color_at (grid (world st)) p = Some PURPLE ->
              color_at blocked3 p = Some PURPLE.
Proof.
  apply (no_path_failure 3 blocked3 _ (0, 1) (2, 1) blocked3_ok).
  - vm_compute. reflexivity.
  - unfold in_bounds. simpl. lia.
  - exact blocked3_not_connected.
Defined.

(** C4, counterexample.  No walk leads from start to end on [stale3], the
    search returns False, and the Cell at (2, 0), marked Path before the
    search, still has status Path after it. *)
Lemma stale_path_mark_stays :
  ~ connected 3 stale3 (0, 1) (2, 1) /\
  exists st,
    algorithm 20 (adjacency stale3) (0, 1) (2, 1) = Ok (false, st) /\
    color_at (grid (world st)) (2, 0) = Some PURPLE.
Proof.
  split.
  - apply middle_row_blocks. intros c Hc.
    assert (c = 0 \/ c = 1 \/ c = 2) as [->|[->| ->]] by lia;
      vm_compute; reflexivity.
  - eexists. split; vm_compute; reflexivity.
Qed.

Lemma start_end_colours_witness :
  let g' := prepared 5 (0, 0) (4, 4) [] in
  (forall st, reachable g' (0, 0) (4, 4) st ->
     Forall (calm (0, 0) (4, 4))
            (grid (world st) :: snapshots (trace (world st)))) /\
  (forall fuel b st, algorithm fuel g' (0, 0) (4, 4) = Ok (b, st) ->
     Forall (settled (0, 0) (4, 4))
            (grid (world st) :: snapshots (trace (world st))) /\
     color_at (grid (world st)) (4, 4) = Some TURQUOISE).
Proof.
  apply (start_end_colours 5 empty5 _ (0, 0) (4, 4) empty5_ok).
  - vm_compute. reflexivity.
  - vm_compute. reflexivity.
  - vm_compute. reflexivity.
Defined.

(** C2, counterexample.  On the empty 2-by-2 grid with end just below
    start, the search succeeds, and the grid that [draw] renders after the
    first expansion shows end Open, not End. *)
Lemma end_shown_open :
  exists st,
    algorithm 10 (prepared 2 (0, 0) (1, 0) []) (0, 0) (1, 0) = Ok (true, st) /\
    color_at empty2 (1, 0) = Some TURQUOISE /\
    Exists (fun g => color_at g (1, 0) = Some GREEN)
           (snapshots (trace (world st))).
Proof.
  eexists. split; [vm_compute; reflexivity|].
  split; [vm_compute; reflexivity|].
  vm_compute snapshots.
  repeat first [ apply Exists_cons_hd; vm_compute; reflexivity
               | apply Exists_cons_tl ].
Qed.

Lemma frontier_order_witness :
  let st := after 1 (0, 0) (4, 4)
                  (init (prepared 5 (0, 0) (4, 4) []) (0, 0) (4, 4)) in
  let m : entry := (Int 8, 1, (1, 0)) in
  let q : list entry := [(Int 8, 2, (0, 1))] in
  (exists i fm,
     open_set st !! i = Some m /\ q = delete i (open_set st) /\
     prio m = Int fm /\
     forall j e, open_set st !! j = Some e -> j <> i ->
       exists fe, prio e = Int fe /\
                  (fm < fe \/ (fm = fe /\ (i < j)%nat /\ seqno m < seqno e))) /\
  StronglySorted Z.lt (seqno <$> open_set st) /\
  Forall (fun e => seqno e <= count st) (open_set st) /\
  forall nb f s, seqno <$> open_set (push_open nb f s)
                 = (seqno <$> open_set s) ++ [count s + 1].
Proof.
  apply (frontier_order 5 empty5 (prepared 5 (0, 0) (4, 4) []) (0, 0) (4, 4)
           _ _ _ empty5_ok).
  - vm_compute. reflexivity.
  - unfold in_bounds. simpl. lia.
  - apply reachable_after, reachable_init.
  - vm_compute. reflexivity.
Defined.

Lemma came_from_acyclic_witness :
  let st := after 3 (0, 0) (4, 4)
                  (init (prepared 5 (0, 0) (4, 4) []) (0, 0) (4, 4)) in
  came_from st !! (0, 0) = None /\
  (forall n c, came_from st !! n = Some c ->
     exists vn vc, g_score st !! n = Some (Int vn) /\
                   g_score st !! c = Some (Int vc) /\ vc < vn) /\
  (forall n, is_Some (came_from st !! n) ->
     exists l, is_chain (came_from st) n l /\
               last l = Some (0, 0) /\ NoDup (n :: l) /\
               forall w, reconstruct_path (S (length l)) (came_from st) n w
                         = Ok (mark_chain l w)).
Proof.
  apply (came_from_acyclic 5 empty5 (prepared 5 (0, 0) (4, 4) []) (0, 0) (4, 4)
           _ empty5_ok).
  - vm_compute. reflexivity.
  - unfold in_bounds. simpl. lia.
  - apply reachable_after, reachable_init.
Defined.

Lemma empty5_no_barrier p : ~ is_barrier_at empty5 p.
Proof.
  intros Hb. pose proof (color_at_in_bounds 5 empty5 p _ empty5_ok Hb) as Hin.
  destruct p as [r c]. destruct Hin as [Hr Hc]. simpl in Hr, Hc.
  assert (r = 0 \/ r = 1 \/ r = 2 \/ r = 3 \/ r = 4) as Hr' by lia.
  assert (c = 0 \/ c = 1 \/ c = 2 \/ c = 3 \/ c = 4) as Hc' by lia.
  unfold is_barrier_at in Hb.
  destruct Hr' as [->|[->|[->|[->| ->]]]];
    destruct Hc' as [->|[->|[->|[->| ->]]]];
    vm_compute in Hb; discriminate.
Qed.

Lemma empty_grid_path_witness :
  let g' := prepared 5 (0, 0) (4, 4) [] in
  (exists fuel st, algorithm fuel g' (0, 0) (4, 4) = Ok (true, st)) /\
  forall fuel b st, algorithm fuel g' (0, 0) (4, 4) = Ok (b, st) ->
    b = true /\
    Z.of_nat (length (path_marks (trace (world st)))) = h (0, 0) (4, 4) /\
    last (path_marks (trace (world st))) = Some (0, 0) /\
    NoDup ((4, 4) :: path_marks (trace (world st))) /\
    steps_back (step 5 empty5) ((4, 4) :: path_marks (trace (world st))).
Proof.
  apply (empty_grid_path 5 empty5 _ (0, 0) (4, 4) empty5_ok).
  - exact empty5_no_barrier.
  - vm_compute. reflexivity.
  - unfold in_bounds. simpl. lia.
  - unfold in_bounds. simpl. lia.
  - discriminate.
Defined.

(** C1, the failing input.  On the empty 5-by-5 grid from (0,0) to (4,4)
    the search succeeds and [reconstruct_path] visits eight cells, the
    last of which is start: start, which showed Start, shows Path when the
    search returns. *)
Theorem start_marked_path :
  exists st,
    algorithm 60 (prepared 5 (0, 0) (4, 4) []) (0, 0) (4, 4) = Ok (true, st) /\
    path_marks (trace (world st))
    = [(4, 3); (4, 2); (4, 1); (4, 0); (3, 0); (2, 0); (1, 0); (0, 0)] /\
    color_at empty5 (0, 0) = Some ORANGE /\
    color_at (grid (world st)) (0, 0) = Some PURPLE /\
    color_at (grid (world st)) (4, 4) = Some TURQUOISE.
Proof.
  eexists. split; [vm_compute; reflexivity|].
  split_and!; vm_compute; reflexivity.
Qed.

Lemma search_deterministic_witness :
  let g1 := board 3 (0, 0) (2, 2) [(1, 1)] in
  let g2 := paint GREEN (0, 2) (paint RED (1, 0) g1) in
  let st1 := final_state 30 (prepared 3 (0, 0) (2, 2) [(1, 1)]) (0, 0) (2, 2) in
  let st2 := final_state 40 (derived 3 g2) (0, 0) (2, 2) in
  true = true /\
  open_closed (trace (world st1)) = open_closed (trace (world st2)) /\
  path_marks (trace (world st1)) = path_marks (trace (world st2)).
Proof.
  apply (search_deterministic 3
           (board 3 (0, 0) (2, 2) [(1, 1)])
           (paint GREEN (0, 2) (paint RED (1, 0)
                                  (board 3 (0, 0) (2, 2) [(1, 1)])))
           (prepared 3 (0, 0) (2, 2) [(1, 1)])
           (derived 3 (paint GREEN (0, 2)
                         (paint RED (1, 0) (board 3 (0, 0) (2, 2) [(1, 1)]))))
           (0, 0) (2, 2) 30 40).
  - apply grid_okb_sound. vm_compute. reflexivity.
  - apply grid_okb_sound. vm_compute. reflexivity.
  - intros p. unfold is_barrier_at, paint. rewrite !color_at_update_color.
    destruct (decide ((0, 2) = p)) as [<-|_];
      [split; intros H; vm_compute in H; discriminate|].
    destruct (decide ((1, 0) = p)) as [<-|_];
      [split; intros H; vm_compute in H; discriminate|done].
  - vm_compute. reflexivity.
  - vm_compute. reflexivity.
  - vm_compute. reflexivity.
  - vm_compute. reflexivity.
Defined.

(** The priority of an entry is the f_score its cell had when it was put:
    lines 156-158 lower the f_score of a cell that waits in the queue
    without putting it again.  On the 4-by-4 grid with barriers at (0,1),
    (1,0) and (2,2), from (2,3) towards (0,0), after nine passes the cell
    (3,1) waits with priority 9 while its f_score is 7. *)
Lemma priority_is_f_score_at_put :
  let st := after 9 (2, 3) (0, 0)
              (init (prepared 4 (2, 3) (0, 0) [(0, 1); (1, 0); (2, 2)])
                    (2, 3) (0, 0)) in
  open_set st = [(Int 9, 9, (3, 1)); (Int 7, 10, (2, 0))] /\
  f_score st !! (3, 1) = Some (Int 7).
Proof. split; vm_compute; reflexivity. Qed.

(** * The grid and the pointer *)

Lemma node_at_make_grid (rows w : Z) (p : pos) :
  0 < rows ->
  node_at ((fun i => (fun j => Node_init i j (w / rows) rows) <$> seqZ 0 rows)
             <$> seqZ 0 rows) p
  = if decide (in_bounds rows p)
    then Some (Node_init p.1 p.2 (w / rows) rows) else None.
Proof.
  intros Hrows. unfold node_at, in_bounds. destruct p as [r c]. cbn [fst snd].
  destruct (Z.leb_spec 0 r) as [Hr|Hr], (Z.leb_spec 0 c) as [Hc|Hc];
    cbn [andb]; try (rewrite decide_False by lia; done).
  rewrite list_lookup_fmap.
  destruct (decide (r < rows)) as [Hr'|Hr'].
  - rewrite lookup_seqZ_lt by lia. cbn. rewrite list_lookup_fmap.
    destruct (decide (c < rows)) as [Hc'|Hc'].
    + rewrite lookup_seqZ_lt by lia. cbn. rewrite decide_True by lia.
      by rewrite !Z2Nat.id by lia.
    + rewrite lookup_seqZ_ge by lia. cbn. by rewrite decide_False by lia.
  - rewrite lookup_seqZ_ge by lia. cbn. by rewrite decide_False by lia.
Qed.

Lemma make_grid_ok (rows w : Z) :
  0 < rows ->
  grid_ok rows ((fun i => (fun j => Node_init i j (w / rows) rows)
                            <$> seqZ 0 rows) <$> seqZ 0 rows).
Proof.
  intros Hrows. split.
  - rewrite length_fmap, length_seqZ. lia.
  - intros i rw Hi. rewrite list_lookup_fmap in Hi.
    destruct (seqZ 0 rows !! i) as [zi|] eqn:Ei; [|done].
    apply lookup_seqZ in Ei as [-> Hlt]. injection Hi as <-. split.
    + rewrite length_fmap, length_seqZ. lia.
    + intros j n Hj. rewrite list_lookup_fmap in Hj.
      destruct (seqZ 0 rows !! j) as [zj|] eqn:Ej; [|done].
      apply lookup_seqZ in Ej as [-> Hlt']. injection Hj as <-. done.
Qed.

Lemma make_grid_grid_ok (rows w : Z) (g : Grid) :
  0 < rows -> make_grid rows w = Ok g -> grid_ok rows g.
Proof.
  intros Hr. unfold make_grid. destruct (Z.eqb_spec rows 0); [lia|].
  intros [= <-]. by apply make_grid_ok.
Qed.


Lemma make_grid_Ok (rows w : Z) (g : Grid) (p : pos) (n : Node) :
  make_grid rows w = Ok g -> node_at g p = Some n ->
  0 < rows /\ in_bounds rows p /\ n = Node_init p.1 p.2 (w / rows) rows.
Proof.
  unfold make_grid. destruct (Z.eqb_spec rows 0) as [->|Hne]; [done|].
  intros [= <-] Hn. destruct (decide (0 < rows)) as [Hpos|Hneg].
  - rewrite node_at_make_grid in Hn by done.
    case_decide; [|done]. by injection Hn as <-.
  - unfold seqZ in Hn. rewrite Z2Nat.nonpos in Hn by lia.
    unfold node_at in Hn. by destruct (_ && _).
Qed.

(** X1.  What [make_grid(rows, width)] answers.  With no rows it divides by
    zero; with a negative number of rows both loops are empty; otherwise it
    builds a rows-by-rows grid whose Node at (i, j) is a fresh
    [Node(i, j, width // rows, rows)]: white, without neighbors, its
    corner at (i * gap, j * gap). *)
Theorem make_grid_cases (rows w : Z) :
  (rows = 0 -> make_grid rows w = Raise ZeroDivisionError) /\
  (rows < 0 -> make_grid rows w = Ok []) /\
  (0 < rows ->
     exists g, make_grid rows w = Ok g /\ grid_ok rows g /\
       forall p, node_at g p
                 = if decide (in_bounds rows p)
                   then Some (Node_init p.1 p.2 (w / rows) rows) else None).
Proof.
  split_and!.
  - intros ->. done.
  - intros Hneg. unfold make_grid.
    destruct (Z.eqb_spec rows 0) as [->|_]; [lia|].
    unfold seqZ. by rewrite Z2Nat.nonpos by lia.
  - intros Hpos. unfold make_grid.
    destruct (Z.eqb_spec rows 0) as [->|_]; [lia|].
    eexists. split; [done|]. split; [by apply make_grid_ok|].
    intros p. by apply node_at_make_grid.
Qed.

Lemma div_is (a b q : Z) : 0 < b -> a / b = q <-> q * b <= a < q * b + b.
Proof.
  intros Hb. split.
  - intros <-. pose proof (Z.mul_div_le a b Hb).
    pose proof (Z.mul_succ_div_gt a b Hb). lia.
  - intros H. symmetry. apply (Z.div_unique a b q (a - q * b)); lia.
Qed.

(** X2.  The rectangle [Node.draw] paints for a Node of the grid holds
    exactly the pointer positions that [get_clicked_pos] maps to that
    Node. *)
Theorem click_finds_drawn_node (rows w : Z) (g : Grid) (p : pos) (n : Node)
    (pt : Z * Z) :
  0 <= w -> make_grid rows w = Ok g -> node_at g p = Some n ->
  (covers (Node_draw n).2 pt <-> get_clicked_pos pt rows w = Ok (get_pos n)).
Proof.
  intros Hw Hg Hn.
  destruct (make_grid_Ok rows w g p n Hg Hn) as (Hrows & Hp & ->).
  destruct p as [r c], pt as [px py]. unfold get_clicked_pos, covers.
  unfold Node_draw, Node_init, get_pos. cbn [snd fst x y width row col].
  destruct (Z.eqb_spec rows 0) as [->|_]; [lia|].
  pose proof (Z.div_pos w rows Hw Hrows) as Hgap.
  destruct (Z.eqb_spec (w / rows) 0) as [E|E].
  - rewrite E. split; [lia|done].
  - split.
    + intros [Hx Hy].
      assert (px / (w / rows) = r) as -> by (apply div_is; lia).
      assert (py / (w / rows) = c) as -> by (apply div_is; lia). done.
    + intros [= Hx Hy]. apply div_is in Hx, Hy; lia.
Qed.

Lemma get_clicked_pos_window (rows w px py : Z) :
  0 < rows -> 0 < w -> w mod rows = 0 ->
  0 <= px < w -> 0 <= py < w ->
  exists p, get_clicked_pos (px, py) rows w = Ok p /\ in_bounds rows p.
Proof.
  intros Hrows Hw Hmod Hx Hy.
  pose proof (Z.div_mod w rows ltac:(lia)) as Hdm.
  assert (0 < w / rows) as Hgap by nia.
  unfold get_clicked_pos.
  destruct (Z.eqb_spec rows 0) as [->|_]; [lia|].
  destruct (Z.eqb_spec (w / rows) 0); [lia|].
  eexists. split; [done|]. unfold in_bounds. cbn [fst snd].
  pose proof (Z.div_pos px (w / rows)). pose proof (Z.div_pos py (w / rows)).
  pose proof (Z.div_lt_upper_bound px (w / rows) rows).
  pose proof (Z.div_lt_upper_bound py (w / rows) rows). nia.
Qed.

(** X3.  The pointer and the bounds of the grid.  With a window narrower
    than the number of rows the Nodes have size 0 and every click divides
    by zero.  Otherwise every pointer inside the window is mapped to a
    position inside the grid exactly when the number of rows divides the
    width; when it does not, the pointer at the far edge is mapped to row
    [rows], and [grid[row][col]] raises IndexError. *)
Theorem clicks_and_bounds (rows w : Z) :
  0 < rows ->
  (0 <= w < rows ->
     forall pt, get_clicked_pos pt rows w = Raise ZeroDivisionError) /\
  (rows <= w ->
     ((forall px py, 0 <= px < w -> 0 <= py < w ->
         exists p, get_clicked_pos (px, py) rows w = Ok p /\ in_bounds rows p)
      <-> w mod rows = 0) /\
     (w mod rows <> 0 ->
        exists r, get_clicked_pos (w - 1, 0) rows w = Ok (r, 0) /\
          rows <= r /\
          forall g, grid_ok rows g -> grid_getitem g r 0 = Raise IndexError)).
Proof.
  intros Hrows. split.
  - intros Hw pt. unfold get_clicked_pos.
    destruct (Z.eqb_spec rows 0) as [->|_]; [lia|].
    by rewrite Z.div_small by lia.
  - intros Hw.
    assert (0 < w / rows) as Hgap by (apply Z.div_str_pos; lia).
    pose proof (Z.div_mod w rows ltac:(lia)) as Hdm.
    pose proof (Z.mod_pos_bound w rows Hrows) as Hmod.
    assert (forall pt, get_clicked_pos pt rows w
                       = Ok (pt.1 / (w / rows), pt.2 / (w / rows))) as Hget.
    { intros pt. unfold get_clicked_pos.
      destruct (Z.eqb_spec rows 0) as [->|_]; [lia|].
      destruct (Z.eqb_spec (w / rows) 0); [lia|done]. }
    assert (w mod rows <> 0 -> rows <= (w - 1) / (w / rows)) as Hfar.
    { intros Hne. apply Z.div_le_lower_bound; [done|]. nia. }
    split; [split|].
    + intros Hin. destruct (decide (w mod rows = 0)) as [|Hne]; [done|].
      exfalso. destruct (Hin (w - 1) 0) as (p & Hp & [Hb _]); [lia|lia|].
      rewrite Hget in Hp. injection Hp as <-. cbn [fst] in Hb.
      specialize (Hfar Hne). lia.
    + intros H0 px py Hx Hy. apply get_clicked_pos_window; lia.
    + intros Hne. exists ((w - 1) / (w / rows)). rewrite Hget. cbn [fst snd].
      split; [by rewrite Z.div_0_l by lia|]. split; [by apply Hfar|].
      intros g Hok.
      specialize (Hfar Hne). unfold grid_getitem.
      rewrite getitem_out; [done|]. destruct Hok as [-> _]. lia.
Qed.

(** * The adjacency pass, again *)

Lemma expected_neighbors_derived R (g : Grid) p :
  grid_ok R g ->
  expected_neighbors R (derived R g) p = expected_neighbors R g p.
Proof.
  intros Hok. unfold expected_neighbors. apply List.filter_ext. intros q.
  f_equal. unfold free. rewrite (node_at_derived R g Hok).
  by destruct (node_at g q).
Qed.

Lemma derived_idem R (g : Grid) :
  grid_ok R g -> derived R (derived R g) = derived R g.
Proof.
  intros Hok. unfold derived at 1.
  erewrite map_ext;
    [|intros rw; apply map_ext; intros n;
      rewrite expected_neighbors_derived by done; reflexivity].
  unfold derived. rewrite map_map. apply map_ext. intros rw.
  rewrite map_map. by apply map_ext.
Qed.

(** X4.  The adjacency pass is idempotent, and what it leaves in
    [neighbors] depends on the Barrier placement alone: a second pass
    changes nothing, and a grid of the same size with the same Barriers,
    whatever its other colours and whatever its [neighbors] held before,
    gets the same lists. *)
Theorem adjacency_pass_idempotent R (g g' : Grid) :
  grid_ok R g -> update_all_neighbors g = Ok g' ->
  update_all_neighbors g' = Ok g' /\
  forall g2 g2', grid_ok R g2 ->
    (forall p, is_barrier_at g2 p <-> is_barrier_at g p) ->
    update_all_neighbors g2 = Ok g2' ->
    forall p, neighbors_of g2' p = neighbors_of g' p.
Proof.
  intros Hok Hg'. rewrite (update_all_neighbors_inv R g g' Hok Hg'). split.
  - rewrite (update_all_neighbors_spec R _ (derived_ok R g Hok)).
    by rewrite derived_idem.
  - intros g2 g2' Hok2 Hb Hg2 p.
    rewrite (update_all_neighbors_inv R g2 g2' Hok2 Hg2).
    by apply same_barriers_same_neighbors.
Qed.

(** X5.  Between Cells that are not Barriers adjacency is symmetric: after
    the pass, a Cell that is not a Barrier is a neighbor of each of its
    neighbors.  (A Barrier keeps its own list, but is in no list.) *)
Theorem adjacency_symmetric R (g g' : Grid) (p q : pos) :
  grid_ok R g -> update_all_neighbors g = Ok g' ->
  in_bounds R p -> ~ is_barrier_at g p ->
  q ∈ neighbors_of g' p ->
  p ∈ neighbors_of g' q /\ ~ is_barrier_at g q.
Proof.
  intros Hok Hg' Hp Hfree. rewrite (update_all_neighbors_inv R g g' Hok Hg').
  rewrite (neighbors_of_derived R g Hok p Hp).
  intros (Har & Hq & Hqf)%(elem_of_expected R g Hok). split; [|done].
  rewrite (neighbors_of_derived R g Hok q Hq).
  apply (elem_of_expected R g Hok). split_and!; [|done|done].
  by apply around_sym.
Qed.

(** * The heuristic, again *)

(** X6.  [h] is a metric on positions: never negative, zero exactly
    between a position and itself, symmetric, and it obeys the triangle
    inequality. *)
Theorem h_metric (a b c : pos) :
  0 <= h a b /\ (h a b = 0 <-> a = b) /\ h a b = h b a /\
  h a c <= h a b + h b c.
Proof.
  split_and!; [apply h_nonneg|apply h_zero| |apply h_triangle].
  destruct a, b. simpl. lia.
Qed.

Lemma h_walk R (g : Grid) (n : nat) (p q : pos) :
  nsteps (step R g) n p q -> h p q <= Z.of_nat n.
Proof.
  induction 1 as [p|n p r q Hpr _ IH].
  - by rewrite (proj2 (h_zero p p)).
  - destruct Hpr as (Har & _). destruct (h_around_l q p r Har); lia.
Qed.

(** X7.  [h] is admissible and consistent for walks over the grid: no
    walk from [p] to [q] has fewer than [h p q] steps, and one step
    changes the distance to any target by exactly one. *)
Theorem h_admissible R (g : Grid) (n : nat) (p q : pos) :
  nsteps (step R g) n p q ->
  h p q <= Z.of_nat n /\
  forall a b e, step R g a b -> h b e = h a e + 1 \/ h b e = h a e - 1.
Proof.
  intros Hw. split; [by apply (h_walk R g)|].
  intros a b e (Har & _). by apply h_around_l.
Qed.

(** * [reconstruct_path], again *)

Lemma reconstruct_path_Ok fuel cf p w w' :
  reconstruct_path fuel cf p w = Ok w' ->
  exists l, is_chain cf p l /\ (length l < fuel)%nat /\ w' = mark_chain l w.
Proof.
  revert p w. induction fuel as [|fuel IH]; intros p w; [done|]. simpl.
  destruct (cf !! p) as [c|] eqn:E.
  - intros (l & Hch & Hlen & ->)%IH. exists (c :: l).
    split_and!; [by constructor|simpl; lia|done].
  - intros [= <-]. exists []. split_and!; [by constructor|simpl; lia|done].
Qed.

(** X8.  [reconstruct_path] follows the predecessors of [current] for as
    long as there is one.  It returns exactly when that chain is finite
    (the model: when the fuel exceeds its length), having marked Path and
    drawn each Cell of the chain in turn, the last one included and
    [current] itself not; it raises nothing; with no predecessor for
    [current] it returns at once, having marked nothing; and from a Cell
    that is its own predecessor it never returns. *)
Theorem reconstruct_path_follows_chain (cf : gmap pos pos) (p : pos)
    (w : World) (fuel : nat) :
  (forall w', reconstruct_path fuel cf p w = Ok w' <->
     exists l, is_chain cf p l /\ (length l < fuel)%nat /\
               w' = mark_chain l w) /\
  (forall e, reconstruct_path fuel cf p w <> Raise e) /\
  (cf !! p = None -> reconstruct_path (S fuel) cf p w = Ok w) /\
  (cf !! p = Some p -> reconstruct_path fuel cf p w = OutOfFuel).
Proof.
  split_and!.
  - intros w'. split; [apply reconstruct_path_Ok|].
    intros (l & Hch & Hlen & ->). by apply reconstruct_path_chain.
  - revert p w. induction fuel as [|fuel IH]; intros p w e; [done|]. simpl.
    destruct (cf !! p); [apply IH|done].
  - intros Hp. simpl. by rewrite Hp.
  - intros Hp. revert w. induction fuel as [|fuel IH]; intros w; [done|].
    simpl. rewrite Hp. apply IH.
Qed.

(** * The search from a Cell to itself *)

(** X9.  When [start] and [end] are the same Cell the search returns True
    at once: the Cell is taken from the queue and set to End; nothing is
    drawn, no Cell is marked, no neighbor is looked at (the Cell need not
    even belong to the grid). *)
Theorem same_start_and_end (g : Grid) (p : pos) (fuel : nat) :
  exists st, algorithm (S (S fuel)) g p p = Ok (true, st) /\
    trace (world st) = [MakeEnd p] /\
    grid (world st) = update_node make_end p g /\
    open_set st = [] /\ came_from st = ∅ /\ count st = 0.
Proof.
  eexists. split.
  - unfold algorithm. cbn [while_open_set]. unfold iteration, init.
    cbn [open_set put app get least remove_first open_set_hash].
    rewrite (bool_decide_eq_true_2 (p ∈ _)) by set_solver.
    rewrite (bool_decide_eq_true_2 (p = p)) by done.
    rewrite (bool_decide_eq_true_2 (_ = _)) by done. cbn zeta.
    cbn [remove_current came_from world reconstruct_path].
    rewrite lookup_empty. cbn [bind]. reflexivity.
  - done.
Qed.

(** * More invariants of the search loop *)

Section SearchMore.
Context (R : Z) (g0 : Grid) (start end_ : pos).
Context (Hok : grid_ok R g0).
Context (Hnb : forall p q, q ∈ neighbors_of g0 p -> in_bounds R q).
Context (Hstart : in_bounds R start).

Lemma finite_record_better s cur nb t f p :
  finite (record_better cur nb (Int t) f s) p <-> p = nb \/ finite s p.
Proof.
  unfold finite. simpl. destruct (decide (p = nb)) as [->|Hne].
  - rewrite lookup_insert_eq. split; eauto.
  - rewrite lookup_insert_ne by done. split; [eauto|]. by intros [?|?].
Qed.

Lemma relax_all_keeps (P : State -> Prop) cur v l s s' :
  inv R g0 start s -> g_score s !! cur = Some (Int v) ->
  Forall (edge g0 cur) l ->
  (forall s0 nb t f, P s0 -> P (record_better cur nb (Int t) f s0)) ->
  (forall s0 nb f, P s0 -> P (push_open nb f s0)) ->
  P s -> foldM (relax end_ cur) l s = Ok s' -> P s'.
Proof.
  intros Hinv Hc Hl Hrec Hpush HP Hfold.
  apply (relax_all_ind R g0 start end_ Hnb P cur v l s s' Hinv Hc Hl);
    [|done|done].
  intros s0 nb gn _ _ _ _ _ HP0 f s1. split; intros _.
  - by apply Hrec.
  - by apply Hpush, Hrec.
Qed.

(** When the [for] loop is over, every neighbor has a finite score. *)
Lemma relax_all_finite cur v l s s' :
  inv R g0 start s -> g_score s !! cur = Some (Int v) ->
  Forall (edge g0 cur) l ->
  foldM (relax end_ cur) l s = Ok s' ->
  forall nb, nb ∈ l -> finite s' nb.
Proof.
  revert s. induction l as [|a l IH]; intros s Hinv Hc Hl Hfold nb Hin.
  { by apply elem_of_nil in Hin. }
  apply Forall_cons in Hl as [Ha Hl]. simpl in Hfold.
  apply bind_Ok in Hfold as (s1 & Hr & Hfold).
  destruct (inv_relax R g0 start end_ Hnb s cur a v Hinv Hc Ha)
    as (s1' & Hr' & Hinv1 & Hc1).
  rewrite Hr in Hr'. injection Hr' as <-.
  apply elem_of_cons in Hin as [->|Hin]; [|by apply (IH s1)].
  apply (relax_all_keeps (fun s => finite s a) cur v l s1 s'); try done.
  - intros s0 nb t f H0. apply finite_record_better. by right.
  - assert (is_Some (g_score s !! a)) as [gn Hn].
    { apply (inv_keys _ _ _ _ Hinv). by eapply Hnb. }
    rewrite (relax_cases end_ _ _ _ _ _ Hc Hn) in Hr.
    destruct (num_ltb (Int (v + 1)) gn) eqn:Hlt.
    + cbn zeta in Hr. case_bool_decide; injection Hr as <-;
        [|change (finite (record_better cur a (Int (v + 1))
                            (Int (v + 1 + h a end_)) s) a)];
        apply finite_record_better; by left.
    + injection Hr as <-. destruct gn as [w|]; [by exists w|done].
Qed.

(** An induction principle for the [while] loop: a property [P] of the
    states in which the condition is tested, with a property [Q] of the
    states in between, while a Cell is expanded. *)
Lemma loop_ind (P : State -> Prop) (Q : pos -> State -> Prop) :
  P (init g0 start end_) ->
  (forall st f c cur q v,
     inv R g0 start st -> P st ->
     get (open_set st) = Some ((f, c, cur), q) -> cur <> end_ ->
     cur ∈ open_set_hash st ->
     g_score st !! cur = Some (Int v) ->
     Q cur (remove_current cur q st)) ->
  (forall cur v s nb gn,
     inv R g0 start s -> g_score s !! cur = Some (Int v) ->
     edge g0 cur nb -> g_score s !! nb = Some gn ->
     num_ltb (Int (v + 1)) gn = true -> nb <> start -> nb <> cur ->
     Q cur s ->
     let f := Int (v + 1 + h nb end_) in
     let s1 := record_better cur nb (Int (v + 1)) f s in
     (nb ∈ open_set_hash s -> Q cur s1) /\
     (nb ∉ open_set_hash s -> Q cur (push_open nb f s1))) ->
  (forall cur v s1,
     inv R g0 start s1 -> g_score s1 !! cur = Some (Int v) -> cur <> end_ ->
     cur ∉ open_set_hash s1 ->
     (forall nb, edge g0 cur nb -> finite s1 nb) ->
     Q cur s1 -> P (close_current start cur s1)) ->
  forall st, reachable g0 start end_ st -> P st.
Proof.
  intros Hinit Hpop Hstep Hclose st Hr.
  induction Hr as [|fuel st st' Hr IH Hit]; [done|].
  pose proof (reachable_inv R g0 start end_ Hok Hnb Hstart st Hr) as Hinv.
  apply iteration_Continue in Hit
      as (f & c & cur & q & st1 & Hget & Hin & Hne & Hfold & ->).
  destruct (inv_remove_current R g0 start end_ st f c cur q Hinv Hget)
    as (_ & Hinv1 & [v Hv] & Hout).
  assert (Forall (edge g0 cur) (neighbors_of (grid (world st)) cur)) as Hl.
  { apply Forall_forall. intros nb. by rewrite (inv_frame _ _ _ _ Hinv). }
  destruct (inv_relax_all R g0 start end_ Hnb (remove_current cur q st) cur v
              _ Hinv1 Hv Hl) as (st1' & Hfold' & Hinv' & Hv').
  rewrite Hfold in Hfold'. injection Hfold' as <-.
  assert (Q cur st1 /\ cur ∉ open_set_hash st1) as [HQ Hout1].
  { apply (relax_all_ind R g0 start end_ Hnb
             (fun s => Q cur s /\ cur ∉ open_set_hash s) cur v _ _ _
             Hinv1 Hv Hl); [| |exact Hfold].
    - intros s nb gn Hs Hcs He Hn Hlt [HQs Hos] f0 s1.
      destruct (inv_record_better R g0 start s cur nb v gn f0
                  Hs Hcs Hn Hlt He) as (_ & Hns & Hnc).
      destruct (Hstep cur v s nb gn Hs Hcs He Hn Hlt Hns Hnc HQs) as [H1 H2].
      split; intros Hin'; (split; [by auto|]); [done|].
      simpl. rewrite elem_of_union, elem_of_singleton. by intros [?|?].
    - split; [|done]. by apply (Hpop st f c cur q v). }
  apply (Hclose cur v); try done.
  intros nb Hnbe. apply (relax_all_finite cur v _ _ _ Hinv1 Hv Hl Hfold).
  by rewrite (inv_frame _ _ _ _ Hinv).
Qed.

(** ** What the maps keep track of *)

Lemma tracks_init : tracks g0 start end_ (init g0 start end_).
Proof.
  split; simpl.
  - intros n c. by rewrite lookup_empty.
  - intros p. destruct (decide (p = start)) as [->|Hne].
    + by rewrite !lookup_insert_eq.
    + rewrite !lookup_insert_ne by done. rewrite (all_inf_lookup R) by done.
      by case_decide.
  - intros p v. destruct (decide (p = start)) as [->|Hne].
    + rewrite lookup_insert_eq. intros [= <-]. constructor.
    + rewrite lookup_insert_ne by done. rewrite (all_inf_lookup R) by done.
      by case_decide.
  - intros e. unfold put. simpl. rewrite list_elem_of_singleton.
    by intros ->.
Qed.

Lemma tracks_record_better s cur nb v gn :
  inv R g0 start s -> tracks g0 start end_ s ->
  g_score s !! cur = Some (Int v) -> edge g0 cur nb ->
  g_score s !! nb = Some gn -> num_ltb (Int (v + 1)) gn = true ->
  tracks g0 start end_
    (record_better cur nb (Int (v + 1)) (Int (v + 1 + h nb end_)) s).
Proof.
  intros Hinv [ ] Hc He Hn Hlt.
  pose proof (inv_nonneg _ _ _ _ Hinv _ _ Hc) as Hv.
  split; simpl.
  - intros n c. destruct (decide (n = nb)) as [->|Hne].
    + rewrite lookup_insert_eq. by intros [= <-].
    + rewrite lookup_insert_ne by done. apply k_edge0.
  - intros p. destruct (decide (p = nb)) as [->|Hne].
    + by rewrite !lookup_insert_eq.
    + rewrite !lookup_insert_ne by done. apply k_f0.
  - intros p w. destruct (decide (p = nb)) as [->|Hne].
    + rewrite lookup_insert_eq. intros [= <-].
      replace (Z.to_nat (v + 1)) with (S (Z.to_nat v)) by lia.
      eapply nsteps_r; [by apply k_walk0|done].
    + rewrite lookup_insert_ne by done. apply k_walk0.
  - intros e He' Hns.
    destruct (k_prio0 e He' Hns) as (fe & w & Hfe & Hw & Hle).
    destruct (decide (node e = nb)) as [E|Hne].
    + rewrite E, lookup_insert_eq. exists fe, (v + 1).
      split_and!; [done|done|].
      rewrite E in Hw, Hle. rewrite Hn in Hw. injection Hw as ->.
      simpl in Hlt. cmp_cases; [lia|done].
    + rewrite lookup_insert_ne by done. eauto.
Qed.

Lemma tracks_push_open s nb t :
  tracks g0 start end_ s -> g_score s !! nb = Some (Int t) ->
  tracks g0 start end_ (push_open nb (Int (t + h nb end_)) s).
Proof.
  intros [ ] Hn. split; simpl; try done.
  intros e. unfold put. rewrite elem_of_app, list_elem_of_singleton.
  intros [He| ->] Hns; [by apply k_prio0|].
  exists (t + h nb end_), t. unfold prio, node. simpl.
  split_and!; [done|done|lia].
Qed.

Lemma reachable_tracks st :
  reachable g0 start end_ st -> tracks g0 start end_ st.
Proof.
  apply (loop_ind (tracks g0 start end_) (fun _ => tracks g0 start end_)).
  - apply tracks_init.
  - intros st0 f c cur q v _ [ ] Hget _ _ _. split; simpl; try done.
    intros e He. apply k_prio0.
    apply get_split in Hget as (l1 & l2 & -> & -> & _).
    rewrite elem_of_app in He. rewrite elem_of_app, elem_of_cons. tauto.
  - intros cur v s nb gn Hs Hc He Hn Hlt _ _ Ht f s1.
    pose proof (tracks_record_better s cur nb v gn Hs Ht Hc He Hn Hlt) as H1.
    split; intros _; [done|].
    apply (tracks_push_open _ nb (v + 1)); [done|]. simpl.
    apply lookup_insert_eq.
  - intros cur v s1 _ _ _ _ _ [ ]. unfold close_current.
    case_bool_decide; by split.
Qed.

(** ** How far the search has swept *)

Lemma nodes_update_color c p (g : Grid) q :
  set_color WHITE <$> node_at (update_node (set_color c) p g) q
  = set_color WHITE <$> node_at g q.
Proof.
  rewrite node_at_update_node. case_decide; [|done].
  by destruct (node_at g q).
Qed.

Lemma color_at_painted R' c p (g : Grid) :
  grid_ok R' g -> in_bounds R' p ->
  color_at (update_node (set_color c) p g) p = Some c.
Proof.
  intros Hg Hp. rewrite color_at_update_color, decide_True by done.
  unfold color_at. by destruct (node_at_bounds R' g Hg p Hp) as (n & -> & _).
Qed.

Lemma color_at_other c p (g : Grid) q :
  p <> q -> color_at (update_node (set_color c) p g) q = color_at g q.
Proof. intros Hne. by rewrite color_at_update_color, decide_False. Qed.

Lemma finite_in_bounds s p : inv R g0 start s -> finite s p -> in_bounds R p.
Proof.
  intros Hinv [v Hv]. apply (inv_keys _ _ _ _ Hinv). by rewrite Hv.
Qed.

Lemma waiting_finite s p :
  inv R g0 start s -> p ∈ open_set_hash s -> finite s p.
Proof.
  intros Hinv Hin. apply (inv_hash _ _ _ _ Hinv) in Hin.
  apply list_elem_of_fmap in Hin as (e & -> & He).
  pose proof (inv_fin _ _ _ _ Hinv) as Hfin. rewrite Forall_forall in Hfin.
  by destruct (Hfin e He) as [_ ?].
Qed.

Lemma sweep_init : sweep R g0 start end_ None (init g0 start end_).
Proof.
  assert (forall p, finite (init g0 start end_) p -> p = start) as Hfin.
  { intros p [v Hv]. simpl in Hv. destruct (decide (p = start)); [done|].
    rewrite lookup_insert_ne in Hv by done.
    rewrite (all_inf_lookup R) in Hv by done. by case_decide. }
  split; simpl; try done.
  - intros p q Hp%Hfin Hout. subst p. set_solver.
  - destruct (decide (end_ = start)) as [->|Hne]; [left; set_solver|].
    right. by intros ?%Hfin.
  - intros p Hne Hp%Hfin. done.
  - intros p Hne Hp%Hfin. done.
Qed.

Lemma sweep_pop st f c cur q :
  inv R g0 start st -> sweep R g0 start end_ None st ->
  get (open_set st) = Some ((f, c, cur), q) -> cur <> end_ ->
  cur ∈ open_set_hash st ->
  sweep R g0 start end_ (Some cur) (remove_current cur q st).
Proof.
  intros Hinv [ ] Hget Hne Hin. split; simpl; try done.
  - intros p x Hp Hout Hex. apply s_full0; [done| |done].
    rewrite elem_of_difference, elem_of_singleton in Hout.
    intros ?. apply Hout. split; [done|]. congruence.
  - destruct s_end0 as [He|He]; [left|by right].
    rewrite elem_of_difference, elem_of_singleton. split; [done|congruence].
  - intros p Hps Hp [Hw|[= ->]]; apply s_open0; try done; left; [|done].
    by apply elem_of_difference in Hw as [? _].
  - intros p Hps Hp Hout Hex. apply s_closed0; try done.
    rewrite elem_of_difference, elem_of_singleton in Hout.
    intros ?. apply Hout. split; [done|]. congruence.
Qed.

Lemma sweep_record_better s cur nb v gn :
  inv R g0 start s -> sweep R g0 start end_ (Some cur) s ->
  g_score s !! nb = Some gn -> num_ltb (Int (v + 1)) gn = true ->
  nb <> start -> nb <> cur -> nb ∈ open_set_hash s ->
  sweep R g0 start end_ (Some cur)
    (record_better cur nb (Int (v + 1)) (Int (v + 1 + h nb end_)) s).
Proof.
  intros Hinv [ ] Hn Hlt Hns Hnc Hin.
  pose proof (waiting_finite s nb Hinv Hin) as Hnf.
  assert (forall p, finite (record_better cur nb (Int (v + 1))
                              (Int (v + 1 + h nb end_)) s) p <-> finite s p)
    as Hfin.
  { intros p. rewrite finite_record_better. split; [|by right].
    by intros [->|?]. }
  split; simpl; try done.
  - intros p x Hp Hout Hex Hpx. apply Hfin. apply Hfin in Hp. eauto.
  - destruct s_end0 as [?|He]; [by left|right]. by intros ?%Hfin.
  - intros p Hps Hp. apply s_far0; [done|]. intros Hf. by apply Hp, Hfin.
  - intros p Hps Hp. apply s_open0; [done|]. by apply Hfin.
  - intros p Hps Hp. apply s_closed0; [done|]. by apply Hfin.
Qed.

Lemma sweep_push_open s cur nb v gn :
  inv R g0 start s -> sweep R g0 start end_ (Some cur) s ->
  edge g0 cur nb ->
  g_score s !! nb = Some gn -> num_ltb (Int (v + 1)) gn = true ->
  nb <> start -> nb <> cur -> nb ∉ open_set_hash s ->
  sweep R g0 start end_ (Some cur)
    (push_open nb (Int (v + 1 + h nb end_))
       (record_better cur nb (Int (v + 1)) (Int (v + 1 + h nb end_)) s)).
Proof.
  intros Hinv [ ] He Hn Hlt Hns Hnc Hout.
  pose proof (Hnb _ _ He) as Hnbb.
  assert (forall p, finite (push_open nb (Int (v + 1 + h nb end_))
                      (record_better cur nb (Int (v + 1))
                         (Int (v + 1 + h nb end_)) s)) p
                    <-> p = nb \/ finite s p) as Hfin.
  { intros p. apply finite_record_better. }
  split; simpl.
  - by apply grid_ok_update_color.
  - intros p. unfold make_open. by rewrite nodes_update_color.
  - intros p x Hp Hnot Hex Hpx. apply Hfin. right.
    rewrite elem_of_union, elem_of_singleton in Hnot.
    apply Hfin in Hp as [->|Hp]; [tauto|].
    apply (s_full0 p x); try done. tauto.
  - destruct (decide (end_ = nb)) as [->|Hen];
      [left; by apply elem_of_union_l, elem_of_singleton|].
    destruct s_end0 as [?|Hf]; [left; by apply elem_of_union_r|right].
    by intros [?|?]%Hfin.
  - unfold make_open. by rewrite color_at_other.
  - intros p Hps Hp.
    assert (p <> nb /\ ~ finite s p) as [? ?].
    { split; intros ?; apply Hp, Hfin; tauto. }
    unfold make_open. rewrite color_at_other by done. by apply s_far0.
  - intros p Hps Hp Hw. unfold make_open.
    destruct (decide (nb = p)) as [->|Hne].
    + by apply (color_at_painted R).
    + rewrite color_at_other by done. apply s_open0; [done| |].
      * apply Hfin in Hp as [->|?]; done.
      * rewrite elem_of_union, elem_of_singleton in Hw.
        destruct Hw as [[->|?]|?]; [done|by left|by right].
  - intros p Hps Hp Hnot Hex.
    rewrite elem_of_union, elem_of_singleton in Hnot.
    unfold make_open. rewrite color_at_other by (intros ->; tauto).
    apply s_closed0; try done; [|tauto].
    apply Hfin in Hp as [->|?]; [tauto|done].
Qed.

Lemma sweep_close cur v s1 :
  inv R g0 start s1 -> g_score s1 !! cur = Some (Int v) ->
  cur ∉ open_set_hash s1 ->
  (forall nb, edge g0 cur nb -> finite s1 nb) ->
  sweep R g0 start end_ (Some cur) s1 ->
  sweep R g0 start end_ None (close_current start cur s1).
Proof.
  intros Hinv Hv Hout Hall [ ].
  assert (in_bounds R cur) as Hcb
    by (eapply finite_in_bounds; [done|by eexists]).
  assert (forall p q, finite s1 p -> p ∉ open_set_hash s1 -> edge g0 p q ->
            finite s1 q) as Hfull.
  { intros p x Hp Hnot Hpx. destruct (decide (p = cur)) as [->|Hne]; [eauto|].
    apply (s_full0 p x); try done. congruence. }
  unfold close_current. case_bool_decide as Hcs.
  - split; simpl; try done.
    + by apply grid_ok_update_color.
    + intros p. unfold make_closed. by rewrite nodes_update_color.
    + intros p x Hp Hnot _. by apply Hfull.
    + unfold make_closed. by rewrite color_at_other.
    + intros p Hps Hp. unfold make_closed.
      rewrite color_at_other; [by apply s_far0|].
      intros ->. apply Hp. by eexists.
    + intros p Hps Hp [Hw|?]; [|done]. unfold make_closed.
      rewrite color_at_other by (intros ->; done). apply s_open0; auto.
    + intros p Hps Hp Hnot _. unfold make_closed.
      destruct (decide (cur = p)) as [->|Hne].
      * by apply (color_at_painted R).
      * rewrite color_at_other by done. apply s_closed0; try done. congruence.
  - subst cur. split; simpl; try done.
    + intros p x Hp Hnot _. by apply Hfull.
    + intros p Hps Hp [Hw|?]; [|done]. apply s_open0; auto.
    + intros p Hps Hp Hnot _. apply s_closed0; try done. congruence.
Qed.

Lemma reachable_sweep st :
  reachable g0 start end_ st -> sweep R g0 start end_ None st.
Proof.
  apply (loop_ind (sweep R g0 start end_ None)
                  (fun cur => sweep R g0 start end_ (Some cur))).
  - apply sweep_init.
  - intros st0 f c cur q v Hinv Hs Hget Hne Hin _. by eapply sweep_pop.
  - intros cur v s nb gn Hs Hc He Hn Hlt Hns Hnc Hsw f s1. split; intros Hin.
    + by eapply sweep_record_better.
    + by eapply sweep_push_open.
  - intros cur v s1 Hinv Hv _ Hout Hall Hsw. by eapply sweep_close.
Qed.


(** ** The state in which the search returns *)

Lemma hash_empty st p :
  inv R g0 start st -> open_set st = [] -> p ∉ open_set_hash st.
Proof.
  intros Hinv Hq Hin. apply (inv_hash _ _ _ _ Hinv) in Hin.
  rewrite Hq in Hin. by apply elem_of_nil in Hin.
Qed.

(** Once the queue is exhausted every Cell that can be walked to has been
    discovered. *)
Lemma exhausted_finite st p :
  reachable g0 start end_ st -> open_set st = [] ->
  rtc (edge g0) start p -> finite st p.
Proof.
  intros Hr Hq Hw.
  pose proof (reachable_inv R g0 start end_ Hok Hnb Hstart st Hr) as Hinv.
  pose proof (reachable_sweep st Hr) as Hsw.
  revert p Hw. apply rtc_ind_r.
  - exists 0. apply (inv_start _ _ _ _ Hinv).
  - intros y z _ Hyz IH.
    apply (s_full _ _ _ _ _ _ Hsw y z); [done|by apply hash_empty|done|done].
Qed.

Lemma finite_walk st p :
  reachable g0 start end_ st -> finite st p -> rtc (edge g0) start p.
Proof.
  intros Hr [v Hv].
  eapply inv_reach; [by apply (reachable_inv R g0 start end_)|done].
Qed.

Lemma search_complete_edge fuel b st' :
  algorithm fuel g0 start end_ = Ok (b, st') ->
  rtc (edge g0) start end_ -> b = true.
Proof.
  intros Halg Hw. destruct b; [done|]. exfalso.
  apply (algorithm_result R g0 start end_ Hok Hnb Hstart) in Halg
    as (st & Hr & [(_ & Hq & _)|(? & _)]); [|done].
  pose proof (reachable_inv R g0 start end_ Hok Hnb Hstart st Hr) as Hinv.
  destruct (s_end _ _ _ _ _ _ (reachable_sweep st Hr)) as [Hin|Hinf].
  - by apply (hash_empty st end_) in Hin.
  - by apply Hinf, exhausted_finite.
Qed.

Lemma failure_colours fuel st' :
  algorithm fuel g0 start end_ = Ok (false, st') ->
  color_at (grid (world st')) start = color_at g0 start /\
  forall p, p <> start ->
    (rtc (edge g0) start p -> color_at (grid (world st')) p = Some RED) /\
    (~ rtc (edge g0) start p ->
       color_at (grid (world st')) p = color_at g0 p).
Proof.
  intros (st & Hr & [(_ & Hq & ->)|(? & _)])
    %(algorithm_result R g0 start end_ Hok Hnb Hstart); [|done].
  pose proof (reachable_inv R g0 start end_ Hok Hnb Hstart st Hr) as Hinv.
  pose proof (reachable_sweep st Hr) as Hsw.
  split; [apply (s_start _ _ _ _ _ _ Hsw)|]. intros p Hps. split.
  - intros Hw. apply (s_closed _ _ _ _ _ _ Hsw); try done.
    + by apply exhausted_finite.
    + by apply hash_empty.
  - intros Hw. apply (s_far _ _ _ _ _ _ Hsw); [done|].
    intros Hf. by apply Hw, (finite_walk st).
Qed.

Lemma mark_chain_keeps (P : Grid -> Prop) l w :
  (forall g c, P g -> P (update_node make_path c g)) ->
  P (grid w) -> P (grid (mark_chain l w)).
Proof.
  intros Hstep. revert w. induction l as [|c l IH]; intros w Hw; [done|].
  rewrite mark_chain_cons. apply IH. simpl. by apply Hstep.
Qed.

Lemma chain_start_in l :
  last (end_ :: l) = Some start -> start = end_ \/ start ∈ l.
Proof.
  destruct l as [|c l]; [intros [= ->]; by left|].
  rewrite last_cons_cons. intros Hl. right.
  apply last_Some in Hl as [l' ->].
  rewrite elem_of_app, list_elem_of_singleton. by right.
Qed.

(** The state [finish end_ q l st] in which a successful search returns. *)
Lemma success_state fuel st' :
  algorithm fuel g0 start end_ = Ok (true, st') ->
  exists st q l v,
    reachable g0 start end_ st /\ st' = finish end_ q l st /\
    g_score st !! end_ = Some (Int v) /\
    is_chain (came_from st) end_ l /\ last (end_ :: l) = Some start /\
    (end_ ∉ l) /\ Forall (finite st) l /\ Z.of_nat (length l) <= v /\
    path_marks (trace (world st')) = l /\
    forall p, color_at (grid (world st')) p
              = if decide (p = end_)
                then (fun _ => TURQUOISE) <$> color_at (grid (world st)) p
                else if decide (p ∈ l)
                     then (fun _ => PURPLE) <$> color_at (grid (world st)) p
                     else color_at (grid (world st)) p.
Proof.
  intros (st & Hr & [(? & _)|(_ & f & c & q & l & v & Hget & Hv & Hch & Hlast
                              & Hlen & Hall & ->)])
    %(algorithm_result R g0 start end_ Hok Hnb Hstart); [done|].
  exists st, q, l, v.
  assert (end_ ∉ l) as Hel.
  { intros Hin. rewrite Forall_forall in Hall.
    destruct (Hall _ Hin) as (vp & Hvp & Hlt).
    rewrite Hv in Hvp. injection Hvp as <-. lia. }
  split_and!; try done.
  - eapply Forall_impl; [exact Hall|]. intros p (vp & Hvp & _). by exists vp.
  - unfold finish. simpl. rewrite path_marks_cons, app_nil_r.
    rewrite path_marks_mark_chain.
    by rewrite (u_trace _ _ (reachable_unmarked R g0 start end_ Hok Hnb
                               Hstart _ Hr)).
  - intros p. unfold finish. simpl. unfold make_end.
    rewrite color_at_update_color, mark_chain_color.
    destruct (decide (end_ = p)) as [<-|Hne].
    + rewrite (decide_True (P := end_ = end_)) by done.
      by rewrite (decide_False (P := end_ ∈ l)) by done.
    + rewrite (decide_False (P := p = end_)); [done|congruence].
Qed.

Lemma success_colours fuel st' p :
  algorithm fuel g0 start end_ = Ok (true, st') -> in_bounds R p ->
  (p = end_ -> color_at (grid (world st')) p = Some TURQUOISE) /\
  (p <> end_ -> p ∈ path_marks (trace (world st')) ->
     color_at (grid (world st')) p = Some PURPLE) /\
  (p <> end_ -> p ∉ path_marks (trace (world st')) ->
     p <> start /\
     (finite st' p -> p ∈ open_set_hash st' ->
        color_at (grid (world st')) p = Some GREEN) /\
     (finite st' p -> p ∉ open_set_hash st' ->
        color_at (grid (world st')) p = Some RED) /\
     (~ finite st' p -> color_at (grid (world st')) p = color_at g0 p)).
Proof.
  intros Halg Hp.
  destruct (success_state _ _ Halg)
    as (st & q & l & v & Hr & Hst' & Hv & Hch & Hlast & Hel & Hall & _
        & Hpm & Hcol).
  pose proof (reachable_sweep st Hr) as Hsw.
  assert (is_Some (color_at (grid (world st)) p)) as [cp Hcp].
  { unfold color_at. apply fmap_is_Some.
    destruct (node_at_bounds R _ (s_ok _ _ _ _ _ _ Hsw) p Hp) as (n & -> & _).
    done. }
  rewrite Hpm. rewrite Hcol, Hcp. split_and!.
  - intros ->. by rewrite decide_True.
  - intros Hne Hin. by rewrite decide_False, decide_True.
  - intros Hne Hout. rewrite !decide_False by done. rewrite <- Hcp.
    assert (p <> start) as Hps.
    { intros ->. by destruct (chain_start_in l Hlast) as [?|?]. }
    split; [done|].
    assert (finite st' p <-> finite st p) as Hfin by (by subst st').
    assert (p ∈ open_set_hash st' <-> p ∈ open_set_hash st) as Hhash.
    { subst st'. simpl. rewrite elem_of_difference, elem_of_singleton.
      tauto. }
    split_and!.
    + intros Hf%Hfin Hw%Hhash. apply (s_open _ _ _ _ _ _ Hsw); auto.
    + intros Hf%Hfin Hw. apply (s_closed _ _ _ _ _ _ Hsw); try done.
      by intros ?%Hhash.
    + intros Hf. apply (s_far _ _ _ _ _ _ Hsw); [done|]. by intros ?%Hfin.
Qed.

(** What a search leaves of the grid it was given. *)
Lemma final_grid fuel b st' :
  algorithm fuel g0 start end_ = Ok (b, st') ->
  grid_ok R (grid (world st')) /\
  (forall p, set_color WHITE <$> node_at (grid (world st')) p
             = set_color WHITE <$> node_at g0 p) /\
  forall p, color_at (grid (world st')) p = color_at g0 p \/
    (rtc (edge g0) start p /\
     ((p <> start /\ p <> end_ /\
       (color_at (grid (world st')) p = Some GREEN \/
        color_at (grid (world st')) p = Some RED)) \/
      (b = true /\ p <> end_ /\
       color_at (grid (world st')) p = Some PURPLE) \/
      (b = true /\ p = end_ /\
       color_at (grid (world st')) p = Some TURQUOISE))).
Proof.
  intros Halg.
  assert (forall st p, reachable g0 start end_ st ->
            color_at (grid (world st)) p = color_at g0 p \/
            (finite st p /\ p <> start /\
             (color_at (grid (world st)) p = Some GREEN \/
              color_at (grid (world st)) p = Some RED))) as Hhead.
  { intros st p Hr. pose proof (reachable_sweep st Hr) as Hsw.
    destruct (decide (p = start)) as [->|Hps];
      [left; apply (s_start _ _ _ _ _ _ Hsw)|].
    destruct (g_score st !! p) as [[v|]|] eqn:E.
    - right. split; [by exists v|]. split; [done|].
      destruct (decide (p ∈ open_set_hash st)).
      + left. apply (s_open _ _ _ _ _ _ Hsw); eauto. by exists v.
      + right. apply (s_closed _ _ _ _ _ _ Hsw); eauto. by exists v.
    - left. apply (s_far _ _ _ _ _ _ Hsw); [done|]. intros [v Hv]. congruence.
    - left. apply (s_far _ _ _ _ _ _ Hsw); [done|]. intros [v Hv]. congruence. }
  destruct b.
  - destruct (success_state _ _ Halg)
      as (st & q & l & v & Hr & Hst' & Hv & Hch & Hlast & Hel & Hall & _
          & Hpm & Hcol).
    pose proof (reachable_sweep st Hr) as Hsw.
    pose proof (reachable_inv R g0 start end_ Hok Hnb Hstart st Hr) as Hinv.
    split_and!.
    + subst st'. unfold finish. simpl. apply grid_ok_update_color.
      apply mark_chain_keeps; [|apply (s_ok _ _ _ _ _ _ Hsw)].
      intros g c. apply grid_ok_update_color.
    + intros p. subst st'. unfold finish. simpl. unfold make_end.
      rewrite nodes_update_color.
      apply (mark_chain_keeps
               (fun g => set_color WHITE <$> node_at g p
                         = set_color WHITE <$> node_at g0 p));
        [|apply (s_nodes _ _ _ _ _ _ Hsw)].
      intros g c <-. apply nodes_update_color.
    + intros p. rewrite Hcol.
      assert (forall x, finite st x ->
                is_Some (color_at (grid (world st)) x)) as Hsome.
      { intros x Hx. unfold color_at. apply fmap_is_Some.
        pose proof (finite_in_bounds st x Hinv Hx) as Hxb.
        by destruct (node_at_bounds R _ (s_ok _ _ _ _ _ _ Hsw) x Hxb)
          as (n & -> & _). }
      destruct (decide (p = end_)) as [->|Hne].
      * right. split; [eapply finite_walk; [done|by exists v]|].
        right; right. split_and!; [done|done|].
        by destruct (Hsome end_ ltac:(by exists v)) as [? ->].
      * destruct (decide (p ∈ l)) as [Hin|Hout].
        -- rewrite Forall_forall in Hall. right.
           split; [eapply finite_walk; [done|by apply Hall]|].
           right; left. split_and!; [done|done|].
           by destruct (Hsome p (Hall _ Hin)) as [? ->].
        -- destruct (Hhead st p Hr) as [?|(Hf & Hps & Hc)]; [by left|right].
           split; [by eapply finite_walk|]. left. done.
  - apply (algorithm_result R g0 start end_ Hok Hnb Hstart) in Halg
      as (st & Hr & [(_ & Hq & ->)|(? & _)]); [|done].
    pose proof (reachable_sweep st Hr) as Hsw.
    split_and!; [apply (s_ok _ _ _ _ _ _ Hsw)|apply (s_nodes _ _ _ _ _ _ Hsw)|].
    intros p. destruct (Hhead st p Hr) as [?|(Hf & Hps & Hc)]; [by left|right].
    split; [by eapply finite_walk|]. left. split_and!; [done| |done].
    intros ->. destruct (s_end _ _ _ _ _ _ Hsw) as [Hin|Hinf]; [|done].
    pose proof (reachable_inv R g0 start end_ Hok Hnb Hstart st Hr) as Hinv.
    by apply (hash_empty st end_) in Hin.
Qed.


(** ** Scores only improve *)

Lemma improves_refl s : improves s s.
Proof. split_and!; [|done|lia]. intros p v Hv. exists v. split; [done|lia]. Qed.

Lemma iteration_improves fuel st st' :
  inv R g0 start st -> iteration fuel start end_ st = Ok (Continue st') ->
  improves st st'.
Proof.
  intros Hinv (f & c & cur & q & st1 & Hget & Hin & Hne & Hfold & ->)
    %iteration_Continue.
  destruct (inv_remove_current R g0 start end_ st f c cur q Hinv Hget)
    as (_ & Hinv1 & [v Hv] & _).
  assert (improves st st1) as H1.
  { apply (relax_all_ind R g0 start end_ Hnb (improves st) cur v
             (neighbors_of (grid (world st)) cur)
             (remove_current cur q st) st1 Hinv1 Hv);
      [| |exact (improves_refl st)|done].
    - apply Forall_forall. intros nb. by rewrite (inv_frame _ _ _ _ Hinv).
    - intros s nb gn Hs Hc He Hn Hlt (Hg & Hcf & Hcount) f0 s1.
      assert (improves st s1) as Hs1.
      { split_and!; simpl; [| |done].
        - intros p w Hw. destruct (Hg p w Hw) as (w' & Hw' & Hle).
          destruct (decide (p = nb)) as [->|Hpn].
          + rewrite lookup_insert_eq. exists (v + 1). split; [done|].
            rewrite Hn in Hw'. injection Hw' as ->. simpl in Hlt.
            cmp_cases; [lia|done].
          + rewrite lookup_insert_ne by done. eauto.
        - intros p Hp. destruct (decide (p = nb)) as [->|Hpn].
          + rewrite lookup_insert_eq. eauto.
          + rewrite lookup_insert_ne by done. auto. }
      split; intros _; [done|]. destruct Hs1 as (? & ? & ?).
      split_and!; simpl; [done|done|lia]. }
  unfold close_current. case_bool_decide; exact H1.
Qed.

Lemma improves_trans s1 s2 s3 :
  improves s1 s2 -> improves s2 s3 -> improves s1 s3.
Proof.
  intros (Hg & Hcf & Hc) (Hg' & Hcf' & Hc'). split_and!; [|auto|lia].
  intros p v Hv. destruct (Hg p v Hv) as (v' & Hv' & Hle).
  destruct (Hg' p v' Hv') as (v'' & Hv'' & Hle'). exists v''. split; [done|lia].
Qed.

Lemma after_improves n st :
  reachable g0 start end_ st -> improves st (after n start end_ st).
Proof.
  revert st. induction n as [|n IH]; intros st Hr; [apply improves_refl|].
  simpl. destruct (iteration 0 start end_ st) as [[st'|b st']| |] eqn:E;
    try apply improves_refl.
  eapply improves_trans; [|apply IH; by eapply reachable_next].
  eapply iteration_improves; [|done].
  by apply (reachable_inv R g0 start end_).
Qed.


End SearchMore.

(** * More on the search over a grid whose adjacency was derived *)

Lemma derived_step R (g : Grid) p q :
  grid_ok R g -> in_bounds R p -> step R g p q -> edge (derived R g) p q.
Proof.
  intros Hok Hp Hs. unfold edge. rewrite (neighbors_of_derived R g Hok p Hp).
  by apply (elem_of_expected R g Hok).
Qed.

Lemma connected_derived R (g : Grid) p q :
  grid_ok R g -> in_bounds R p -> connected R g p q ->
  rtc (edge (derived R g)) p q.
Proof.
  intros Hok Hp Hw. induction Hw as [|p r q Hpr _ IH]; [constructor|].
  eapply rtc_l; [by apply derived_step|]. apply IH.
  by destruct Hpr as (_ & ? & _).
Qed.

Lemma derived_nsteps R (g : Grid) n p q :
  grid_ok R g -> nsteps (edge (derived R g)) n p q -> nsteps (step R g) n p q.
Proof.
  intros Hok. induction 1 as [|n p r q Hpr _ IH]; [constructor|].
  eapply nsteps_l; [|exact IH]. by apply derived_edge.
Qed.

Lemma steps_back_length R (g : Grid) (s e : pos) (l : list pos) :
  steps_back (step R g) (e :: l) -> last (e :: l) = Some s ->
  h s e <= Z.of_nat (length l).
Proof.
  revert e. induction l as [|c l IH]; intros e Hsb Hlast.
  - injection Hlast as ->. by rewrite (proj2 (h_zero s s)).
  - rewrite last_cons_cons in Hlast.
    assert (step R g c e) as (Har & _) by (by apply (Hsb 0%nat)).
    assert (h s c <= Z.of_nat (length l)) as Hc.
    { apply IH; [|done]. intros i a b Ha Hb. by apply (Hsb (S i)). }
    destruct (h_around_r s c e Har); simpl length; lia.
Qed.

Ltac on_derived R g g' Hok Hg' Hok' Hnb :=
  rewrite (update_all_neighbors_inv R g g' Hok Hg') in *;
  pose proof (derived_ok R g Hok) as Hok';
  pose proof (fun p q => derived_inside R g p q Hok) as Hnb.

(** X10.  The search is complete as well as sound: it returns True exactly
    when some walk over non-Barrier Cells leads from start to end. *)
Theorem search_finds_a_walk R (g g' : Grid) (start end_ : pos) fuel b st :
  grid_ok R g -> update_all_neighbors g = Ok g' -> in_bounds R start ->
  algorithm fuel g' start end_ = Ok (b, st) ->
  (b = true <-> connected R g start end_).
Proof.
  intros Hok Hg' Hs Halg. on_derived R g g' Hok Hg' Hok' Hnb. split.
  - intros ->. apply derived_connected; [done|].
    by apply (found_connected R (derived R g) start end_ Hok' Hnb Hs fuel st).
  - intros Hw.
    apply (search_complete_edge R (derived R g) start end_ Hok' Hnb Hs
             fuel b st Halg).
    by apply connected_derived.
Qed.

(** X11.  What a failed search leaves on the screen: start keeps its
    colour; every other Cell that can be walked to from start is Closed;
    every Cell that cannot keeps the colour it had. *)
Theorem failed_search_colours R (g g' : Grid) (start end_ : pos) fuel st :
  grid_ok R g -> update_all_neighbors g = Ok g' -> in_bounds R start ->
  algorithm fuel g' start end_ = Ok (false, st) ->
  color_at (grid (world st)) start = color_at g start /\
  forall p, p <> start ->
    (connected R g start p -> color_at (grid (world st)) p = Some RED) /\
    (~ connected R g start p ->
       color_at (grid (world st)) p = color_at g p).
Proof.
  intros Hok Hg' Hs Halg. on_derived R g g' Hok Hg' Hok' Hnb.
  destruct (failure_colours R (derived R g) start end_ Hok' Hnb Hs fuel st
              Halg) as [Hcs Hcp].
  rewrite (color_at_derived R g Hok) in Hcs. split; [done|].
  intros p Hps. destruct (Hcp p Hps) as [Hred Hfar]. split.
  - intros Hw. by apply Hred, connected_derived.
  - intros Hw. rewrite <- (color_at_derived R g Hok). apply Hfar.
    intros He. by apply Hw, derived_connected.
Qed.

(** X12.  What a successful search leaves on the screen: end shows End;
    the Cells of the path show Path; of the other Cells, start is none,
    those discovered are Open if they still wait in the queue and Closed
    if they do not, and those not discovered keep the colour they had. *)
Theorem successful_search_colours R (g g' : Grid) (start end_ : pos)
    fuel st p :
  grid_ok R g -> update_all_neighbors g = Ok g' -> in_bounds R start ->
  algorithm fuel g' start end_ = Ok (true, st) -> in_bounds R p ->
  (p = end_ -> color_at (grid (world st)) p = Some TURQUOISE) /\
  (p <> end_ -> p ∈ path_marks (trace (world st)) ->
     color_at (grid (world st)) p = Some PURPLE) /\
  (p <> end_ -> p ∉ path_marks (trace (world st)) ->
     p <> start /\
     (finite st p -> p ∈ open_set_hash st ->
        color_at (grid (world st)) p = Some GREEN) /\
     (finite st p -> p ∉ open_set_hash st ->
        color_at (grid (world st)) p = Some RED) /\
     (~ finite st p -> color_at (grid (world st)) p = color_at g p)).
Proof.
  intros Hok Hg' Hs Halg Hp. on_derived R g g' Hok Hg' Hok' Hnb.
  rewrite <- (color_at_derived R g Hok).
  by apply (success_colours R (derived R g) start end_ Hok' Hnb Hs fuel).
Qed.

(** X13.  The search recolours only Cells it can walk to, and only with
    Open, Closed, Path or End; so, unless start itself is a Barrier (which
    the search does not check), the Barriers after the search are those
    before it. *)
Theorem search_keeps_barriers R (g g' : Grid) (start end_ : pos) fuel b st :
  grid_ok R g -> update_all_neighbors g = Ok g' -> in_bounds R start ->
  algorithm fuel g' start end_ = Ok (b, st) ->
  (forall p, color_at (grid (world st)) p = color_at g p \/
     (connected R g start p /\
      (color_at (grid (world st)) p = Some GREEN \/
       color_at (grid (world st)) p = Some RED \/
       color_at (grid (world st)) p = Some PURPLE \/
       color_at (grid (world st)) p = Some TURQUOISE))) /\
  (~ is_barrier_at g start ->
   forall p, is_barrier_at (grid (world st)) p <-> is_barrier_at g p).
Proof.
  intros Hok Hg' Hs Halg. on_derived R g g' Hok Hg' Hok' Hnb.
  destruct (final_grid R (derived R g) start end_ Hok' Hnb Hs fuel b st Halg)
    as (_ & _ & Hcol).
  assert (forall p, color_at (grid (world st)) p = color_at g p \/
     (connected R g start p /\
      (color_at (grid (world st)) p = Some GREEN \/
       color_at (grid (world st)) p = Some RED \/
       color_at (grid (world st)) p = Some PURPLE \/
       color_at (grid (world st)) p = Some TURQUOISE))) as Hall.
  { intros p. destruct (Hcol p) as [Hsame|[Hw Hc]].
    - left. by rewrite Hsame, (color_at_derived R g Hok).
    - right. split; [by apply derived_connected|].
      destruct Hc as [(_ & _ & [?|?])|[(_ & _ & ?)|(_ & _ & ?)]]; tauto. }
  split; [done|]. intros Hsb p. unfold is_barrier_at.
  destruct (Hall p) as [->|[Hw Hc]]; [done|]. split.
  - intros Hb. rewrite Hb in Hc. by destruct Hc as [?|[?|[?|?]]].
  - intros Hb. exfalso. apply rtc_inv_r in Hw as [->|(y & _ & _ & _ & Hfree)];
      done.
Qed.

(** X14.  The search changes colours and nothing else: the grid it leaves
    is an R-by-R grid, and each of its Nodes is the Node the search was
    given, with the same position, coordinates, size and neighbors, up
    to its colour. *)
Theorem search_changes_colours_only R (g g' : Grid) (start end_ : pos)
    fuel b st :
  grid_ok R g -> update_all_neighbors g = Ok g' -> in_bounds R start ->
  algorithm fuel g' start end_ = Ok (b, st) ->
  grid_ok R (grid (world st)) /\
  forall p n, node_at g' p = Some n ->
    exists c, node_at (grid (world st)) p = Some (set_color c n).
Proof.
  intros Hok Hg' Hs Halg. on_derived R g g' Hok Hg' Hok' Hnb.
  destruct (final_grid R (derived R g) start end_ Hok' Hnb Hs fuel b st Halg)
    as (Hgrid & Hnodes & _).
  split; [done|]. intros p n Hn. specialize (Hnodes p). rewrite Hn in Hnodes.
  destruct (node_at (grid (world st)) p) as [n'|]; [|done].
  exists (color n'). f_equal. destruct n, n'.
  by injection Hnodes as -> -> -> -> -> -> ->.
Qed.

(** X15.  The path a successful search marks is a walk: the Cells
    [reconstruct_path] visits from end are each one step, onto a Cell
    that is not a Barrier, from the Cell visited next; no Cell is visited
    twice; the last one is start; and their number is at least the
    Manhattan distance and at most the score of end. *)
Theorem marked_path_is_a_walk R (g g' : Grid) (start end_ : pos) fuel st :
  grid_ok R g -> update_all_neighbors g = Ok g' -> in_bounds R start ->
  algorithm fuel g' start end_ = Ok (true, st) ->
  steps_back (step R g) (end_ :: path_marks (trace (world st))) /\
  NoDup (end_ :: path_marks (trace (world st))) /\
  last (end_ :: path_marks (trace (world st))) = Some start /\
  h start end_ <= Z.of_nat (length (path_marks (trace (world st)))) /\
  exists v, g_score st !! end_ = Some (Int v) /\
            Z.of_nat (length (path_marks (trace (world st)))) <= v.
Proof.
  intros Hok Hg' Hs Halg. on_derived R g g' Hok Hg' Hok' Hnb.
  destruct (success_state R (derived R g) start end_ Hok' Hnb Hs _ _ Halg)
    as (s & q & l & v & Hr & -> & Hv & Hch & Hlast & Hel & _ & Hlen & -> & _).
  pose proof (reachable_inv R _ start end_ Hok' Hnb Hs s Hr) as Hinv.
  pose proof (reachable_tracks R _ start end_ Hok' Hnb Hs s Hr) as Htr.
  assert (steps_back (step R g) (end_ :: l)) as Hsb.
  { apply (chain_steps_back _ _ _ _ Hch). intros n c Hc.
    apply (derived_edge R g c n Hok). by apply (k_edge _ _ _ _ Htr). }
  split_and!; [done| |done|by eapply steps_back_length|by exists v].
  destruct (came_from_sound R _ start s Hinv) as (_ & _ & Hchains).
  destruct (decide (is_Some (came_from s !! end_))) as [Hsome|Hnone].
  - destruct (Hchains end_ Hsome) as (l' & Hch' & _ & Hnd & _).
    by rewrite (chain_unique _ _ _ _ Hch Hch').
  - inversion Hch; subst; [apply NoDup_singleton|]. destruct Hnone. eauto.
Qed.

(** X16.  Whenever the loop tests its condition, the two score maps have
    the Cells of the grid as keys, and the f_score of every Cell is its
    g_score plus the heuristic distance to end (infinite when the g_score
    is). *)
Theorem f_score_is_g_plus_h R (g g' : Grid) (start end_ : pos) st p :
  grid_ok R g -> update_all_neighbors g = Ok g' -> in_bounds R start ->
  reachable g' start end_ st ->
  (is_Some (g_score st !! p) <-> in_bounds R p) /\
  (is_Some (f_score st !! p) <-> in_bounds R p) /\
  f_score st !! p
  = (fun gp => num_add gp (Int (h p end_))) <$> g_score st !! p.
Proof.
  intros Hok Hg' Hs Hr. on_derived R g g' Hok Hg' Hok' Hnb.
  pose proof (reachable_inv R _ start end_ Hok' Hnb Hs st Hr) as Hinv.
  pose proof (reachable_tracks R _ start end_ Hok' Hnb Hs st Hr) as Htr.
  pose proof (k_f _ _ _ _ Htr p) as Hf.
  split_and!; [apply (inv_keys _ _ _ _ Hinv)| |done].
  rewrite Hf, fmap_is_Some. apply (inv_keys _ _ _ _ Hinv).
Qed.

(** X17.  A finite g_score is the length of a walk: whenever the loop
    tests its condition, a Cell with score v is reached from start by a
    walk of exactly v steps over non-Barrier Cells, so that v is at least
    the Manhattan distance from start; and every recorded predecessor is
    one step away from the Cell it is recorded for. *)
Theorem g_score_is_a_walk_length R (g g' : Grid) (start end_ : pos) st :
  grid_ok R g -> update_all_neighbors g = Ok g' -> in_bounds R start ->
  reachable g' start end_ st ->
  (forall p v, g_score st !! p = Some (Int v) ->
     0 <= v /\ nsteps (step R g) (Z.to_nat v) start p /\ h start p <= v) /\
  (forall n c, came_from st !! n = Some c -> step R g c n).
Proof.
  intros Hok Hg' Hs Hr. on_derived R g g' Hok Hg' Hok' Hnb.
  pose proof (reachable_inv R _ start end_ Hok' Hnb Hs st Hr) as Hinv.
  pose proof (reachable_tracks R _ start end_ Hok' Hnb Hs st Hr) as Htr.
  split.
  - intros p v Hv. pose proof (inv_nonneg _ _ _ _ Hinv _ _ Hv) as Hv0.
    assert (nsteps (step R g) (Z.to_nat v) start p) as Hw.
    { apply derived_nsteps; [done|]. by apply (k_walk _ _ _ _ Htr). }
    split_and!; [done|done|]. apply h_walk in Hw. lia.
  - intros n c Hc. apply (derived_edge R g c n Hok).
    by apply (k_edge _ _ _ _ Htr).
Qed.

(** X18.  [open_set_hash] mirrors the queue: whenever the loop tests its
    condition, the Cells of [open_set_hash] are those of the entries of
    the queue, no Cell has two entries, and every Cell that waits is a
    discovered Cell of the grid whose entry has a finite priority, not
    below the f_score the Cell has now (but for the entry that line 120
    puts for start, with priority 0). *)
Theorem open_set_mirrors_hash R (g g' : Grid) (start end_ : pos) st :
  grid_ok R g -> update_all_neighbors g = Ok g' -> in_bounds R start ->
  reachable g' start end_ st ->
  (forall p, p ∈ open_set_hash st <->
             exists e, e ∈ open_set st /\ node e = p) /\
  NoDup (node <$> open_set st) /\
  forall e, e ∈ open_set st ->
    in_bounds R (node e) /\
    exists fe v, prio e = Int fe /\ g_score st !! node e = Some (Int v) /\
      (node e <> start ->
         f_score st !! node e = Some (Int (v + h (node e) end_)) /\
         v + h (node e) end_ <= fe).
Proof.
  intros Hok Hg' Hs Hr. on_derived R g g' Hok Hg' Hok' Hnb.
  pose proof (reachable_inv R _ start end_ Hok' Hnb Hs st Hr) as Hinv.
  pose proof (reachable_tracks R _ start end_ Hok' Hnb Hs st Hr) as Htr.
  split_and!.
  - intros p. rewrite (inv_hash _ _ _ _ Hinv), list_elem_of_fmap.
    split; intros (e & ? & ?); exists e; done.
  - apply (inv_nodup _ _ _ _ Hinv).
  - intros e He. pose proof (inv_fin _ _ _ _ Hinv) as Hfin.
    rewrite Forall_forall in Hfin. destruct (Hfin e He) as [[fe Hfe] [v Hv]].
    split; [apply (inv_keys _ _ _ _ Hinv); by rewrite Hv|].
    exists fe, v. split_and!; [done|done|]. intros Hne.
    destruct (k_prio _ _ _ _ Htr e He Hne) as (fe' & v' & Hfe' & Hv' & Hle).
    rewrite Hfe in Hfe'. injection Hfe' as <-.
    rewrite Hv in Hv'. injection Hv' as <-.
    split; [|done]. by rewrite (k_f _ _ _ _ Htr), Hv.
Qed.

(** X19.  Scores only improve: from a state in which the loop tests its
    condition to the state any number of passes later, no finite g_score
    grows, no Cell loses its predecessor, and [count] does not
    decrease. *)
Theorem scores_only_improve R (g g' : Grid) (start end_ : pos) st (n : nat) :
  grid_ok R g -> update_all_neighbors g = Ok g' -> in_bounds R start ->
  reachable g' start end_ st ->
  (forall p v, g_score st !! p = Some (Int v) ->
     exists v', g_score (after n start end_ st) !! p = Some (Int v') /\
                v' <= v) /\
  (forall p, is_Some (came_from st !! p) ->
             is_Some (came_from (after n start end_ st) !! p)) /\
  count st <= count (after n start end_ st).
Proof.
  intros Hok Hg' Hs Hr. on_derived R g g' Hok Hg' Hok' Hnb.
  by apply (after_improves R (derived R g) start end_ Hok' Hnb Hs).
Qed.

(** * The event loop of [main] *)

Lemma getitem_Ok {A} (l : list A) (i : Z) (a : A) :
  getitem l i = Ok a -> exists j : nat, l !! j = Some a.
Proof.
  unfold getitem. destruct (_ && _); [|done].
  destruct (l !! _) as [b|] eqn:E; [|done]. intros [= <-]. eauto.
Qed.

Lemma grid_getitem_Ok R (g : Grid) (r c : Z) (n : Node) :
  grid_ok R g -> grid_getitem g r c = Ok n ->
  in_bounds R (get_pos n) /\ node_at g (get_pos n) = Some n.
Proof.
  intros Hok (rw & [i Hi]%getitem_Ok & [j Hj]%getitem_Ok)%bind_Ok.
  assert (node_at g (Z.of_nat i, Z.of_nat j) = Some n) as Hat
    by (by rewrite node_at_nat, Hi).
  destruct (node_at_inv R g Hok _ _ Hat) as (Hb & Hp & _).
  by rewrite Hp.
Qed.

Lemma clicked_node R (g : Grid) (r c : Z) (n : Node) :
  grid_ok R g -> grid_getitem g r c = Ok n ->
  in_bounds R (get_pos n) /\ is_Some (color_at g (get_pos n)).
Proof.
  intros Hok Hn. destruct (grid_getitem_Ok R g r c n Hok Hn) as [Hb Hat].
  split; [done|]. unfold color_at. rewrite Hat. by eexists.
Qed.

Lemma tidy_distinct m s e :
  tidy m -> m_start m = Some s -> m_end m = Some e -> s <> e.
Proof.
  intros [ ] Hs He ->. specialize (t_end0 _ He).
  destruct (t_start0 _ Hs) as [E|E]; by rewrite E in t_end0.
Qed.

Ltac unpaint := unfold make_start, make_end, make_barrier, reset.

Lemma painted_colour c p (g : Grid) q col :
  is_Some (color_at g p) ->
  color_at (update_node (set_color c) p g) q = Some col ->
  (q = p /\ col = c) \/ (q <> p /\ color_at g q = Some col).
Proof.
  intros [c0 Hc0]. rewrite color_at_update_color. case_decide as E.
  - subst q. rewrite Hc0. intros [= <-]. by left.
  - intros Hq. right. split; [congruence|done].
Qed.

Lemma tidy_left_click w ev m m' :
  tidy m -> left_click w ev m = Ok m' -> tidy m'.
Proof.
  intros Ht (rc & _ & (n & Hn & H)%bind_Ok)%bind_Ok.
  pose proof Ht as [ ].
  destruct (clicked_node ROWS _ _ _ _ t_grid0 Hn) as [Hb Hc].
  set (p := get_pos n) in *. cbn zeta in H.
  destruct (bool_decide (m_start m = None) && bool_decide (Some p <> m_end m))
    eqn:E1.
  { apply andb_true_iff in E1 as [Hs He].
    apply bool_decide_eq_true in Hs, He. injection H as <-.
    split; simpl; unpaint.
    - by apply grid_ok_update_color.
    - intros s [= <-]. left. by apply (color_at_painted ROWS).
    - intros e Hee. rewrite color_at_other by congruence. auto.
    - intros q [[-> _]|[_ Hq%t_orange0]]%painted_colour; [done|congruence|done].
    - intros q [[_ ?]|[_ Hq]]%painted_colour; [done|auto|done]. }
  destruct (bool_decide (m_end m = None) && bool_decide (Some p <> m_start m))
    eqn:E2.
  { apply andb_true_iff in E2 as [He Hs].
    apply bool_decide_eq_true in Hs, He. injection H as <-.
    split; simpl; unpaint.
    - by apply grid_ok_update_color.
    - intros s Hss. rewrite color_at_other by congruence. auto.
    - intros e [= <-]. by apply (color_at_painted ROWS).
    - intros q [[_ ?]|[_ Hq]]%painted_colour; [done|auto|done].
    - intros q [[-> _]|[_ Hq%t_turquoise0]]%painted_colour;
        [done|congruence|done]. }
  destruct (bool_decide (Some p <> m_end m)
            && bool_decide (Some p <> m_start m)) eqn:E3;
    [|by injection H as <-].
  apply andb_true_iff in E3 as [He Hs].
  apply bool_decide_eq_true in Hs, He. injection H as <-.
  split; simpl; unpaint.
  - by apply grid_ok_update_color.
  - intros s Hss. rewrite color_at_other by congruence. auto.
  - intros e Hee. rewrite color_at_other by congruence. auto.
  - intros q [[_ ?]|[_ Hq]]%painted_colour; [done|auto|done].
  - intros q [[_ ?]|[_ Hq]]%painted_colour; [done|auto|done].
Qed.

Lemma tidy_right_click w ev m m' :
  tidy m -> right_click w ev m = Ok m' -> tidy m'.
Proof.
  intros Ht (rc & _ & (n & Hn & H)%bind_Ok)%bind_Ok.
  pose proof Ht as [ ].
  destruct (clicked_node ROWS _ _ _ _ t_grid0 Hn) as [Hb Hc].
  set (p := get_pos n) in *. cbn zeta in H.
  assert (forall q col, col <> WHITE ->
            color_at (update_node reset p (m_grid m)) q = Some col ->
            q <> p /\ color_at (m_grid m) q = Some col) as Hkeep.
  { intros q col Hcol. unpaint.
    by intros [[_ ?]|?]%painted_colour. }
  case_bool_decide as Hs; [|case_bool_decide as He]; injection H as <-;
    (split; simpl; [by apply grid_ok_update_color|..]).
  - done.
  - intros e Hee. unpaint. rewrite color_at_other; [auto|].
    intros ->. by apply (tidy_distinct m e e).
  - intros q [Hq Hcq]%Hkeep; [|done]. apply t_orange0 in Hcq. congruence.
  - intros q [Hq Hcq]%Hkeep; [|done]. auto.
  - intros s Hss. unpaint. rewrite color_at_other by congruence. auto.
  - done.
  - intros q [Hq Hcq]%Hkeep; [|done]. auto.
  - intros q [Hq Hcq]%Hkeep; [|done]. apply t_turquoise0 in Hcq. congruence.
  - intros s Hss. unpaint. rewrite color_at_other by congruence. auto.
  - intros e Hee. unpaint. rewrite color_at_other by congruence. auto.
  - intros q [Hq Hcq]%Hkeep; [|done]. auto.
  - intros q [Hq Hcq]%Hkeep; [|done]. auto.
Qed.

Lemma make_grid_fresh (w : Z) (g : Grid) :
  make_grid ROWS w = Ok g ->
  grid_ok ROWS g /\ forall p c, color_at g p = Some c -> c = WHITE.
Proof.
  intros Hg. split.
  - by apply (make_grid_grid_ok ROWS w g).
  - intros p c. unfold color_at.
    destruct (node_at g p) as [n|] eqn:E; [|done]. intros [= <-].
    by destruct (make_grid_Ok ROWS w g p n Hg E) as (_ & _ & ->).
Qed.

Lemma tidy_fresh (w : Z) (g : Grid) (run : bool) :
  make_grid ROWS w = Ok g ->
  tidy {| m_grid := g; m_start := None; m_end := None; m_run := run |}.
Proof.
  intros [Hok Hwhite]%make_grid_fresh. split; simpl; try done.
  - by intros p ?%Hwhite.
  - by intros p ?%Hwhite.
Qed.

Lemma tidy_search fuel m s e g' b st :
  tidy m -> m_start m = Some s -> m_end m = Some e ->
  update_all_neighbors (m_grid m) = Ok g' ->
  algorithm fuel g' s e = Ok (b, st) ->
  tidy {| m_grid := grid (world st); m_start := m_start m;
          m_end := m_end m; m_run := m_run m |}.
Proof.
  intros Ht Hs He Hg' Halg. pose proof (tidy_distinct m s e Ht Hs He) as Hse.
  destruct Ht.
  rewrite (update_all_neighbors_inv ROWS _ g' t_grid0 Hg') in Halg.
  assert (in_bounds ROWS s) as Hsb.
  { destruct (t_start0 s Hs) as [E|E];
      by apply (color_at_in_bounds ROWS _ _ _ t_grid0 E). }
  destruct (final_grid ROWS (derived ROWS (m_grid m)) s e
              (derived_ok ROWS _ t_grid0)
              (fun p q => derived_inside ROWS _ p q t_grid0) Hsb fuel b st Halg)
    as (Hok & _ & Hcol).
  assert (forall p, color_at (grid (world st)) p = color_at (m_grid m) p \/
            (p <> s /\ p <> e /\
             (color_at (grid (world st)) p = Some GREEN \/
              color_at (grid (world st)) p = Some RED)) \/
            (p <> e /\ color_at (grid (world st)) p = Some PURPLE) \/
            (p = e /\ color_at (grid (world st)) p = Some TURQUOISE)) as Hc.
  { intros p. destruct (Hcol p) as [E|[_ H]].
    - left. by rewrite E, (color_at_derived ROWS _ t_grid0).
    - right. destruct H as [?|[(_ & ? & ?)|(_ & ? & ?)]]; auto. }
  split; simpl; [done|..].
  - intros s' Hs'. rewrite Hs in Hs'. injection Hs' as <-.
    destruct (Hc s) as [->|[(? & _)|[(_ & ?)|(? & _)]]]; auto; done.
  - intros e' He'. rewrite He in He'. injection He' as <-.
    destruct (Hc e) as [->|[(_ & ? & _)|[(? & _)|(_ & ?)]]]; auto; done.
  - intros p Hp.
    destruct (Hc p) as [E|[(_ & _ & [E|E])|[(_ & E)|(_ & E)]]];
      rewrite Hp in E; try done. apply t_orange0. by rewrite <- E.
  - intros p Hp.
    destruct (Hc p) as [E|[(_ & _ & [E|E])|[(_ & E)|(-> & E)]]];
      try (rewrite Hp in E; done).
    apply t_turquoise0. by rewrite <- E, Hp.
Qed.

Lemma tidy_key_down fuel w key m m' :
  tidy m -> key_down fuel w key m = Ok m' -> tidy m'.
Proof.
  intros Ht (m1 & H1 & H2)%bind_Ok.
  assert (tidy m1) as Ht1.
  { destruct key, (m_start m) as [s|] eqn:Es, (m_end m) as [e|] eqn:Ee;
      try (by injection H1 as <-).
    apply bind_Ok in H1 as (g' & Hg' & ([b st] & Halg & [= <-])%bind_Ok).
    rewrite <- Es, <- Ee. by eapply tidy_search. }
  destruct key; try (by injection H2 as <-).
  apply bind_Ok in H2 as (g & Hg & [= <-]). by eapply tidy_fresh.
Qed.

Lemma tidy_handle_event fuel w ev m m' :
  tidy m -> handle_event fuel w ev m = Ok m' -> tidy m'.
Proof.
  intros Ht (m1 & H1 & H2)%bind_Ok.
  assert (tidy match ev_type ev with
               | QUIT => {| m_grid := m_grid m; m_start := m_start m;
                            m_end := m_end m; m_run := false |}
               | _ => m
               end) as Ht0.
  { destruct (ev_type ev); try done. by destruct Ht. }
  assert (tidy m1) as Ht1.
  { destruct (left_pressed ev); [by eapply tidy_left_click|].
    destruct (right_pressed ev); [by eapply tidy_right_click|].
    by injection H1 as <-. }
  destruct (ev_type ev); try (by injection H2 as <-).
  by eapply tidy_key_down.
Qed.

Lemma tidy_events fuel w events m m' :
  tidy m -> foldM (handle_event fuel w) events m = Ok m' -> tidy m'.
Proof.
  revert m. induction events as [|ev events IH]; intros m Ht; simpl.
  - by intros [= <-].
  - intros (m1 & H1 & H2)%bind_Ok. apply (IH m1); [|done].
    by eapply tidy_handle_event.
Qed.

Lemma tidy_event_loop fuel w frames m m' :
  tidy m -> event_loop fuel w frames m = Ok m' -> tidy m'.
Proof.
  revert m. induction frames as [|events frames IH]; intros m Ht; simpl.
  - by intros [= <-].
  - destruct (m_run m); [|by intros [= <-]].
    intros (m1 & H1 & H2)%bind_Ok. apply (IH m1); [|done].
    by eapply tidy_events.
Qed.

Lemma main_tidy fuel w frames m : main fuel w frames = Ok m -> tidy m.
Proof.
  intros (g & Hg & Hloop)%bind_Ok.
  eapply tidy_event_loop; [|exact Hloop]. by eapply tidy_fresh.
Qed.

(** X20.  What [main] keeps true, whatever the events: the grid stays a
    50-by-50 grid; the Cell [start] refers to shows Start (or Path, once
    a search has run through it) and no other Cell shows Start; the Cell
    [end] refers to shows End and no other Cell does; so [start] and
    [end], when both are set, are two different Cells of the grid,
    neither of them a Barrier: the search is never started from a
    Barrier, towards a Barrier, or from a Cell to itself. *)
Theorem main_keeps_start_and_end (fuel : nat) (w : Z)
    (frames : list (list Event)) (m : Locals) :
  main fuel w frames = Ok m ->
  grid_ok ROWS (m_grid m) /\
  (forall s, m_start m = Some s ->
     in_bounds ROWS s /\
     (color_at (m_grid m) s = Some ORANGE \/
      color_at (m_grid m) s = Some PURPLE)) /\
  (forall e, m_end m = Some e ->
     in_bounds ROWS e /\ color_at (m_grid m) e = Some TURQUOISE) /\
  (forall p, color_at (m_grid m) p = Some ORANGE -> m_start m = Some p) /\
  (forall p, color_at (m_grid m) p = Some TURQUOISE -> m_end m = Some p) /\
  (forall s e, m_start m = Some s -> m_end m = Some e ->
     s <> e /\ ~ is_barrier_at (m_grid m) s /\ ~ is_barrier_at (m_grid m) e).
Proof.
  intros Ht%main_tidy. pose proof Ht as [ ]. split_and!; try done.
  - intros s Hs. split; [|auto].
    destruct (t_start0 s Hs) as [E|E];
      by apply (color_at_in_bounds ROWS _ _ _ t_grid0 E).
  - intros e He. split; [|auto].
    by apply (color_at_in_bounds ROWS _ _ _ t_grid0 (t_end0 e He)).
  - intros s e Hs He. split; [by eapply tidy_distinct|].
    unfold is_barrier_at. rewrite (t_end0 e He).
    split; [|done]. by destruct (t_start0 s Hs) as [-> | ->].
Qed.

(** ** The loop raises nothing *)









(** * Nodes and their statuses *)

(** X22.  The colours that stand for statuses are all different: of the
    five tests [is_closed], [is_open], [is_barrier], [is_start] and
    [is_end] at most one holds of a Node, whatever its colour; each
    [make_...] method makes its own test hold and no other ([make_path]
    and [reset] make none hold); and none of these methods changes the
    position, the coordinates or the neighbors of the Node. *)
Theorem node_status_exclusive (n : Node) :
  (sum_list ((fun b : bool => if b then 1 else 0)%nat <$> statuses n)
   <= 1)%nat /\
  statuses (make_closed n) = [true; false; false; false; false] /\
  statuses (make_open n) = [false; true; false; false; false] /\
  statuses (make_barrier n) = [false; false; true; false; false] /\
  statuses (make_start n) = [false; false; false; true; false] /\
  statuses (make_end n) = [false; false; false; false; true] /\
  statuses (make_path n) = [false; false; false; false; false] /\
  statuses (reset n) = [false; false; false; false; false] /\
  Forall (fun f : Node -> Node =>
            get_pos (f n) = get_pos n /\ neighbors (f n) = neighbors n /\
            (x (f n), y (f n), width (f n), total_rows (f n))
            = (x n, y n, width n, total_rows n))
         [make_closed; make_open; make_barrier; make_start; make_end;
          make_path; reset].
Proof.
  split_and!; try done.
  - unfold statuses, is_closed, is_open, is_barrier, is_start, is_end.
    repeat case_bool_decide; simpl; try lia;
      repeat match goal with
             | H : color n = _, H' : color n = _ |- _ =>
                 rewrite H in H'; try done; clear H'
             end.
  - repeat constructor.
Qed.

(** * The order of the neighbors *)

(** X23.  The adjacency pass lists the neighbors of a Cell in the order
    in which [update_neighbors] probes them, down, up, right, left: the
    list is what remains of these four positions, in this order, when the
    positions outside the grid and the Barriers are left out. *)
Theorem neighbors_in_order R (g g' : Grid) (p : pos) :
  grid_ok R g -> update_all_neighbors g = Ok g' -> in_bounds R p ->
  neighbors_of g' p
  = List.filter (fun q => inside R q && free g q)
      [(p.1 + 1, p.2); (p.1 - 1, p.2); (p.1, p.2 + 1); (p.1, p.2 - 1)].
Proof.
  intros Hok Hg' Hp. rewrite (update_all_neighbors_inv R g g' Hok Hg').
  by rewrite (neighbors_of_derived R g Hok p Hp).
Qed.

(** * Searching again *)

Lemma final_barriers R (g0 : Grid) (start end_ : pos) fuel b st :
  grid_ok R g0 ->
  (forall p q, q ∈ neighbors_of g0 p -> in_bounds R q) ->
  (forall p q, q ∈ neighbors_of g0 p -> ~ is_barrier_at g0 q) ->
  in_bounds R start -> ~ is_barrier_at g0 start ->
  algorithm fuel g0 start end_ = Ok (b, st) ->
  forall p, is_barrier_at (grid (world st)) p <-> is_barrier_at g0 p.
Proof.
  intros Hok Hnb Hfree Hs Hsb Halg p.
  destruct (final_grid R g0 start end_ Hok Hnb Hs fuel b st Halg)
    as (_ & _ & Hcol).
  unfold is_barrier_at. destruct (Hcol p) as [->|[Hw Hc]]; [done|]. split.
  - intros Hb. rewrite Hb in Hc.
    by destruct Hc as [(_ & _ & [?|?])|[(_ & _ & ?)|(_ & _ & ?)]].
  - intros Hb. exfalso. apply rtc_inv_r in Hw as [->|(y & _ & Hy)]; [done|].
    by apply (Hfree y p).
Qed.

(** X24.  Searching again gives the same result: on the grid a search
    has left, with its Open, Closed and Path marks, a second search from
    the same start to the same end (start not being a Barrier) returns
    the same answer, opens and closes the same Cells in the same order,
    and marks the same path. *)
Theorem search_again_same_result R (g g' g2 : Grid) (start end_ : pos)
    fuel b st fuel2 b2 st2 :
  grid_ok R g -> update_all_neighbors g = Ok g' -> in_bounds R start ->
  ~ is_barrier_at g start ->
  algorithm fuel g' start end_ = Ok (b, st) ->
  update_all_neighbors (grid (world st)) = Ok g2 ->
  algorithm fuel2 g2 start end_ = Ok (b2, st2) ->
  b2 = b /\
  open_closed (trace (world st2)) = open_closed (trace (world st)) /\
  path_marks (trace (world st2)) = path_marks (trace (world st)).
Proof.
  intros Hok Hg' Hs Hsb Halg Hg2 Halg2. on_derived R g g' Hok Hg' Hok' Hnb.
  destruct (final_grid R (derived R g) start end_ Hok' Hnb Hs fuel b st Halg)
    as (Hokf & _ & _).
  assert (forall p, is_barrier_at (grid (world st)) p <-> is_barrier_at g p)
    as Hbar.
  { intros p. unfold is_barrier_at at 2.
    rewrite <- (color_at_derived R g Hok).
    apply (final_barriers R (derived R g) start end_ fuel b st); try done.
    - intros x q Hq. unfold is_barrier_at.
      rewrite (color_at_derived R g Hok).
      by apply (derived_edge R g x q Hok) in Hq as (_ & _ & ?).
    - unfold is_barrier_at. by rewrite (color_at_derived R g Hok). }
  rewrite (update_all_neighbors_inv R _ g2 Hokf Hg2) in Halg2.
  assert (sim (init (derived R (grid (world st))) start end_)
              (init (derived R g) start end_)) as Hsim.
  { assert (all_inf (derived R (grid (world st))) = all_inf (derived R g))
      as Hall.
    { apply map_eq. intros p.
      rewrite (all_inf_lookup R _ p (derived_ok R _ Hokf)).
      by rewrite (all_inf_lookup R _ p Hok'). }
    unfold sim, init. simpl. rewrite Hall. split_and!; try done.
    split_and!; simpl; [|done|done].
    by apply same_barriers_same_neighbors. }
  unfold algorithm in Halg, Halg2.
  destruct (sim_while_open_set _ _ _ _ _ _ _ Hsim Halg2) as (t & Ht & Hsim').
  pose proof (while_open_set_agree _ _ _ _ _ _ _ Halg Ht) as [= -> ->].
  split; [done|]. by destruct Hsim' as (_ & _ & _ & _ & _ & _ & _ & ? & ?).
Qed.

(** * Undoing a click *)

Lemma update_node_undo (f f0 : Node -> Node) (p : pos) (g : Grid) (n : Node) :
  node_at g p = Some n -> f (f0 n) = n ->
  update_node f p (update_node f0 p g) = g.
Proof.
  unfold node_at, update_node. destruct (_ && _); [|done].
  intros Hn Hf. rewrite list_alter_alter_eq.
  destruct (g !! Z.to_nat p.1) as [rw|] eqn:Hrw; [|done]. simpl in Hn.
  transitivity (alter id (Z.to_nat p.1) g); [|by apply list_alter_id].
  apply list_alter_ext; [|done]. intros rw' Hrw'.
  rewrite Hrw in Hrw'. injection Hrw' as <-.
  unfold compose. rewrite list_alter_alter_eq.
  transitivity (alter id (Z.to_nat p.2) rw); [|by apply list_alter_id].
  apply list_alter_ext; [|done]. intros n' Hn'.
  rewrite Hn in Hn'. injection Hn' as <-. done.
Qed.

(** X25.  A right click undoes a Barrier: with start and end both set,
    a left click on a white Cell of the grid makes it a Barrier and
    changes nothing else, and a right click on the same Cell gives back
    the grid, start and end of before. *)
Theorem right_click_undoes_barrier (w : Z) (ev : Event) (m : Locals)
    (rc : Z * Z) :
  tidy m -> is_Some (m_start m) -> is_Some (m_end m) ->
  get_clicked_pos (mouse_pos ev) ROWS w = Ok rc ->
  color_at (m_grid m) rc = Some WHITE ->
  exists m1, left_click w ev m = Ok m1 /\
    m_grid m1 = update_node make_barrier rc (m_grid m) /\
    is_barrier_at (m_grid m1) rc /\
    m_start m1 = m_start m /\ m_end m1 = m_end m /\
    right_click w ev m1 = Ok m.
Proof.
  intros Ht [s Hs] [e He] Hrc Hwhite.
  pose proof (t_grid m Ht) as Hok.
  pose proof (color_at_in_bounds ROWS _ _ _ Hok Hwhite) as Hb.
  destruct rc as [r c].
  destruct (grid_getitem_inside ROWS _ Hok r c Hb) as (n & Hat & Hn).
  destruct (node_at_inv ROWS _ Hok _ _ Hat) as (_ & Hpos & _).
  assert (color n = WHITE) as Hcn.
  { unfold color_at in Hwhite. rewrite Hat in Hwhite. by injection Hwhite. }
  assert ((r, c) <> s) as Hns.
  { intros <-. destruct (t_start m Ht _ Hs) as [E|E]; by rewrite E in Hwhite. }
  assert ((r, c) <> e) as Hne.
  { intros <-. by rewrite (t_end m Ht _ He) in Hwhite. }
  eexists. split_and!.
  - unfold left_click. rewrite Hrc. cbn [bind fst snd]. rewrite Hn.
    cbn [bind]. cbn zeta. rewrite Hpos, Hs, He.
    rewrite (bool_decide_eq_false_2 (Some s = None)) by done.
    rewrite (bool_decide_eq_false_2 (Some e = None)) by done.
    rewrite !andb_false_l.
    rewrite (bool_decide_eq_true_2 (Some (r, c) <> Some e)) by congruence.
    rewrite (bool_decide_eq_true_2 (Some (r, c) <> Some s)) by congruence.
    cbn [andb]. reflexivity.
  - done.
  - simpl. by apply (color_at_painted ROWS).
  - done.
  - done.
  - unfold right_click. rewrite Hrc. cbn [bind fst snd m_grid].
    assert (grid_ok ROWS (update_node make_barrier (r, c) (m_grid m)))
      as Hok1 by (by apply grid_ok_update_color).
    destruct (grid_getitem_inside ROWS _ Hok1 r c Hb) as (n1 & Hat1 & ->).
    destruct (node_at_inv ROWS _ Hok1 _ _ Hat1) as (_ & Hpos1 & _).
    cbn [bind]. cbn zeta. rewrite Hpos1. cbn [m_start m_end m_grid m_run].
    rewrite (bool_decide_eq_false_2 (Some (r, c) = Some s)) by congruence.
    rewrite (bool_decide_eq_false_2 (Some (r, c) = Some e)) by congruence.
    rewrite (update_node_undo reset make_barrier (r, c) (m_grid m) n Hat).
    + rewrite <- Hs, <- He. by destruct m.
    + destruct n. simpl in Hcn. subst. done.
Qed.

(** * Witnesses of the further properties *)

Lemma ring3_ok : grid_ok 3 ring3.
Proof. apply grid_okb_sound. vm_compute. reflexivity. Qed.

Lemma click_finds_drawn_node_witness :
  covers (Node_draw (Node_init 1 0 10 2)).2 (13, 4) <->
  get_clicked_pos (13, 4) 2 20 = Ok (get_pos (Node_init 1 0 10 2)).
Proof.
  apply (click_finds_drawn_node 2 20 fresh2 (1, 0));
    [lia|reflexivity|reflexivity].
Defined.

Lemma clicks_and_bounds_witness :
  (0 <= 505 < 50 ->
     forall pt, get_clicked_pos pt 50 505 = Raise ZeroDivisionError) /\
  (50 <= 505 ->
     ((forall px py, 0 <= px < 505 -> 0 <= py < 505 ->
         exists p, get_clicked_pos (px, py) 50 505 = Ok p /\ in_bounds 50 p)
      <-> 505 mod 50 = 0) /\
     (505 mod 50 <> 0 ->
        exists r, get_clicked_pos (505 - 1, 0) 50 505 = Ok (r, 0) /\
          50 <= r /\
          forall g, grid_ok 50 g -> grid_getitem g r 0 = Raise IndexError)).
Proof. apply (clicks_and_bounds 50 505). lia. Defined.

Lemma adjacency_pass_idempotent_witness :
  update_all_neighbors (adjacency blocked3) = Ok (adjacency blocked3) /\
  forall g2 g2', grid_ok 3 g2 ->
    (forall p, is_barrier_at g2 p <-> is_barrier_at blocked3 p) ->
    update_all_neighbors g2 = Ok g2' ->
    forall p, neighbors_of g2' p = neighbors_of (adjacency blocked3) p.
Proof.
  apply (adjacency_pass_idempotent 3 blocked3 _ blocked3_ok).
  vm_compute. reflexivity.
Defined.

Lemma adjacency_symmetric_witness :
  (0, 0) ∈ neighbors_of (adjacency blocked3) (0, 1) /\
  ~ is_barrier_at blocked3 (0, 1).
Proof.
  apply (adjacency_symmetric 3 blocked3 _ (0, 0) (0, 1) blocked3_ok).
  - vm_compute. reflexivity.
  - unfold in_bounds. simpl. lia.
  - intros H. vm_compute in H. discriminate.
  - assert (neighbors_of (adjacency blocked3) (0, 0) = [(0, 1)]) as ->
      by (vm_compute; reflexivity).
    left.
Defined.

Lemma h_admissible_witness :
  h (0, 0) (1, 1) <= Z.of_nat 2 /\
  forall a b e, step 5 empty5 a b -> h b e = h a e + 1 \/ h b e = h a e - 1.
Proof.
  apply (h_admissible 5 empty5 2 (0, 0) (1, 1)).
  apply (nsteps_l _ _ _ (1, 0)); [|apply nsteps_once];
    (split_and!;
     [apply elem_of_around; simpl; tauto
     |unfold in_bounds; simpl; lia
     |apply empty5_no_barrier]).
Defined.

Lemma search_finds_a_walk_witness :
  true = true <-> connected 3 ring3 (0, 0) (2, 2).
Proof.
  apply (search_finds_a_walk 3 ring3 (adjacency ring3) (0, 0) (2, 2) 30 true
           (final_state 30 (adjacency ring3) (0, 0) (2, 2)) ring3_ok).
  - vm_compute. reflexivity.
  - unfold in_bounds. simpl. lia.
  - vm_compute. reflexivity.
Defined.

Lemma failed_search_colours_witness :
  let st := final_state 20 (adjacency blocked3) (0, 1) (2, 1) in
  color_at (grid (world st)) (0, 1) = color_at blocked3 (0, 1) /\
  forall p, p <> (0, 1) ->
    (connected 3 blocked3 (0, 1) p ->
       color_at (grid (world st)) p = Some RED) /\
    (~ connected 3 blocked3 (0, 1) p ->
       color_at (grid (world st)) p = color_at blocked3 p).
Proof.
  apply (failed_search_colours 3 blocked3 (adjacency blocked3) (0, 1) (2, 1)
           20 _ blocked3_ok).
  - vm_compute. reflexivity.
  - unfold in_bounds. simpl. lia.
  - vm_compute. reflexivity.
Defined.

Lemma successful_search_colours_witness :
  let st := final_state 30 (adjacency ring3) (0, 0) (2, 2) in
  let p : pos := (0, 2) in
  (p = (2, 2) -> color_at (grid (world st)) p = Some TURQUOISE) /\
  (p <> (2, 2) -> p ∈ path_marks (trace (world st)) ->
     color_at (grid (world st)) p = Some PURPLE) /\
  (p <> (2, 2) -> p ∉ path_marks (trace (world st)) ->
     p <> (0, 0) /\
     (finite st p -> p ∈ open_set_hash st ->
        color_at (grid (world st)) p = Some GREEN) /\
     (finite st p -> p ∉ open_set_hash st ->
        color_at (grid (world st)) p = Some RED) /\
     (~ finite st p -> color_at (grid (world st)) p = color_at ring3 p)).
Proof.
  apply (successful_search_colours 3 ring3 (adjacency ring3) (0, 0) (2, 2)
           30 _ (0, 2) ring3_ok).
  - vm_compute. reflexivity.
  - unfold in_bounds. simpl. lia.
  - vm_compute. reflexivity.
  - unfold in_bounds. simpl. lia.
Defined.

Lemma search_keeps_barriers_witness :
  let st := final_state 30 (adjacency ring3) (0, 0) (2, 2) in
  (forall p, color_at (grid (world st)) p = color_at ring3 p \/
     (connected 3 ring3 (0, 0) p /\
      (color_at (grid (world st)) p = Some GREEN \/
       color_at (grid (world st)) p = Some RED \/
       color_at (grid (world st)) p = Some PURPLE \/
       color_at (grid (world st)) p = Some TURQUOISE))) /\
  (~ is_barrier_at ring3 (0, 0) ->
   forall p, is_barrier_at (grid (world st)) p <-> is_barrier_at ring3 p).
Proof.
  apply (search_keeps_barriers 3 ring3 (adjacency ring3) (0, 0) (2, 2)
           30 true _ ring3_ok).
  - vm_compute. reflexivity.
  - unfold in_bounds. simpl. lia.
  - vm_compute. reflexivity.
Defined.

Lemma search_changes_colours_only_witness :
  let st := final_state 30 (adjacency ring3) (0, 0) (2, 2) in
  grid_ok 3 (grid (world st)) /\
  forall p n, node_at (adjacency ring3) p = Some n ->
    exists c, node_at (grid (world st)) p = Some (set_color c n).
Proof.
  apply (search_changes_colours_only 3 ring3 (adjacency ring3) (0, 0) (2, 2)
           30 true _ ring3_ok).
  - vm_compute. reflexivity.
  - unfold in_bounds. simpl. lia.
  - vm_compute. reflexivity.
Defined.

Lemma marked_path_is_a_walk_witness :
  let st := final_state 30 (adjacency ring3) (0, 0) (2, 2) in
  steps_back (step 3 ring3) ((2, 2) :: path_marks (trace (world st))) /\
  NoDup ((2, 2) :: path_marks (trace (world st))) /\
  last ((2, 2) :: path_marks (trace (world st))) = Some (0, 0) /\
  h (0, 0) (2, 2) <= Z.of_nat (length (path_marks (trace (world st)))) /\
  exists v, g_score st !! (2, 2) = Some (Int v) /\
            Z.of_nat (length (path_marks (trace (world st)))) <= v.
Proof.
  apply (marked_path_is_a_walk 3 ring3 (adjacency ring3) (0, 0) (2, 2)
           30 _ ring3_ok).
  - vm_compute. reflexivity.
  - unfold in_bounds. simpl. lia.
  - vm_compute. reflexivity.
Defined.

Lemma f_score_is_g_plus_h_witness :
  let st := after 2 (0, 0) (2, 2) (init (adjacency ring3) (0, 0) (2, 2)) in
  let p : pos := (0, 2) in
  (is_Some (g_score st !! p) <-> in_bounds 3 p) /\
  (is_Some (f_score st !! p) <-> in_bounds 3 p) /\
  f_score st !! p
  = (fun gp => num_add gp (Int (h p (2, 2)))) <$> g_score st !! p.
Proof.
  apply (f_score_is_g_plus_h 3 ring3 (adjacency ring3) (0, 0) (2, 2) _ (0, 2)
           ring3_ok).
  - vm_compute. reflexivity.
  - unfold in_bounds. simpl. lia.
  - apply reachable_after, reachable_init.
Defined.

Lemma g_score_is_a_walk_length_witness :
  let st := after 2 (0, 0) (2, 2) (init (adjacency ring3) (0, 0) (2, 2)) in
  (forall p v, g_score st !! p = Some (Int v) ->
     0 <= v /\ nsteps (step 3 ring3) (Z.to_nat v) (0, 0) p /\
     h (0, 0) p <= v) /\
  (forall n c, came_from st !! n = Some c -> step 3 ring3 c n).
Proof.
  apply (g_score_is_a_walk_length 3 ring3 (adjacency ring3) (0, 0) (2, 2) _
           ring3_ok).
  - vm_compute. reflexivity.
  - unfold in_bounds. simpl. lia.
  - apply reachable_after, reachable_init.
Defined.

Lemma open_set_mirrors_hash_witness :
  let st := after 2 (0, 0) (2, 2) (init (adjacency ring3) (0, 0) (2, 2)) in
  (forall p, p ∈ open_set_hash st <->
             exists e, e ∈ open_set st /\ node e = p) /\
  NoDup (node <$> open_set st) /\
  forall e, e ∈ open_set st ->
    in_bounds 3 (node e) /\
    exists fe v, prio e = Int fe /\ g_score st !! node e = Some (Int v) /\
      (node e <> (0, 0) ->
         f_score st !! node e = Some (Int (v + h (node e) (2, 2))) /\
         v + h (node e) (2, 2) <= fe).
Proof.
  apply (open_set_mirrors_hash 3 ring3 (adjacency ring3) (0, 0) (2, 2) _
           ring3_ok).
  - vm_compute. reflexivity.
  - unfold in_bounds. simpl. lia.
  - apply reachable_after, reachable_init.
Defined.

Lemma scores_only_improve_witness :
  let st := after 1 (0, 0) (2, 2) (init (adjacency ring3) (0, 0) (2, 2)) in
  (forall p v, g_score st !! p = Some (Int v) ->
     exists v', g_score (after 2 (0, 0) (2, 2) st) !! p = Some (Int v') /\
                v' <= v) /\
  (forall p, is_Some (came_from st !! p) ->
             is_Some (came_from (after 2 (0, 0) (2, 2) st) !! p)) /\
  count st <= count (after 2 (0, 0) (2, 2) st).
Proof.
  apply (scores_only_improve 3 ring3 (adjacency ring3) (0, 0) (2, 2) _ 2
           ring3_ok).
  - vm_compute. reflexivity.
  - unfold in_bounds. simpl. lia.
  - apply reachable_after, reachable_init.
Defined.

Lemma main_keeps_start_and_end_witness :
  let m := match main 40 500 session with
           | Ok m => m
           | _ => mkLocals [] None None false
           end in
  grid_ok ROWS (m_grid m) /\
  (forall s, m_start m = Some s ->
     in_bounds ROWS s /\
     (color_at (m_grid m) s = Some ORANGE \/
      color_at (m_grid m) s = Some PURPLE)) /\
  (forall e, m_end m = Some e ->
     in_bounds ROWS e /\ color_at (m_grid m) e = Some TURQUOISE) /\
  (forall p, color_at (m_grid m) p = Some ORANGE -> m_start m = Some p) /\
  (forall p, color_at (m_grid m) p = Some TURQUOISE -> m_end m = Some p) /\
  (forall s e, m_start m = Some s -> m_end m = Some e ->
     s <> e /\ ~ is_barrier_at (m_grid m) s /\ ~ is_barrier_at (m_grid m) e).
Proof.
  apply (main_keeps_start_and_end 40 500 session).
  vm_compute. reflexivity.
Defined.


Lemma neighbors_in_order_witness :
  neighbors_of (adjacency blocked3) (0, 0)
  = List.filter (fun q => inside 3 q && free blocked3 q)
      [((0, 0).1 + 1, (0, 0).2); ((0, 0).1 - 1, (0, 0).2);
       ((0, 0).1, (0, 0).2 + 1); ((0, 0).1, (0, 0).2 - 1)].
Proof.
  apply (neighbors_in_order 3 blocked3 _ (0, 0) blocked3_ok).
  - vm_compute. reflexivity.
  - unfold in_bounds. simpl. lia.
Defined.

Lemma search_again_same_result_witness :
  let st := final_state 30 (adjacency ring3) (0, 0) (2, 2) in
  let st2 := final_state 30 (adjacency (grid (world st))) (0, 0) (2, 2) in
  true = true /\
  open_closed (trace (world st2)) = open_closed (trace (world st)) /\
  path_marks (trace (world st2)) = path_marks (trace (world st)).
Proof.
  apply (search_again_same_result 3 ring3 (adjacency ring3)
           (adjacency (grid (world (final_state 30 (adjacency ring3)
                                      (0, 0) (2, 2)))))
           (0, 0) (2, 2) 30 true _ 30 true _ ring3_ok).
  - vm_compute. reflexivity.
  - unfold in_bounds. simpl. lia.
  - intros H. vm_compute in H. discriminate.
  - vm_compute. reflexivity.
  - vm_compute. reflexivity.
  - vm_compute. reflexivity.
Defined.

Lemma right_click_undoes_barrier_witness :
  let ev := mkEvent OTHER true true (15, 5) in
  exists m1, left_click 500 ev edited = Ok m1 /\
    m_grid m1 = update_node make_barrier (1, 0) (m_grid edited) /\
    is_barrier_at (m_grid m1) (1, 0) /\
    m_start m1 = m_start edited /\ m_end m1 = m_end edited /\
    right_click 500 ev m1 = Ok edited.
Proof.
  apply (right_click_undoes_barrier 500 (mkEvent OTHER true true (15, 5))
           edited (1, 0)).
  - apply (main_tidy 0 500
             (take 1 session ++ [[mkEvent OTHER true false (25, 5)]])).
    vm_compute. reflexivity.
  - vm_compute. by eexists.
  - vm_compute. by eexists.
  - vm_compute. reflexivity.
  - vm_compute. reflexivity.
Defined.
